(** * Password vault: field cipher, master-password verifier, record store, import codec

    A shallow embedding of the security-relevant code of the password vault
    (src/lib/crypto.ts, the master-password and vault-item route handlers,
    the master-password prompt, the encryption context and the import
    parser) together with executable models of the library calls that code
    makes (crypto-js 4.2.0, bcryptjs 3.0.2, Mongoose 8 lookups, JSON.parse). *)

From Stdlib Require Import List NArith ZArith Lia Bool Ascii String Btauto.
From stdpp Require Import gmap sorting.
Import ListNotations.

Local Open Scope N_scope.

(** ** JavaScript values shared by all modules *)

Module JS.

(** A JavaScript string is a sequence of UTF-16 code units.  A code unit is
    a number below 65536; [code_units] says so. *)
Definition jsstring := list N.

Definition code_units (s : jsstring) : Prop := Forall (fun u => u < 65536) s.

(** An ASCII literal of the source as a JavaScript string. *)
Definition js (s : string) : jsstring := map N_of_ascii (list_ascii_of_string s).

(** [!s] for a string [s]: only the empty string is falsy. *)
Definition falsy_string (s : jsstring) : bool :=
  match s with [] => true | _ :: _ => false end.

(** [a === b] on strings. *)
Fixpoint string_eqb (a b : jsstring) : bool :=
  match a, b with
  | [], [] => true
  | x :: a', y :: b' => N.eqb x y && string_eqb a' b'
  | _, _ => false
  end.

(** The result of running a piece of code that may throw: a returned value
    or the message of the thrown [Error]. *)
Inductive outcome (A : Type) : Type :=
| Return (a : A)
| Throw (message : string).
Arguments Return {A} a.
Arguments Throw {A} message.

Definition bind {A B} (m : outcome A) (k : A -> outcome B) : outcome B :=
  match m with
  | Return a => k a
  | Throw e => Throw e
  end.

(** [try { body } catch (error) { handler }]. *)
Definition try_catch {A} (body : outcome A) (handler : string -> outcome A) : outcome A :=
  match body with
  | Return a => Return a
  | Throw e => handler e
  end.

End JS.

Export JS.

(** ** UTF-8 as crypto-js sees it

    [CryptoJS.enc.Utf8.parse(s)] is [Latin1.parse(unescape(encodeURIComponent(s)))]:
    the UTF-8 bytes of [s], and a [URIError] when [s] has an unpaired
    surrogate.  [CryptoJS.enc.Utf8.stringify(w)] is
    [decodeURIComponent(escape(Latin1.stringify(w)))]: the strict UTF-8
    decoding, and [Error('Malformed UTF-8 data')] when the bytes are not
    well-formed UTF-8. *)

Module Utf8.

Definition octet := ascii.

Definition is_high_surrogate (u : N) : bool := (0xD800 <=? u) && (u <=? 0xDBFF).
Definition is_low_surrogate (u : N) : bool := (0xDC00 <=? u) && (u <=? 0xDFFF).

(** The UTF-8 octets of one code point, as numbers. *)
Definition encode_point (v : N) : list N :=
  if v <? 0x80 then [v]
  else if v <? 0x800 then [0xC0 + v / 64; 0x80 + v mod 64]
  else if v <? 0x10000 then
    [0xE0 + v / 4096; 0x80 + (v / 64) mod 64; 0x80 + v mod 64]
  else
    [0xF0 + v / 262144; 0x80 + (v / 4096) mod 64;
     0x80 + (v / 64) mod 64; 0x80 + v mod 64].

(** [encodeURIComponent] walks the code units, pairs surrogates into one
    code point and fails on a surrogate without its partner. *)
Fixpoint encode_units (s : jsstring) : option (list N) :=
  match s with
  | [] => Some []
  | u :: rest =>
      if is_low_surrogate u then None
      else if is_high_surrogate u then
        match rest with
        | [] => None
        | l :: rest' =>
            if is_low_surrogate l then
              match encode_units rest' with
              | Some bs =>
                  Some (encode_point ((u - 0xD800) * 0x400 + (l - 0xDC00) + 0x10000) ++ bs)
              | None => None
              end
            else None
        end
      else
        match encode_units rest with
        | Some bs => Some (encode_point u ++ bs)
        | None => None
        end
  end.

Definition parse (s : jsstring) : outcome (list octet) :=
  match encode_units s with
  | Some bs => Return (map ascii_of_N bs)
  | None => Throw "URI malformed"
  end.

(** The UTF-16 code units of one decoded code point. *)
Definition units_of_point (v : N) : list N :=
  if v <? 0x10000 then [v]
  else [0xD800 + ((v - 0x10000) / 0x400) mod 0x400; 0xDC00 + (v - 0x10000) mod 0x400].

Definition is_continuation (b : N) : bool := (0x80 <=? b) && (b <? 0xC0).

Definition is_surrogate_point (v : N) : bool := (0xD800 <=? v) && (v <=? 0xDFFF).

(** Strict decoding of a run of octets ([decodeURIComponent]'s Decode):
    no stray continuation octet, no truncated or overlong sequence, no
    encoded surrogate, nothing above U+10FFFF. *)
Fixpoint decode_octets (bs : list N) : option jsstring :=
      match bs with
      | [] => Some []
      | b0 :: r0 =>
          if b0 <? 0x80 then
            option_map (cons b0) (decode_octets r0)
          else if b0 <? 0xC0 then None
          else if b0 <? 0xE0 then
            match r0 with
            | b1 :: r1 =>
                let v := (b0 - 0xC0) * 64 + (b1 - 0x80) in
                if is_continuation b1 && (0x80 <=? v)
                then option_map (app (units_of_point v)) (decode_octets r1)
                else None
            | _ => None
            end
          else if b0 <? 0xF0 then
            match r0 with
            | b1 :: b2 :: r2 =>
                let v := (b0 - 0xE0) * 4096 + (b1 - 0x80) * 64 + (b2 - 0x80) in
                if is_continuation b1 && is_continuation b2
                   && (0x800 <=? v) && negb (is_surrogate_point v)
                then option_map (app (units_of_point v)) (decode_octets r2)
                else None
            | _ => None
            end
          else if b0 <? 0xF8 then
            match r0 with
            | b1 :: b2 :: b3 :: r3 =>
                let v := (b0 - 0xF0) * 262144 + (b1 - 0x80) * 4096
                         + (b2 - 0x80) * 64 + (b3 - 0x80) in
                if is_continuation b1 && is_continuation b2 && is_continuation b3
                   && (0x10000 <=? v) && (v <=? 0x10FFFF)
                then option_map (app (units_of_point v)) (decode_octets r3)
                else None
            | _ => None
            end
          else None
      end.

Definition stringify (bytes : list octet) : outcome jsstring :=
  match decode_octets (map N_of_ascii bytes) with
  | Some s => Return s
  | None => Throw "Malformed UTF-8 data"
  end.

End Utf8.

Export Utf8.

(** ** MD5, the digest of crypto-js's passphrase key derivation *)

Module MD5.

Definition add32 (a b : N) : N := (a + b) mod 4294967296.

Definition rotl32 (x c : N) : N :=
  N.lor (N.shiftl x c mod 4294967296) (N.shiftr x (32 - c)).

Definition not32 (x : N) : N := N.lxor x 0xFFFFFFFF.

(** [T[i] = (Math.abs(Math.sin(i + 1)) * 0x100000000) | 0]. *)
Definition T : list N :=
  [0xd76aa478; 0xe8c7b756; 0x242070db; 0xc1bdceee;
   0xf57c0faf; 0x4787c62a; 0xa8304613; 0xfd469501;
   0x698098d8; 0x8b44f7af; 0xffff5bb1; 0x895cd7be;
   0x6b901122; 0xfd987193; 0xa679438e; 0x49b40821;
   0xf61e2562; 0xc040b340; 0x265e5a51; 0xe9b6c7aa;
   0xd62f105d; 0x2441453; 0xd8a1e681; 0xe7d3fbc8;
   0x21e1cde6; 0xc33707d6; 0xf4d50d87; 0x455a14ed;
   0xa9e3e905; 0xfcefa3f8; 0x676f02d9; 0x8d2a4c8a;
   0xfffa3942; 0x8771f681; 0x6d9d6122; 0xfde5380c;
   0xa4beea44; 0x4bdecfa9; 0xf6bb4b60; 0xbebfbc70;
   0x289b7ec6; 0xeaa127fa; 0xd4ef3085; 0x4881d05;
   0xd9d4d039; 0xe6db99e5; 0x1fa27cf8; 0xc4ac5665;
   0xf4292244; 0x432aff97; 0xab9423a7; 0xfc93a039;
   0x655b59c3; 0x8f0ccc92; 0xffeff47d; 0x85845dd1;
   0x6fa87e4f; 0xfe2ce6e0; 0xa3014314; 0x4e0811a1;
   0xf7537e82; 0xbd3af235; 0x2ad7d2bb; 0xeb86d391].

Definition shifts : list N :=
  [7; 12; 17; 22; 7; 12; 17; 22; 7; 12; 17; 22; 7; 12; 17; 22;
   5; 9; 14; 20; 5; 9; 14; 20; 5; 9; 14; 20; 5; 9; 14; 20;
   4; 11; 16; 23; 4; 11; 16; 23; 4; 11; 16; 23; 4; 11; 16; 23;
   6; 10; 15; 21; 6; 10; 15; 21; 6; 10; 15; 21; 6; 10; 15; 21].

Definition state := (N * N * N * N)%type.

Definition initial : state := (0x67452301, 0xefcdab89, 0x98badcfe, 0x10325476).

(** The round function and message-word index of step [i]. *)
Definition mix (i : nat) (b c d : N) : N * nat :=
  if (i <? 16)%nat then (N.lor (N.land b c) (N.land (not32 b) d), i)
  else if (i <? 32)%nat then
    (N.lor (N.land b d) (N.land c (not32 d)), ((5 * i + 1) mod 16)%nat)
  else if (i <? 48)%nat then (N.lxor b (N.lxor c d), ((3 * i + 5) mod 16)%nat)
  else (N.lxor c (N.lor b (not32 d)), ((7 * i) mod 16)%nat).

Definition step (M : list N) (st : state) (i : nat) : state :=
  let '(a, b, c, d) := st in
  let '(f, g) := mix i b c d in
  let sum := add32 (add32 (add32 a f) (nth i T 0)) (nth g M 0) in
  (d, add32 b (rotl32 sum (nth i shifts 0)), b, c).

(** One 64-octet block, given as sixteen little-endian words. *)
Definition compress (st : state) (M : list N) : state :=
  let '(a, b, c, d) := st in
  let '(a', b', c', d') := fold_left (step M) (seq 0 64) st in
  (add32 a a', add32 b b', add32 c c', add32 d d').

Definition word_of_le (b0 b1 b2 b3 : N) : N :=
  b0 + 256 * b1 + 65536 * b2 + 16777216 * b3.

Fixpoint words_le (bs : list N) : list N :=
  match bs with
  | b0 :: b1 :: b2 :: b3 :: rest => word_of_le b0 b1 b2 b3 :: words_le rest
  | _ => []
  end.

Definition le_octets (n : nat) (x : N) : list N :=
  map (fun k => (x / 256 ^ N.of_nat k) mod 256) (seq 0 n).

(** Padding: a 1 bit, zeros up to 56 modulo 64, the bit length on 64 bits. *)
Definition pad (msg : list N) : list N :=
  let len := N.of_nat (length msg) in
  let zeros := N.to_nat ((119 - len mod 64) mod 64) in
  msg ++ [0x80] ++ repeat 0 zeros ++ le_octets 8 ((8 * len) mod 2 ^ 64).

Fixpoint absorb (fuel : nat) (st : state) (bs : list N) : state :=
  match fuel with
  | O => st
  | S fuel' =>
      match bs with
      | [] => st
      | _ => absorb fuel' (compress st (words_le (firstn 64 bs))) (skipn 64 bs)
      end
  end.

Definition digest (msg : list octet) : list octet :=
  let padded := pad (map N_of_ascii msg) in
  let '(a, b, c, d) := absorb (length padded) initial padded in
  map ascii_of_N (le_octets 4 a ++ le_octets 4 b ++ le_octets 4 c ++ le_octets 4 d).

End MD5.

(** ** AES-256 in CBC mode, as [CryptoJS.AES] runs it for a passphrase
    (the FIPS-197 cipher and inverse cipher). *)

Module AES.

Definition column := (octet * octet * octet * octet)%type.
Definition block := (column * column * column * column)%type.

Definition xor8 (a b : octet) : octet :=
  match a, b with
  | Ascii a0 a1 a2 a3 a4 a5 a6 a7, Ascii b0 b1 b2 b3 b4 b5 b6 b7 =>
      Ascii (xorb a0 b0) (xorb a1 b1) (xorb a2 b2) (xorb a3 b3)
            (xorb a4 b4) (xorb a5 b5) (xorb a6 b6) (xorb a7 b7)
  end.

Definition xor_column (x y : column) : column :=
  let '(x0, x1, x2, x3) := x in
  let '(y0, y1, y2, y3) := y in
  (xor8 x0 y0, xor8 x1 y1, xor8 x2 y2, xor8 x3 y3).

Definition xor_block (x y : block) : block :=
  let '(x0, x1, x2, x3) := x in
  let '(y0, y1, y2, y3) := y in
  (xor_column x0 y0, xor_column x1 y1, xor_column x2 y2, xor_column x3 y3).

Definition SBOX : list octet := Eval vm_compute in map ascii_of_N
  [0x63; 0x7c; 0x77; 0x7b; 0xf2; 0x6b; 0x6f; 0xc5; 0x30; 0x01; 0x67; 0x2b; 0xfe; 0xd7; 0xab; 0x76;
   0xca; 0x82; 0xc9; 0x7d; 0xfa; 0x59; 0x47; 0xf0; 0xad; 0xd4; 0xa2; 0xaf; 0x9c; 0xa4; 0x72; 0xc0;
   0xb7; 0xfd; 0x93; 0x26; 0x36; 0x3f; 0xf7; 0xcc; 0x34; 0xa5; 0xe5; 0xf1; 0x71; 0xd8; 0x31; 0x15;
   0x04; 0xc7; 0x23; 0xc3; 0x18; 0x96; 0x05; 0x9a; 0x07; 0x12; 0x80; 0xe2; 0xeb; 0x27; 0xb2; 0x75;
   0x09; 0x83; 0x2c; 0x1a; 0x1b; 0x6e; 0x5a; 0xa0; 0x52; 0x3b; 0xd6; 0xb3; 0x29; 0xe3; 0x2f; 0x84;
   0x53; 0xd1; 0x00; 0xed; 0x20; 0xfc; 0xb1; 0x5b; 0x6a; 0xcb; 0xbe; 0x39; 0x4a; 0x4c; 0x58; 0xcf;
   0xd0; 0xef; 0xaa; 0xfb; 0x43; 0x4d; 0x33; 0x85; 0x45; 0xf9; 0x02; 0x7f; 0x50; 0x3c; 0x9f; 0xa8;
   0x51; 0xa3; 0x40; 0x8f; 0x92; 0x9d; 0x38; 0xf5; 0xbc; 0xb6; 0xda; 0x21; 0x10; 0xff; 0xf3; 0xd2;
   0xcd; 0x0c; 0x13; 0xec; 0x5f; 0x97; 0x44; 0x17; 0xc4; 0xa7; 0x7e; 0x3d; 0x64; 0x5d; 0x19; 0x73;
   0x60; 0x81; 0x4f; 0xdc; 0x22; 0x2a; 0x90; 0x88; 0x46; 0xee; 0xb8; 0x14; 0xde; 0x5e; 0x0b; 0xdb;
   0xe0; 0x32; 0x3a; 0x0a; 0x49; 0x06; 0x24; 0x5c; 0xc2; 0xd3; 0xac; 0x62; 0x91; 0x95; 0xe4; 0x79;
   0xe7; 0xc8; 0x37; 0x6d; 0x8d; 0xd5; 0x4e; 0xa9; 0x6c; 0x56; 0xf4; 0xea; 0x65; 0x7a; 0xae; 0x08;
   0xba; 0x78; 0x25; 0x2e; 0x1c; 0xa6; 0xb4; 0xc6; 0xe8; 0xdd; 0x74; 0x1f; 0x4b; 0xbd; 0x8b; 0x8a;
   0x70; 0x3e; 0xb5; 0x66; 0x48; 0x03; 0xf6; 0x0e; 0x61; 0x35; 0x57; 0xb9; 0x86; 0xc1; 0x1d; 0x9e;
   0xe1; 0xf8; 0x98; 0x11; 0x69; 0xd9; 0x8e; 0x94; 0x9b; 0x1e; 0x87; 0xe9; 0xce; 0x55; 0x28; 0xdf;
   0x8c; 0xa1; 0x89; 0x0d; 0xbf; 0xe6; 0x42; 0x68; 0x41; 0x99; 0x2d; 0x0f; 0xb0; 0x54; 0xbb; 0x16].

Definition INV_SBOX : list octet := Eval vm_compute in map ascii_of_N
  [0x52; 0x09; 0x6a; 0xd5; 0x30; 0x36; 0xa5; 0x38; 0xbf; 0x40; 0xa3; 0x9e; 0x81; 0xf3; 0xd7; 0xfb;
   0x7c; 0xe3; 0x39; 0x82; 0x9b; 0x2f; 0xff; 0x87; 0x34; 0x8e; 0x43; 0x44; 0xc4; 0xde; 0xe9; 0xcb;
   0x54; 0x7b; 0x94; 0x32; 0xa6; 0xc2; 0x23; 0x3d; 0xee; 0x4c; 0x95; 0x0b; 0x42; 0xfa; 0xc3; 0x4e;
   0x08; 0x2e; 0xa1; 0x66; 0x28; 0xd9; 0x24; 0xb2; 0x76; 0x5b; 0xa2; 0x49; 0x6d; 0x8b; 0xd1; 0x25;
   0x72; 0xf8; 0xf6; 0x64; 0x86; 0x68; 0x98; 0x16; 0xd4; 0xa4; 0x5c; 0xcc; 0x5d; 0x65; 0xb6; 0x92;
   0x6c; 0x70; 0x48; 0x50; 0xfd; 0xed; 0xb9; 0xda; 0x5e; 0x15; 0x46; 0x57; 0xa7; 0x8d; 0x9d; 0x84;
   0x90; 0xd8; 0xab; 0x00; 0x8c; 0xbc; 0xd3; 0x0a; 0xf7; 0xe4; 0x58; 0x05; 0xb8; 0xb3; 0x45; 0x06;
   0xd0; 0x2c; 0x1e; 0x8f; 0xca; 0x3f; 0x0f; 0x02; 0xc1; 0xaf; 0xbd; 0x03; 0x01; 0x13; 0x8a; 0x6b;
   0x3a; 0x91; 0x11; 0x41; 0x4f; 0x67; 0xdc; 0xea; 0x97; 0xf2; 0xcf; 0xce; 0xf0; 0xb4; 0xe6; 0x73;
   0x96; 0xac; 0x74; 0x22; 0xe7; 0xad; 0x35; 0x85; 0xe2; 0xf9; 0x37; 0xe8; 0x1c; 0x75; 0xdf; 0x6e;
   0x47; 0xf1; 0x1a; 0x71; 0x1d; 0x29; 0xc5; 0x89; 0x6f; 0xb7; 0x62; 0x0e; 0xaa; 0x18; 0xbe; 0x1b;
   0xfc; 0x56; 0x3e; 0x4b; 0xc6; 0xd2; 0x79; 0x20; 0x9a; 0xdb; 0xc0; 0xfe; 0x78; 0xcd; 0x5a; 0xf4;
   0x1f; 0xdd; 0xa8; 0x33; 0x88; 0x07; 0xc7; 0x31; 0xb1; 0x12; 0x10; 0x59; 0x27; 0x80; 0xec; 0x5f;
   0x60; 0x51; 0x7f; 0xa9; 0x19; 0xb5; 0x4a; 0x0d; 0x2d; 0xe5; 0x7a; 0x9f; 0x93; 0xc9; 0x9c; 0xef;
   0xa0; 0xe0; 0x3b; 0x4d; 0xae; 0x2a; 0xf5; 0xb0; 0xc8; 0xeb; 0xbb; 0x3c; 0x83; 0x53; 0x99; 0x61;
   0x17; 0x2b; 0x04; 0x7e; 0xba; 0x77; 0xd6; 0x26; 0xe1; 0x69; 0x14; 0x63; 0x55; 0x21; 0x0c; 0x7d].

Definition sub (b : octet) : octet := nth (nat_of_ascii b) SBOX zero.
Definition inv_sub (b : octet) : octet := nth (nat_of_ascii b) INV_SBOX zero.

Definition on_column (f : octet -> octet) (c : column) : column :=
  let '(a0, a1, a2, a3) := c in (f a0, f a1, f a2, f a3).

Definition on_block (f : column -> column) (s : block) : block :=
  let '(c0, c1, c2, c3) := s in (f c0, f c1, f c2, f c3).

Definition sub_bytes : block -> block := on_block (on_column sub).
Definition inv_sub_bytes : block -> block := on_block (on_column inv_sub).

(** Row [r] of the state rotates left by [r] columns. *)
Definition shift_rows (s : block) : block :=
  let '((a0, a1, a2, a3), (b0, b1, b2, b3), (c0, c1, c2, c3), (d0, d1, d2, d3)) := s in
  ((a0, b1, c2, d3), (b0, c1, d2, a3), (c0, d1, a2, b3), (d0, a1, b2, c3)).

Definition inv_shift_rows (s : block) : block :=
  let '((a0, a1, a2, a3), (b0, b1, b2, b3), (c0, c1, c2, c3), (d0, d1, d2, d3)) := s in
  ((a0, d1, c2, b3), (b0, a1, d2, c3), (c0, b1, a2, d3), (d0, c1, b2, a3)).

(** Multiplication by x in GF(2^8) modulo x^8 + x^4 + x^3 + x + 1. *)
Definition xtime (a : octet) : octet :=
  let 'Ascii a0 a1 a2 a3 a4 a5 a6 a7 := a in
  Ascii a7 (xorb a0 a7) a1 (xorb a2 a7) (xorb a3 a7) a4 a5 a6.

Definition mul3 (a : octet) : octet := xor8 (xtime a) a.
Definition mul9 (a : octet) : octet := xor8 (xtime (xtime (xtime a))) a.
Definition mul11 (a : octet) : octet :=
  xor8 (xtime (xtime (xtime a))) (xor8 (xtime a) a).
Definition mul13 (a : octet) : octet :=
  xor8 (xtime (xtime (xtime a))) (xor8 (xtime (xtime a)) a).
Definition mul14 (a : octet) : octet :=
  xor8 (xtime (xtime (xtime a))) (xor8 (xtime (xtime a)) (xtime a)).

Definition xor4 (a b c d : octet) : octet := xor8 (xor8 a b) (xor8 c d).

Definition mix_column (c : column) : column :=
  let '(a0, a1, a2, a3) := c in
  (xor4 (xtime a0) (mul3 a1) a2 a3,
   xor4 a0 (xtime a1) (mul3 a2) a3,
   xor4 a0 a1 (xtime a2) (mul3 a3),
   xor4 (mul3 a0) a1 a2 (xtime a3)).

Definition inv_mix_column (c : column) : column :=
  let '(a0, a1, a2, a3) := c in
  (xor4 (mul14 a0) (mul11 a1) (mul13 a2) (mul9 a3),
   xor4 (mul9 a0) (mul14 a1) (mul11 a2) (mul13 a3),
   xor4 (mul13 a0) (mul9 a1) (mul14 a2) (mul11 a3),
   xor4 (mul11 a0) (mul13 a1) (mul9 a2) (mul14 a3)).

Definition mix_columns : block -> block := on_block mix_column.
Definition inv_mix_columns : block -> block := on_block inv_mix_column.

(** *** Key schedule for a 256-bit key: sixty words, fifteen round keys *)

Definition rot_word (w : column) : column :=
  let '(a0, a1, a2, a3) := w in (a1, a2, a3, a0).

Definition sub_word : column -> column := on_column sub.

Definition key256 := (column * column * column * column
                      * column * column * column * column)%type.

Definition next_key (rcon : octet) (k : key256) : key256 :=
  let '(w0, w1, w2, w3, w4, w5, w6, w7) := k in
  let n0 := xor_column w0 (xor_column (sub_word (rot_word w7)) (rcon, zero, zero, zero)) in
  let n1 := xor_column w1 n0 in
  let n2 := xor_column w2 n1 in
  let n3 := xor_column w3 n2 in
  let n4 := xor_column w4 (sub_word n3) in
  let n5 := xor_column w5 n4 in
  let n6 := xor_column w6 n5 in
  let n7 := xor_column w7 n6 in
  (n0, n1, n2, n3, n4, n5, n6, n7).

Definition round_keys_of (k : key256) : list block :=
  let '(w0, w1, w2, w3, w4, w5, w6, w7) := k in
  [(w0, w1, w2, w3); (w4, w5, w6, w7)].

Definition RCON : list octet := Eval vm_compute in
  map ascii_of_N [0x01; 0x02; 0x04; 0x08; 0x10; 0x20; 0x40].

Fixpoint schedule (rcons : list octet) (k : key256) : list block :=
  match rcons with
  | [] => round_keys_of k
  | r :: rcons' => round_keys_of k ++ schedule rcons' (next_key r k)
  end.

(** The fifteen round keys. *)
Definition key_schedule (k : key256) : list block := firstn 15 (schedule RCON k).

(** *** The cipher and its inverse over a list of round keys *)

Definition round (s rk : block) : block :=
  xor_block (mix_columns (shift_rows (sub_bytes s))) rk.

Definition final_round (s rk : block) : block :=
  xor_block (shift_rows (sub_bytes s)) rk.

Fixpoint rounds (s : block) (rks : list block) : block :=
  match rks with
  | [] => s
  | rk :: rks' =>
      match rks' with
      | [] => final_round s rk
      | _ :: _ => rounds (round s rk) rks'
      end
  end.

Definition encrypt_block (rks : list block) (s : block) : block :=
  match rks with
  | [] => s
  | rk0 :: rks' => rounds (xor_block s rk0) rks'
  end.

Definition inv_round (s rk : block) : block :=
  inv_sub_bytes (inv_shift_rows (inv_mix_columns (xor_block s rk))).

Definition inv_final_round (s rk : block) : block :=
  inv_sub_bytes (inv_shift_rows (xor_block s rk)).

Fixpoint inv_rounds (s : block) (rks : list block) : block :=
  match rks with
  | [] => s
  | rk :: rks' =>
      match rks' with
      | [] => inv_final_round s rk
      | _ :: _ => inv_round (inv_rounds s rks') rk
      end
  end.

Definition decrypt_block (rks : list block) (s : block) : block :=
  match rks with
  | [] => s
  | rk0 :: rks' => xor_block (inv_rounds s rks') rk0
  end.

(** *** Blocks of an octet string *)

Definition column_of (bs : list octet) : column :=
  (nth 0 bs zero, nth 1 bs zero, nth 2 bs zero, nth 3 bs zero).

Definition block_of (bs : list octet) : block :=
  (column_of bs, column_of (skipn 4 bs), column_of (skipn 8 bs), column_of (skipn 12 bs)).

Definition octets_of_column (c : column) : list octet :=
  let '(a0, a1, a2, a3) := c in [a0; a1; a2; a3].

Definition octets_of_block (s : block) : list octet :=
  let '(c0, c1, c2, c3) := s in
  octets_of_column c0 ++ octets_of_column c1 ++ octets_of_column c2 ++ octets_of_column c3.

(** Sixteen octets at a time; crypto-js reads the words missing from a
    short last block as zero. *)
Fixpoint blocks_of (fuel : nat) (bs : list octet) : list block :=
  match fuel with
  | O => []
  | S fuel' =>
      match bs with
      | [] => []
      | _ :: _ => block_of bs :: blocks_of fuel' (skipn 16 bs)
      end
  end.

Definition key256_of (bs : list octet) : key256 :=
  (column_of bs, column_of (skipn 4 bs), column_of (skipn 8 bs), column_of (skipn 12 bs),
   column_of (skipn 16 bs), column_of (skipn 20 bs), column_of (skipn 24 bs),
   column_of (skipn 28 bs)).

(** *** CBC *)

Fixpoint cbc_encrypt (rks : list block) (prev : block) (ps : list block) : list block :=
  match ps with
  | [] => []
  | p :: ps' =>
      let c := encrypt_block rks (xor_block p prev) in
      c :: cbc_encrypt rks c ps'
  end.

Fixpoint cbc_decrypt (rks : list block) (prev : block) (cs : list block) : list block :=
  match cs with
  | [] => []
  | c :: cs' => xor_block (decrypt_block rks c) prev :: cbc_decrypt rks c cs'
  end.

End AES.

(** ** Base64, as [CryptoJS.enc.Base64] writes and reads it

    The shifts and masks of the library select bits; they are written here
    as the selection itself: six bits at a time, most significant first. *)

Module Base64.

Definition _map : jsstring :=
  js "ABCDEFGHIJKLMNOPQRSTUVWXYZabcdefghijklmnopqrstuvwxyz0123456789+/=".

Definition paddingChar : N := nth 64 _map 0.

Definition sextet := (bool * bool * bool * bool * bool * bool)%type.

Definition N_of_sextet (x : sextet) : N :=
  let '(x5, x4, x3, x2, x1, x0) := x in N_of_ascii (Ascii x0 x1 x2 x3 x4 x5 false false).

Definition sextet_of_N (v : N) : sextet :=
  let 'Ascii x0 x1 x2 x3 x4 x5 _ _ := ascii_of_N v in (x5, x4, x3, x2, x1, x0).

(** [map.charAt(v)] *)
Definition charAt (x : sextet) : N := nth (N.to_nat (N_of_sextet x)) _map 0.

Definition no : bool := false.

(** [stringify]: three octets give four characters; a last group of one or
    two octets gives two or three characters, filled up with the padding
    character. *)
Fixpoint stringify_octets (bs : list octet) : jsstring :=
  match bs with
  | [] => []
  | Ascii a0 a1 a2 a3 a4 a5 a6 a7 :: rest =>
      match rest with
      | [] =>
          [charAt (a7, a6, a5, a4, a3, a2); charAt (a1, a0, no, no, no, no);
           paddingChar; paddingChar]
      | Ascii b0 b1 b2 b3 b4 b5 b6 b7 :: rest' =>
          match rest' with
          | [] =>
              [charAt (a7, a6, a5, a4, a3, a2); charAt (a1, a0, b7, b6, b5, b4);
               charAt (b3, b2, b1, b0, no, no); paddingChar]
          | Ascii c0 c1 c2 c3 c4 c5 c6 c7 :: rest'' =>
              charAt (a7, a6, a5, a4, a3, a2) :: charAt (a1, a0, b7, b6, b5, b4)
              :: charAt (b3, b2, b1, b0, c7, c6) :: charAt (c5, c4, c3, c2, c1, c0)
              :: stringify_octets rest''
          end
      end
  end.

Definition stringify (bytes : list octet) : jsstring := stringify_octets bytes.

(** [reverseMap[c]]; a character outside the map reads [undefined], which
    the shifts turn into 0. *)
Fixpoint index_of (c : N) (l : list N) (i : N) : N :=
  match l with
  | [] => 0
  | x :: l' => if N.eqb x c then i else index_of c l' (i + 1)
  end.

Definition reverseMap (c : N) : sextet := sextet_of_N (index_of c _map 0).

(** The input up to its first padding character. *)
Fixpoint before_padding (s : jsstring) : jsstring :=
  match s with
  | [] => []
  | c :: s' => if N.eqb c paddingChar then [] else c :: before_padding s'
  end.

(** The octet that two neighbouring characters give at positions 1, 2 and
    3 of a group of four. *)
Definition combine1 (prev cur : N) : octet :=
  let '(x5, x4, x3, x2, x1, x0) := reverseMap prev in
  let '(y5, y4, _, _, _, _) := reverseMap cur in
  Ascii y4 y5 x0 x1 x2 x3 x4 x5.

Definition combine2 (prev cur : N) : octet :=
  let '(_, _, x3, x2, x1, x0) := reverseMap prev in
  let '(y5, y4, y3, y2, _, _) := reverseMap cur in
  Ascii y2 y3 y4 y5 x0 x1 x2 x3.

Definition combine3 (prev cur : N) : octet :=
  let '(_, _, _, _, x1, x0) := reverseMap prev in
  let '(y5, y4, y3, y2, y1, y0) := reverseMap cur in
  Ascii y0 y1 y2 y3 y4 y5 x0 x1.

Fixpoint parseLoop (cs : jsstring) : list octet :=
  match cs with
  | c0 :: c1 :: c2 :: c3 :: rest =>
      combine1 c0 c1 :: combine2 c1 c2 :: combine3 c2 c3 :: parseLoop rest
  | c0 :: c1 :: c2 :: [] => [combine1 c0 c1; combine2 c1 c2]
  | c0 :: c1 :: [] => [combine1 c0 c1]
  | _ => []
  end.

Definition parse (base64Str : jsstring) : list octet :=
  parseLoop (before_padding base64Str).

End Base64.

(** ** The passphrase-based cipher of crypto-js 4.2.0 *)

Module CryptoJS.

(** A [WordArray]: whole 32-bit words, of which the first [sigBytes] octets
    count. *)
Record WordArray := { words : list octet; sigBytes : Z }.

(** The eight octets that [WordArray.random(64/8)] delivers. *)
Definition salt64 := (AES.column * AES.column)%type.

Definition octets_of_salt (r : salt64) : list octet :=
  AES.octets_of_column (fst r) ++ AES.octets_of_column (snd r).

(** [EvpKDF] with its defaults (MD5, one iteration) for [keySize + ivSize]
    = 12 words: three chained digests of password and salt. *)
Definition EvpKDF (password salt : list octet) : list octet :=
  let d1 := MD5.digest (password ++ salt) in
  let d2 := MD5.digest (d1 ++ password ++ salt) in
  let d3 := MD5.digest (d2 ++ password ++ salt) in
  d1 ++ d2 ++ d3.

(** [pad.Pkcs7.pad] for the 16-octet block. *)
Definition Pkcs7_pad (data : list octet) : list octet :=
  let nPaddingBytes := (16 - length data mod 16)%nat in
  data ++ repeat (ascii_of_nat nPaddingBytes) nPaddingBytes.

(** [pad.Pkcs7.unpad]: the low octet of the word that holds the last
    significant octet is taken as the padding length, unchecked. *)
Definition Pkcs7_unpad (data : WordArray) : WordArray :=
  let nPaddingBytes :=
    if (sigBytes data <=? 0)%Z then 0%Z
    else Z.of_nat (nat_of_ascii
           (nth (Z.to_nat (4 * ((sigBytes data - 1) / 4) + 3)) (words data) zero)) in
  {| words := words data; sigBytes := (sigBytes data - nPaddingBytes)%Z |}.

Definition Salted__ : list octet := list_ascii_of_string "Salted__".

Record CipherParams := { ciphertext : list octet; salt : list octet }.

(** [format.OpenSSL.stringify]. *)
Definition toString (cp : CipherParams) : jsstring :=
  Base64.stringify (Salted__ ++ salt cp ++ ciphertext cp).

Definition octets_of_blocks (bs : list AES.block) : list octet :=
  flat_map AES.octets_of_block bs.

Definition blocks_of_octets (bs : list octet) : list AES.block :=
  AES.blocks_of (length bs) bs.

(** [CryptoJS.AES.encrypt(message, password)] for two strings. *)
Definition AES_encrypt (random : salt64) (message password : jsstring)
  : outcome CipherParams :=
  match Utf8.parse password with
  | Throw e => Throw e
  | Return pw =>
      match Utf8.parse message with
      | Throw e => Throw e
      | Return data =>
          let s := octets_of_salt random in
          let derived := EvpKDF pw s in
          let rks := AES.key_schedule (AES.key256_of derived) in
          let iv := AES.block_of (skipn 32 derived) in
          Return {| ciphertext :=
                      octets_of_blocks
                        (AES.cbc_encrypt rks iv (blocks_of_octets (Pkcs7_pad data)));
                    salt := s |}
      end
  end.

(** The octets of a word array filled up with zeros to whole words. *)
Definition whole_words (bs : list octet) : list octet :=
  bs ++ repeat zero ((4 - length bs mod 4) mod 4)%nat.

Definition octets_eqb (a b : list octet) : bool :=
  string_eqb (map N_of_ascii a) (map N_of_ascii b).

(** [format.OpenSSL.parse]: the envelope is split when it starts with the
    two words of "Salted__"; the salt is then what exists of words 2 and 3. *)
Definition OpenSSL_parse (openSSLStr : jsstring) : list octet * option (list octet) * Z :=
  let raw := Base64.parse openSSLStr in
  let ws := whole_words raw in
  if octets_eqb (firstn 8 ws) Salted__
  then (skipn 16 ws, Some (firstn 8 (skipn 8 ws)), (Z.of_nat (length raw) - 16)%Z)
  else (ws, None, Z.of_nat (length raw)).

(** [CryptoJS.AES.decrypt(ciphertext, password)] for two strings.  Without
    a salt in the envelope the key derivation draws a random one. *)
Definition AES_decrypt (random : salt64) (ciphertext password : jsstring)
  : outcome WordArray :=
  let '(ct, salt, sig) := OpenSSL_parse ciphertext in
  let s := match salt with Some s => s | None => octets_of_salt random end in
  match Utf8.parse password with
  | Throw e => Throw e
  | Return pw =>
      let derived := EvpKDF pw s in
      let rks := AES.key_schedule (AES.key256_of derived) in
      let iv := AES.block_of (skipn 32 derived) in
      Return (Pkcs7_unpad
                {| words := octets_of_blocks (AES.cbc_decrypt rks iv (blocks_of_octets ct));
                   sigBytes := sig |})
  end.

(** [wordArray.toString(CryptoJS.enc.Utf8)]. *)
Definition toString_Utf8 (w : WordArray) : outcome jsstring :=
  Utf8.stringify (firstn (Z.to_nat (sigBytes w)) (words w)).

End CryptoJS.

(** ** src/lib/crypto.ts *)

Module Crypto.

(** [encrypt(plaintext, key)]; [random] is the salt crypto-js draws. *)
Definition encrypt (random : CryptoJS.salt64) (plaintext key : jsstring) : outcome jsstring :=
  if falsy_string plaintext then Return []
  else
    try_catch
      (bind (CryptoJS.AES_encrypt random plaintext key) (fun cp =>
       let ciphertext := CryptoJS.toString cp in
       Return ciphertext))
      (fun error => Throw "Failed to encrypt data").

(** [decrypt(ciphertext, key)]. *)
Definition decrypt (random : CryptoJS.salt64) (ciphertext key : jsstring) : outcome jsstring :=
  if falsy_string ciphertext then Return []
  else
    try_catch
      (bind (CryptoJS.AES_decrypt random ciphertext key) (fun bytes =>
       bind (CryptoJS.toString_Utf8 bytes) (fun plaintext =>
       if falsy_string plaintext
       then Throw "Decryption failed - invalid key or corrupted data"
       else Return plaintext)))
      (fun error => Throw "Failed to decrypt data - wrong master password?").

(** [validateMasterPassword(password)]. *)

Inductive strength := weak | medium | strong | very_strong.

Record validation := {
  isValid : bool;
  message : option string;
  strength_of : strength
}.

(** [/re/.test(password)] for a one-character class: some code unit is in
    the class. *)
Definition test (class : N -> bool) (password : jsstring) : bool := existsb class password.

Definition lower (c : N) : bool := (97 <=? c) && (c <=? 122).
Definition upper (c : N) : bool := (65 <=? c) && (c <=? 90).
Definition digit (c : N) : bool := (48 <=? c) && (c <=? 57).
Definition other (c : N) : bool := negb (lower c || upper c || digit c).

Definition score_of (password : jsstring) : nat :=
  let score := 0%nat in
  let score := if (12 <=? length password)%nat then S score else score in
  let score := if (16 <=? length password)%nat then S score else score in
  let score := if test lower password && test upper password then S score else score in
  let score := if test digit password then S score else score in
  let score := if test other password then S score else score in
  score.

Definition strength_of_score (score : nat) : strength :=
  if (score <=? 1)%nat then weak
  else if (score =? 2)%nat then medium
  else if (score =? 3)%nat || (score =? 4)%nat then strong
  else very_strong.

Definition validateMasterPassword (password : jsstring) : validation :=
  if (length password <? 8)%nat then
    {| isValid := false;
       message := Some "Master password must be at least 8 characters"%string;
       strength_of := weak |}
  else
    let strength := strength_of_score (score_of password) in
    match strength with
    | weak =>
        {| isValid := true;
           message := Some "Consider using a stronger master password"%string;
           strength_of := weak |}
    | _ => {| isValid := true; message := None; strength_of := strength |}
    end.

End Crypto.

(** ** bcryptjs 3.0.2, symbolically

    bcrypt reads the UTF-8 octets of the password followed by a NUL octet,
    cyclically, for the 18 words of the Blowfish P-array: 72 octets, and
    nothing beyond them.  The digest itself is treated as an ideal hash of
    what it reads (cost, salt and those 72 octets), so a hash is represented
    by exactly these three values. *)

Module Bcrypt.

(** [utf8Array]: surrogate pairs give four octets, any other code unit
    above 0x7FF three. *)
Fixpoint utf8Array (s : jsstring) : list N :=
  match s with
  | [] => []
  | c1 :: rest =>
      if c1 <? 128 then c1 :: utf8Array rest
      else if c1 <? 2048 then
        N.lor (N.shiftr c1 6) 192 :: N.lor (N.land c1 63) 128 :: utf8Array rest
      else
        match rest with
        | c2 :: rest' =>
            if (N.land c1 0xfc00 =? 0xd800) && (N.land c2 0xfc00 =? 0xdc00) then
              let c := 0x10000 + N.shiftl (N.land c1 0x03ff) 10 + N.land c2 0x03ff in
              N.lor (N.shiftr c 18) 240 :: N.lor (N.land (N.shiftr c 12) 63) 128
              :: N.lor (N.land (N.shiftr c 6) 63) 128 :: N.lor (N.land c 63) 128
              :: utf8Array rest'
            else
              N.lor (N.shiftr c1 12) 224 :: N.lor (N.land (N.shiftr c1 6) 63) 128
              :: N.lor (N.land c1 63) 128 :: utf8Array rest
        | [] =>
            [N.lor (N.shiftr c1 12) 224; N.lor (N.land (N.shiftr c1 6) 63) 128;
             N.lor (N.land c1 63) 128]
        end
  end.

(** [_streamtoword] applied 18 times: octet [i mod length] of the key for
    [i] below 72. *)
Definition key_stream (password : jsstring) : list N :=
  let passwordb := utf8Array (password ++ [0]) in
  map (fun i => nth (i mod length passwordb) passwordb 0) (seq 0 72).

Record digest := { rounds : N; salt : N; key : list N }.

(** [bcrypt.hash(password, rounds)] with the salt it draws. *)
Definition hash (random_salt : N) (password : jsstring) (rounds : N) : digest :=
  {| rounds := rounds; salt := random_salt; key := key_stream password |}.

(** [bcrypt.compare(password, hash)]: hash again under the salt and cost of
    [hash], compare the results. *)
Definition compare (password : jsstring) (h : digest) : bool :=
  string_eqb (key (hash (salt h) password (rounds h))) (key h).

End Bcrypt.

(** ** Regular expressions, as far as the source uses them

    Patterns without flags, anchored at both ends, built from character
    classes, sequence, choice and repetition: [test] says whether the whole
    string is in the language of the pattern. *)

Module RegExp.

Inductive pattern :=
| Never
| Empty
| Class (accepts : N -> bool)
| Seq (p q : pattern)
| Or (p q : pattern)
| Star (p : pattern).

(** [p+], [p?] and [p{2,3}]. *)
Definition Plus (p : pattern) : pattern := Seq p (Star p).
Definition Optional (p : pattern) : pattern := Or Empty p.
Definition TwoOrThree (p : pattern) : pattern := Seq p (Seq p (Optional p)).

Fixpoint nullable (p : pattern) : bool :=
  match p with
  | Never => false
  | Empty => true
  | Class _ => false
  | Seq p q => nullable p && nullable q
  | Or p q => nullable p || nullable q
  | Star _ => true
  end.

(** What is left of the pattern after the code unit [c]. *)
Fixpoint after (c : N) (p : pattern) : pattern :=
  match p with
  | Never => Never
  | Empty => Never
  | Class accepts => if accepts c then Empty else Never
  | Seq p q => if nullable p then Or (Seq (after c p) q) (after c q) else Seq (after c p) q
  | Or p q => Or (after c p) (after c q)
  | Star p => Seq (after c p) (Star p)
  end.

(** [/^p$/.test(s)] *)
Fixpoint test (p : pattern) (s : jsstring) : bool :=
  match s with
  | [] => nullable p
  | c :: s' => test (after c p) s'
  end.

End RegExp.

(** ** The address check of the registration form *)

Module AuthHelpers.

Import RegExp.

(** [\w], [[\.-]], [\.] and [@]. *)
Definition word (c : N) : bool :=
  Crypto.lower c || Crypto.upper c || Crypto.digit c || (c =? 95).
Definition dot_or_hyphen (c : N) : bool := (c =? 46) || (c =? 45).
Definition dot (c : N) : bool := c =? 46.
Definition at_sign (c : N) : bool := c =? 64.

(** [\w+([\.-]?\w+)*] *)
Definition words : pattern :=
  Seq (Plus (Class word)) (Star (Seq (Optional (Class dot_or_hyphen)) (Plus (Class word)))).

(** [/^\w+([\.-]?\w+)*@\w+([\.-]?\w+)*(\.\w{2,3})+$/] *)
Definition emailRegex : pattern :=
  Seq words
      (Seq (Class at_sign)
           (Seq words (Plus (Seq (Class dot) (TwoOrThree (Class word)))))).

Definition validateEmail (email : jsstring) : bool := test emailRegex email.

End AuthHelpers.

(** ** Mongoose 8: identifiers and the two collections *)

Module Mongoose.

Abbreviation ObjectId := N (only parsing).

Definition hex_value (c : N) : option N :=
  if Crypto.digit c then Some (c - 48)
  else if (97 <=? c) && (c <=? 102) then Some (c - 87)
  else if (65 <=? c) && (c <=? 70) then Some (c - 55)
  else None.

Fixpoint hex_number (s : jsstring) (acc : N) : option N :=
  match s with
  | [] => Some acc
  | c :: s' =>
      match hex_value c with
      | Some v => hex_number s' (16 * acc + v)
      | None => None
      end
  end.

(** Casting a string to an ObjectId: 24 hexadecimal digits, or a CastError. *)
Definition castObjectId (s : jsstring) : option ObjectId :=
  if (length s =? 24)%nat then hex_number s 0 else None.

Record User := {
  email : jsstring;
  password : jsstring;
  masterPasswordHash : option Bcrypt.digest;
  user_createdAt : N;
  user_updatedAt : N
}.

Record VaultItem := {
  userId : ObjectId;
  title : jsstring;
  username : jsstring;
  item_password : jsstring;
  url : jsstring;
  notes : jsstring;
  createdAt : N;
  updatedAt : N
}.

Record Database := {
  users : gmap N User;
  vaultItems : gmap N VaultItem
}.

End Mongoose.

Export Mongoose.

(** The validators of the User schema (src/models/User.ts).  Mongoose runs
    them when a document is saved: [email] is required and has to match the
    pattern, which is the one of [validateEmail] letter for letter;
    [password] is required and has at least 6 code units.  The required
    check of a string asks for a length other than 0; the match check lets
    the empty string pass. *)

Module UserSchema.

Definition required (v : jsstring) : bool := negb (falsy_string v).

Definition email_match (v : jsstring) : bool :=
  if falsy_string v then true else RegExp.test AuthHelpers.emailRegex v.

Definition minlength (n : nat) (v : jsstring) : bool := (n <=? length v)%nat.

Definition validate (user : User) : bool :=
  required (email user) && email_match (email user)
  && required (password user) && minlength 6 (password user).

End UserSchema.

(** ** HTTP: sessions and JSON responses

    The handlers below are modelled with the database reachable and the
    request body already read as the strings it carries; an outage of the
    store or a body that is not JSON, which the handlers answer with 500,
    are outside the model. *)

Module Http.

Record SessionUser := { id : jsstring; session_email : jsstring }.
Record Session := { user : option SessionUser }.

(** [!session || !session.user] *)
Definition session_user (session : option Session) : option SessionUser :=
  match session with
  | Some s => user s
  | None => None
  end.

Inductive field :=
| text (s : string)
| flag (b : bool)
| document (_id : ObjectId) (item : VaultItem).

Record response := { body : list (string * field); status : N }.

(** A word between double quotes, as the texts of the answers have it. *)
Definition quoted_word (w : string) : string :=
  (String (ascii_of_N 34) w ++ String (ascii_of_N 34) EmptyString)%string.

(** [NextResponse.json(body, { status })]; the status defaults to 200. *)
Definition json (body : list (string * field)) (status : N) : response :=
  {| body := body; status := status |}.

End Http.

Export Http.

(** ** src/app/api/vault/[id]/route.ts *)

Module VaultItemRoute.

(** The fields read from the request body. *)
Record item_body := {
  body_title : option jsstring;
  body_username : option jsstring;
  body_password : option jsstring;
  body_url : option jsstring;
  body_notes : option jsstring
}.

(** [!x] and [x || ''] for an optional string. *)
Definition falsy (x : option jsstring) : bool :=
  match x with
  | Some s => falsy_string s
  | None => true
  end.

Definition or_empty (x : option jsstring) : jsstring :=
  match x with
  | Some s => s
  | None => []
  end.

(** [VaultItem.findOne({ _id, userId })]. *)
Definition findOne (db : Database) (_id userId : ObjectId) : option VaultItem :=
  match vaultItems db !! _id with
  | Some item => if N.eqb (Mongoose.userId item) userId then Some item else None
  | None => None
  end.

Definition GET (db : Database) (session : option Session) (params_id : jsstring)
  : response :=
  match session_user session with
  | None => json [("error", text "Unauthorized")] 401
  | Some u =>
      match castObjectId params_id, castObjectId (id u) with
      | Some _id, Some uid =>
          match findOne db _id uid with
          | None => json [("error", text "Vault item not found")] 404
          | Some item => json [("item", document _id item)] 200
          end
      | _, _ => json [("error", text "Failed to fetch vault item")] 500
      end
  end%string.

(** [PUT]: [now] is the time the update is stamped with. *)
Definition PUT (now : N) (db : Database) (session : option Session)
    (params_id : jsstring) (body : item_body) : Database * response :=
  match session_user session with
  | None => (db, json [("error", text "Unauthorized")] 401)
  | Some u =>
      if falsy (body_title body) then (db, json [("error", text "Title is required")] 400)
      else
        match castObjectId params_id, castObjectId (id u) with
        | Some _id, Some uid =>
            match findOne db _id uid with
            | None => (db, json [("error", text "Vault item not found")] 404)
            | Some old =>
                let item :=
                  {| userId := userId old;
                     title := or_empty (body_title body);
                     username := or_empty (body_username body);
                     item_password := or_empty (body_password body);
                     url := or_empty (body_url body);
                     notes := or_empty (body_notes body);
                     createdAt := createdAt old;
                     updatedAt := now |} in
                ({| users := users db; vaultItems := <[_id := item]> (vaultItems db) |},
                 json [("item", document _id item)] 200)
            end
        | _, _ => (db, json [("error", text "Failed to update vault item")] 500)
        end
  end%string.

Definition DELETE (db : Database) (session : option Session) (params_id : jsstring)
  : Database * response :=
  match session_user session with
  | None => (db, json [("error", text "Unauthorized")] 401)
  | Some u =>
      match castObjectId params_id, castObjectId (id u) with
      | Some _id, Some uid =>
          match findOne db _id uid with
          | None => (db, json [("error", text "Vault item not found")] 404)
          | Some _ =>
              ({| users := users db; vaultItems := delete _id (vaultItems db) |},
               json [("message", text "Vault item deleted successfully")] 200)
          end
      | _, _ => (db, json [("error", text "Failed to delete vault item")] 500)
      end
  end%string.

End VaultItemRoute.

(** ** The master-password route (GET, POST and PUT of /api/master-password) *)

Module MasterPasswordRoute.

(** [User.findById(session.user.id)]: [None] is the CastError. *)
Definition findById (db : Database) (id : jsstring) : option (ObjectId * option User) :=
  match castObjectId id with
  | Some uid => Some (uid, users db !! uid)
  | None => None
  end.

(** Whether the hash assigned to [user.masterPasswordHash] is the string
    the document holds already: such an assignment does not modify the
    document. *)
Definition unmodified (old : option Bcrypt.digest) (hash : Bcrypt.digest) : bool :=
  match old with
  | Some h =>
      (Bcrypt.rounds h =? Bcrypt.rounds hash) && (Bcrypt.salt h =? Bcrypt.salt hash)
      && string_eqb (Bcrypt.key h) (Bcrypt.key hash)
  | None => false
  end.

(** [user.masterPasswordHash = hash; user.save()].  The save validates the
    document against the schema and throws a ValidationError, [None], when
    the stored email or password fails it; nothing is written then.  A
    document that the assignment did not modify is not written either.
    Otherwise the document is written, and since the schema keeps
    timestamps the save stamps [updatedAt]. *)
Definition save (now : N) (db : Database) (uid : ObjectId) (user : User)
    (hash : Bcrypt.digest) : option Database :=
  if negb (UserSchema.validate user) then None
  else if unmodified (masterPasswordHash user) hash then Some db
  else
    let user := {| email := email user; password := password user;
                   masterPasswordHash := Some hash;
                   user_createdAt := user_createdAt user; user_updatedAt := now |} in
    Some {| users := <[uid := user]> (users db); vaultItems := vaultItems db |}.

Definition GET (db : Database) (session : option Session) : response :=
  match session_user session with
  | None => json [("error", text "Unauthorized")] 401
  | Some u =>
      match findById db (id u) with
      | None => json [("error", text "Failed to check master password")] 500
      | Some (_, None) => json [("error", text "User not found. Please login again.")] 404
      | Some (_, Some user) =>
          json [("hasMasterPassword",
                 flag (match masterPasswordHash user with Some _ => true | None => false end))]
               200
      end
  end%string.

(** [POST]; [now] is the time of the request and [random_salt] the salt
    that [bcrypt.hash] draws. *)
Definition POST (now random_salt : N) (db : Database) (session : option Session)
    (masterPassword action : jsstring) : Database * response :=
  match session_user session with
  | None => (db, json [("error", text "Unauthorized")] 401)
  | Some u =>
      if falsy_string masterPassword
      then (db, json [("error", text "Master password is required")] 400)
      else
        match findById db (id u) with
        | None => (db, json [("error", text "Failed to process master password")] 500)
        | Some (_, None) =>
            (db, json [("error", text "User not found. Please login again.")] 404)
        | Some (uid, Some user) =>
            if string_eqb action (js "set") then
              match masterPasswordHash user with
              | Some _ => (db, json [("error", text "Master password already set")] 400)
              | None =>
                  let hash := Bcrypt.hash random_salt masterPassword 10 in
                  match save now db uid user hash with
                  | Some db' =>
                      (db', json [("success", flag true);
                                  ("message", text "Master password set successfully")] 200)
                  | None =>
                      (db, json [("error", text "Failed to process master password")] 500)
                  end
              end
            else if string_eqb action (js "verify") then
              match masterPasswordHash user with
              | None => (db, json [("error", text "Master password not set yet")] 400)
              | Some hash =>
                  let isValid := Bcrypt.compare masterPassword hash in
                  (db, json [("valid", flag isValid);
                             ("message", text (if isValid then "Master password verified"
                                               else "Invalid master password"))] 200)
              end
            else (db, json [("error", text ("Invalid action. Use " ++ quoted_word "set"
                                            ++ " or " ++ quoted_word "verify"))] 400)
        end
  end%string.

Definition PUT (now random_salt : N) (db : Database) (session : option Session)
    (oldMasterPassword newMasterPassword : jsstring) : Database * response :=
  match session_user session with
  | None => (db, json [("error", text "Unauthorized")] 401)
  | Some u =>
      if falsy_string oldMasterPassword || falsy_string newMasterPassword
      then (db, json [("error", text "Both old and new master passwords are required")] 400)
      else
        match findById db (id u) with
        | None => (db, json [("error", text "Failed to change master password")] 500)
        | Some (_, None) => (db, json [("error", text "User not found")] 404)
        | Some (uid, Some user) =>
            match masterPasswordHash user with
            | None => (db, json [("error", text "No master password set")] 400)
            | Some hash =>
                let isValidOld := Bcrypt.compare oldMasterPassword hash in
                if negb isValidOld
                then (db, json [("error", text "Old master password is incorrect")] 401)
                else
                  let newHash := Bcrypt.hash random_salt newMasterPassword 10 in
                  match save now db uid user newHash with
                  | Some db' =>
                      (db', json [("success", flag true);
                                  ("message", text "Master password changed successfully");
                                  ("warning", text "All existing vault items are encrypted with the old master password. You will need to re-encrypt them.")]
                                 200)
                  | None =>
                      (db, json [("error", text "Failed to change master password")] 500)
                  end
            end
        end
  end%string.

End MasterPasswordRoute.

(** ** src/components/MasterPasswordPrompt.tsx and the encryption context *)

Module MasterPasswordPrompt.

(** What the user of the prompt gets to see of one submission. *)
Inductive shown :=
| setError (shown_text : string)
| redirect_to_login
| onSubmit (masterPassword : jsstring).

Definition message_or (m : option string) (default : string) : string :=
  match m with
  | Some m => if (String.length m =? 0)%nat then default else m
  | None => default
  end.

Definition field_of (name : string) (r : response) : option field :=
  match find (fun kv => String.eqb (fst kv) name) (body r) with
  | Some kv => Some (snd kv)
  | None => None
  end.

(** The six characters U+00C3 U+00A2 U+00C2 U+009D U+00C5 U+2019 with which
    the text of the wrong-password error begins in the source, in UTF-8 as
    the other texts are. *)
Definition cross_mark : string :=
  string_of_list_ascii
    (map ascii_of_N [0xC3; 0x83; 0xC2; 0xA2; 0xC3; 0x82; 0xC2; 0x9D; 0xC3; 0x85; 0xE2; 0x80; 0x99]).

(** [response.ok] *)
Definition ok (r : response) : bool := (200 <=? status r) && (status r <=? 299).

(** [handleSubmit] for the password typed into the prompt; [isFirstTime] is
    what [checkMasterPassword] stored.  The requests reach the server (a
    failing [fetch] is not modelled). *)
Definition handleSubmit (now random_salt : N) (db : Database) (session : option Session)
    (isFirstTime : bool) (masterPassword : jsstring) : Database * shown :=
  let validation := Crypto.validateMasterPassword masterPassword in
  if negb (Crypto.isValid validation) then
    (db, setError (message_or (Crypto.message validation) "Invalid master password"))
  else
    match Crypto.strength_of validation with
    | Crypto.weak =>
        (db, setError (message_or (Crypto.message validation) "Master password is too weak"))
    | _ =>
        if isFirstTime then
          let '(db', response) :=
            MasterPasswordRoute.POST now random_salt db session masterPassword (js "set") in
          if N.eqb (status response) 404 then (db', redirect_to_login)
          else if negb (ok response) then
            (db', setError
                    (match field_of "error" response with
                     | Some (text e) => message_or (Some e) "Failed to set master password"
                     | _ => "Failed to set master password"
                     end))
          else (db', onSubmit masterPassword)
        else
          let '(db', response) :=
            MasterPasswordRoute.POST now random_salt db session masterPassword (js "verify") in
          match field_of "valid" response with
          | Some (flag true) => (db', onSubmit masterPassword)
          | _ =>
              (db', setError (cross_mark ++ " Wrong master password! Please enter the correct master password you set initially."))
          end
    end%string.

End MasterPasswordPrompt.

Module EncryptionContext.

Section WithKeyDerivation.

(** [deriveKey(masterPassword, email)] of src/lib/crypto.ts is PBKDF2 over
    the SHA-256 of the email, both taken from crypto-js. *)
Variable SHA256 : jsstring -> outcome jsstring.
Variable PBKDF2 : jsstring -> jsstring -> N -> N -> outcome jsstring.

Definition PBKDF2_ITERATIONS : N := 100000.
Definition KEY_SIZE : N := 256 / 32.

Definition deriveKey (masterPassword email : jsstring) : outcome jsstring :=
  bind (SHA256 email) (fun salt =>
  PBKDF2 masterPassword salt KEY_SIZE PBKDF2_ITERATIONS).

(** The provider's state. *)
Record state := { encryptionKey : option jsstring; isLocked : bool }.

Definition setupEncryptionKey (st : state) (masterPassword email : jsstring)
  : state * bool :=
  let validation := Crypto.validateMasterPassword masterPassword in
  if negb (Crypto.isValid validation) then (st, false)
  else
    match deriveKey masterPassword email with
    | Return key => ({| encryptionKey := Some key; isLocked := false |}, true)
    | Throw _ => (st, false)
    end.

Definition clearEncryptionKey (st : state) : state :=
  {| encryptionKey := None; isLocked := true |}.

End WithKeyDerivation.

End EncryptionContext.

(** ** JSON values and [JSON.parse] *)

Module JSON.

(** A number as its literal reads: [(-1)^negative * digits * 10^exponent].
    JavaScript keeps the nearest double. *)
Record number := { negative : bool; digits : N; exponent : Z }.

#[local] Set Warnings "-register-all".

Inductive value :=
| JNull
| JBool (b : bool)
| JNumber (n : number)
| JString (s : jsstring)
| JArray (elements : list value)
| JObject (properties : list (jsstring * value)).

Inductive parsed (A : Type) :=
| Parsed (a : A) (rest : jsstring)
| SyntaxError
| OutOfFuel.
Arguments Parsed {A} a rest.
Arguments SyntaxError {A}.
Arguments OutOfFuel {A}.

Definition is_whitespace (c : N) : bool :=
  (c =? 9) || (c =? 10) || (c =? 13) || (c =? 32).

Fixpoint skip_ws (s : jsstring) : jsstring :=
  match s with
  | c :: s' => if is_whitespace c then skip_ws s' else s
  | [] => []
  end.

(** The characters of a string literal after its opening quote. *)
Fixpoint string_chars (s : jsstring) (acc : jsstring) : parsed jsstring :=
  match s with
  | [] => SyntaxError
  | c :: rest =>
      if c =? 34 then Parsed (rev acc) rest
      else if c =? 92 then
        match rest with
        | [] => SyntaxError
        | e :: rest' =>
            if e =? 34 then string_chars rest' (34 :: acc)
            else if e =? 92 then string_chars rest' (92 :: acc)
            else if e =? 47 then string_chars rest' (47 :: acc)
            else if e =? 98 then string_chars rest' (8 :: acc)
            else if e =? 102 then string_chars rest' (12 :: acc)
            else if e =? 110 then string_chars rest' (10 :: acc)
            else if e =? 114 then string_chars rest' (13 :: acc)
            else if e =? 116 then string_chars rest' (9 :: acc)
            else if e =? 117 then
              match rest' with
              | h1 :: h2 :: h3 :: h4 :: rest'' =>
                  match hex_number [h1; h2; h3; h4] 0 with
                  | Some u => string_chars rest'' (u :: acc)
                  | None => SyntaxError
                  end
              | _ => SyntaxError
              end
            else SyntaxError
        end
      else if c <? 32 then SyntaxError
      else string_chars rest (c :: acc)
  end.

(** A run of decimal digits: its value, its length and what follows. *)
Fixpoint decimal_digits (s : jsstring) (acc : N) (count : nat) : N * nat * jsstring :=
  match s with
  | c :: s' =>
      if Crypto.digit c then decimal_digits s' (10 * acc + (c - 48)) (S count)
      else (acc, count, s)
  | [] => (acc, count, [])
  end.

Definition exponent_part (s : jsstring) : parsed Z :=
  match s with
  | c :: s' =>
      if (c =? 101) || (c =? 69) then
        let '(sign, s'') :=
          match s' with
          | d :: t => if d =? 43 then (1%Z, t) else if d =? 45 then ((-1)%Z, t) else (1%Z, s')
          | [] => (1%Z, s')
          end in
        let '(e, count, rest) := decimal_digits s'' 0 0 in
        match count with
        | O => SyntaxError
        | S _ => Parsed (sign * Z.of_N e)%Z rest
        end
      else Parsed 0%Z s
  | [] => Parsed 0%Z s
  end.

Definition fraction_part (s : jsstring) (int : N) : parsed (N * nat) :=
  match s with
  | c :: s' =>
      if c =? 46 then
        let '(m, count, rest) := decimal_digits s' int 0 in
        match count with
        | O => SyntaxError
        | S _ => Parsed (m, count) rest
        end
      else Parsed (int, O) s
  | [] => Parsed (int, O) s
  end.

(** A number literal: sign, integer part without a leading zero, fraction,
    exponent. *)
Definition number_literal (s : jsstring) : parsed number :=
  let '(neg, s1) :=
    match s with
    | c :: t => if c =? 45 then (true, t) else (false, s)
    | [] => (false, s)
    end in
  match s1 with
  | c :: t =>
      if negb (Crypto.digit c) then SyntaxError
      else
        let '(int, s2) :=
          if c =? 48 then (0, t)
          else let '(i, _, r) := decimal_digits s1 0 0 in (i, r) in
        match fraction_part s2 int with
        | Parsed (m, count) s3 =>
            match exponent_part s3 with
            | Parsed e s4 =>
                Parsed {| negative := neg; digits := m;
                          exponent := (e - Z.of_nat count)%Z |} s4
            | _ => SyntaxError
            end
        | _ => SyntaxError
        end
  | [] => SyntaxError
  end.

Definition literal (word : string) (v : value) (s : jsstring) : parsed value :=
  let w := js word in
  if string_eqb (firstn (length w) s) w then Parsed v (skipn (length w) s)
  else SyntaxError.

Fixpoint parse_value (fuel : nat) (s : jsstring) : parsed value :=
  match fuel with
  | O => OutOfFuel
  | S fuel' =>
      match skip_ws s with
      | [] => SyntaxError
      | c :: rest =>
          if c =? 123 then
            match skip_ws rest with
            | d :: rest' =>
                if d =? 125 then Parsed (JObject []) rest'
                else parse_members fuel' rest []
            | [] => SyntaxError
            end
          else if c =? 91 then
            match skip_ws rest with
            | d :: rest' =>
                if d =? 93 then Parsed (JArray []) rest'
                else parse_elements fuel' rest []
            | [] => SyntaxError
            end
          else if c =? 34 then
            match string_chars rest [] with
            | Parsed str rest' => Parsed (JString str) rest'
            | _ => SyntaxError
            end
          else if c =? 116 then literal "true" (JBool true) (c :: rest)
          else if c =? 102 then literal "false" (JBool false) (c :: rest)
          else if c =? 110 then literal "null" JNull (c :: rest)
          else
            match number_literal (c :: rest) with
            | Parsed n rest' => Parsed (JNumber n) rest'
            | _ => SyntaxError
            end
      end
  end

with parse_elements (fuel : nat) (s : jsstring) (acc : list value) : parsed value :=
  match fuel with
  | O => OutOfFuel
  | S fuel' =>
      match parse_value fuel' s with
      | Parsed v rest =>
          match skip_ws rest with
          | c :: rest' =>
              if c =? 44 then parse_elements fuel' rest' (v :: acc)
              else if c =? 93 then Parsed (JArray (rev (v :: acc))) rest'
              else SyntaxError
          | [] => SyntaxError
          end
      | SyntaxError => SyntaxError
      | OutOfFuel => OutOfFuel
      end
  end

with parse_members (fuel : nat) (s : jsstring) (acc : list (jsstring * value))
  : parsed value :=
  match fuel with
  | O => OutOfFuel
  | S fuel' =>
      match skip_ws s with
      | q :: s1 =>
          if q =? 34 then
            match string_chars s1 [] with
            | Parsed name s2 =>
                match skip_ws s2 with
                | colon :: s3 =>
                    if colon =? 58 then
                      match parse_value fuel' s3 with
                      | Parsed v rest =>
                          match skip_ws rest with
                          | c :: rest' =>
                              if c =? 44 then parse_members fuel' rest' ((name, v) :: acc)
                              else if c =? 125
                              then Parsed (JObject (rev ((name, v) :: acc))) rest'
                              else SyntaxError
                          | [] => SyntaxError
                          end
                      | SyntaxError => SyntaxError
                      | OutOfFuel => OutOfFuel
                      end
                    else SyntaxError
                | [] => SyntaxError
                end
            | _ => SyntaxError
            end
          else SyntaxError
      | [] => SyntaxError
      end
  end.

(** [JSON.parse(text)]; the message of the SyntaxError is the engine's. *)
Definition parse (text : jsstring) : outcome value :=
  match parse_value (2 * length text + 1) text with
  | Parsed v rest =>
      match skip_ws rest with
      | [] => Return v
      | _ :: _ => Throw "Unexpected non-whitespace character after JSON"
      end
  | _ => Throw "Unexpected token in JSON"
  end.

(** [v.name] for a name that is neither an index nor built in: the own
    property written last under that name, [undefined] ([None]) without
    one, a TypeError on [null]. *)
Definition get (v : value) (name : jsstring) : outcome (option value) :=
  match v with
  | JNull => Throw "Cannot read properties of null"
  | JObject properties =>
      Return (fold_left (fun found kv =>
                           if string_eqb (fst kv) name then Some (snd kv) else found)
                        properties None)
  | _ => Return None
  end.

(** The double nearest to the literal is zero: at most half the smallest
    subnormal, 2^-1075. *)
Definition is_zero (n : number) : bool :=
  (digits n =? 0)
  || ((exponent n <? 0)%Z && (digits n * 2 ^ 1075 <=? 10 ^ Z.to_N (- exponent n))).

(** ToBoolean. *)
Definition truthy (v : option value) : bool :=
  match v with
  | None => false
  | Some JNull => false
  | Some (JBool b) => b
  | Some (JNumber n) => negb (is_zero n)
  | Some (JString s) => negb (falsy_string s)
  | Some (JArray _) => true
  | Some (JObject _) => true
  end.

Definition isArray (v : option value) : bool :=
  match v with
  | Some (JArray _) => true
  | _ => false
  end.

End JSON.

(** ** The vault export module: [parseImportedVault] *)

Module VaultExport.

Import JSON.

Definition parseImportedVault (jsonString : jsstring) : outcome value :=
  try_catch
    (bind (JSON.parse jsonString) (fun data =>
     bind (get data (js "version")) (fun version =>
     if negb (truthy version) then Throw "Invalid vault export format"
     else
       bind (get data (js "items")) (fun items =>
       if negb (truthy items) || negb (isArray items)
       then Throw "Invalid vault export format"
       else Return data))))
    (fun error => Throw ("Failed to parse vault file: " ++ error)).

End VaultExport.

(** ** src/lib/crypto.ts: the fields of a vault item *)

Module VaultItemCrypto.

Import Crypto.

(** The plaintext fields that [encryptVaultItem] is given, and the
    ciphertext fields it returns. *)
Record item_fields := {
  in_title : jsstring;
  in_username : option jsstring;
  in_password : option jsstring;
  in_url : option jsstring;
  in_notes : option jsstring
}.

Record cipher_fields := {
  out_title : jsstring;
  out_username : jsstring;
  out_password : jsstring;
  out_url : jsstring;
  out_notes : jsstring
}.

(** The salts that crypto-js draws for the five fields. *)
Record salts := {
  for_title : CryptoJS.salt64;
  for_username : CryptoJS.salt64;
  for_password : CryptoJS.salt64;
  for_url : CryptoJS.salt64;
  for_notes : CryptoJS.salt64
}.

(** [x ? f(x, key) : ''] for an optional string [x]. *)
Definition if_truthy (f : jsstring -> jsstring -> outcome jsstring)
    (x : option jsstring) (key : jsstring) : outcome jsstring :=
  match x with
  | Some (c :: s) => f (c :: s) key
  | _ => Return []
  end.

Definition encryptVaultItem (random : salts) (item : item_fields) (key : jsstring)
  : outcome cipher_fields :=
  bind (encrypt (for_title random) (in_title item) key) (fun title =>
  bind (if_truthy (encrypt (for_username random)) (in_username item) key) (fun username =>
  bind (if_truthy (encrypt (for_password random)) (in_password item) key) (fun password =>
  bind (if_truthy (encrypt (for_url random)) (in_url item) key) (fun url =>
  bind (if_truthy (encrypt (for_notes random)) (in_notes item) key) (fun notes =>
  Return {| out_title := title; out_username := username; out_password := password;
            out_url := url; out_notes := notes |}))))).

(** A vault item as the client holds it ([DecryptedVaultItem] of
    src/types/index.ts; the argument of [decryptVaultItem] has the same
    shape). *)
Record DecryptedVaultItem := {
  _id : jsstring;
  item_userId : jsstring;
  item_title : jsstring;
  item_username : option jsstring;
  item_password_of : option jsstring;
  item_url : option jsstring;
  item_notes : option jsstring;
  item_createdAt : jsstring;
  item_updatedAt : jsstring
}.

Definition decryptVaultItem (random : salts) (item : DecryptedVaultItem) (key : jsstring)
  : outcome DecryptedVaultItem :=
  try_catch
    (bind (decrypt (for_title random) (item_title item) key) (fun title =>
     bind (if_truthy (decrypt (for_username random)) (item_username item) key) (fun username =>
     bind (if_truthy (decrypt (for_password random)) (item_password_of item) key) (fun password =>
     bind (if_truthy (decrypt (for_url random)) (item_url item) key) (fun url =>
     bind (if_truthy (decrypt (for_notes random)) (item_notes item) key) (fun notes =>
     Return {| _id := _id item;
               item_userId := item_userId item;
               item_title := title;
               item_username := Some username;
               item_password_of := Some password;
               item_url := Some url;
               item_notes := Some notes;
               item_createdAt := item_createdAt item;
               item_updatedAt := item_updatedAt item |}))))))
    (fun error => Throw "Decryption failed - wrong master password?").

End VaultItemCrypto.

(** ** The vault collection route (GET and POST of /api/vault) *)

Module VaultRoute.

Import VaultItemRoute.

(** The body of the listing: the documents found, or an error. *)
Inductive list_body :=
| items (docs : list (ObjectId * VaultItem))
| error (message : string).

Record list_response := { list_body_of : list_body; list_status : N }.

(** [sort({ createdAt: -1 })]: a document comes before the ones created
    earlier.  Documents created at the same time keep the order in which
    the store yields them. *)
Definition newer (a b : ObjectId * VaultItem) : Prop :=
  createdAt (snd b) <= createdAt (snd a).

#[export] Instance newer_dec (a b : ObjectId * VaultItem) : Decision (newer a b) :=
  decide (createdAt (snd b) <= createdAt (snd a)).

(** [VaultItem.find({ userId })]. *)
Definition find (db : Database) (userId : ObjectId) : list (ObjectId * VaultItem) :=
  filter (fun doc => Mongoose.userId (snd doc) = userId) (map_to_list (vaultItems db)).

Definition GET (db : Database) (session : option Session) : list_response :=
  match session_user session with
  | None => {| list_body_of := error "Unauthorized"; list_status := 401 |}
  | Some u =>
      match castObjectId (id u) with
      | Some uid =>
          {| list_body_of := items (merge_sort newer (find db uid)); list_status := 200 |}
      | None => {| list_body_of := error "Failed to fetch vault items"; list_status := 500 |}
      end
  end%string.

(** [POST]: [now] is the time of the request and [new_id] the identifier
    that [VaultItem.create] gives the document; an identifier already in
    the collection is a duplicate-key error. *)
Definition POST (now : N) (new_id : ObjectId) (db : Database) (session : option Session)
    (body : item_body) : Database * response :=
  match session_user session with
  | None => (db, json [("error", text "Unauthorized")] 401)
  | Some u =>
      if falsy (body_title body) then (db, json [("error", text "Title is required")] 400)
      else
        match castObjectId (id u), vaultItems db !! new_id with
        | Some uid, None =>
            let vaultItem :=
              {| userId := uid;
                 title := or_empty (body_title body);
                 username := or_empty (body_username body);
                 item_password := or_empty (body_password body);
                 url := or_empty (body_url body);
                 notes := or_empty (body_notes body);
                 createdAt := now;
                 updatedAt := now |} in
            ({| users := users db; vaultItems := <[new_id := vaultItem]> (vaultItems db) |},
             json [("item", document new_id vaultItem)] 201)
        | _, _ => (db, json [("error", text "Failed to create vault item")] 500)
        end
  end%string.

End VaultRoute.

(** ** The password generator (src/lib/password-generator.ts)

    [random k] is the [k]-th 32-bit value that [crypto.getRandomValues]
    delivers during a call of [generatePassword]; the length asked for is a
    natural number. *)

Module PasswordGenerator.

Record PasswordOptions := {
  options_length : N;
  includeUppercase : bool;
  includeLowercase : bool;
  includeNumbers : bool;
  includeSymbols : bool;
  excludeSimilar : bool
}.

Definition UPPERCASE : jsstring := js "ABCDEFGHIJKLMNOPQRSTUVWXYZ".
Definition LOWERCASE : jsstring := js "abcdefghijklmnopqrstuvwxyz".
Definition NUMBERS : jsstring := js "0123456789".
Definition SYMBOLS : jsstring := js "!@#$%^&*()_+-=[]{}|;:,.<>?~".

(** [/[0Ol1I]/g] and [str.replace(SIMILAR_CHARS, '')]. *)
Definition SIMILAR_CHARS (c : N) : bool :=
  (c =? 48) || (c =? 79) || (c =? 108) || (c =? 49) || (c =? 73).

Definition replace_similar (str : jsstring) : jsstring :=
  List.filter (fun c => negb (SIMILAR_CHARS c)) str.

(** [str[index]]: a code unit, or [undefined] out of range. *)
Definition charAt (str : jsstring) (index : N) : option N := nth_error str (N.to_nat index).

(** [getRandomChar(str)] with the value it draws. *)
Definition getRandomChar (drawn : N) (str : jsstring) : option N :=
  match str with
  | [] => None
  | _ :: _ => charAt str (drawn mod N.of_nat (length str))
  end.

(** One of the four [if (include...)] blocks: the character set grows by
    [chars] and one character drawn from [chars] is required. *)
Definition add_class (random : nat -> N) (include : bool) (chars : jsstring)
    (st : jsstring * list (option N)) : jsstring * list (option N) :=
  if include
  then (fst st ++ chars, snd st ++ [getRandomChar (random (length (snd st))) chars])
  else st.

(** [arr.join('')] and [password += x]: in a join [undefined] counts as the
    empty string, appended to a string it reads "undefined". *)
Definition join (arr : list (option N)) : jsstring :=
  flat_map (fun x => match x with Some c => [c] | None => [] end) arr.

Definition appended (x : option N) : jsstring :=
  match x with
  | Some c => [c]
  | None => js "undefined"
  end.

(** One round of the loop of [shuffleString].  Past the end of
    [randomValues] the value read is [undefined] and [j] is NaN: the swap
    then exchanges [arr[i]] with the property [arr.NaN], which [nan] holds
    ([None] while it is unset). *)
Definition shuffle_round (randomValues : list N) (st : list (option N) * option N) (i : nat)
  : list (option N) * option N :=
  let '(arr, nan) := st in
  match nth_error randomValues i with
  | Some v =>
      let j := N.to_nat (v mod N.of_nat (i + 1)) in
      (<[j := nth i arr None]> (<[i := nth j arr None]> arr), nan)
  | None => (<[i := nan]> arr, nth i arr None)
  end.

(** The rounds for [i], [i - 1], ..., 1. *)
Fixpoint shuffle_rounds (randomValues : list N) (i : nat) (st : list (option N) * option N)
  : list (option N) * option N :=
  match i with
  | O => st
  | S i' => shuffle_rounds randomValues i' (shuffle_round randomValues st i)
  end.

Definition shuffleString (str : jsstring) (randomValues : list N) : jsstring :=
  let arr := map Some str in
  join (fst (shuffle_rounds randomValues (length arr - 1) (arr, None))).

Definition digit_text (n : nat) : string := String (ascii_of_nat (48 + n)) "".

(** [crypto.getRandomValues] throws a DOMException named QuotaExceededError
    when asked for more than 65536 octets.  The text of its message is the
    engine's; the name stands for the exception here. *)
Definition quota_exceeded : string := "QuotaExceededError".

Definition generatePassword (random : nat -> N) (options : PasswordOptions)
  : outcome jsstring :=
  if negb (includeUppercase options) && negb (includeLowercase options)
     && negb (includeNumbers options) && negb (includeSymbols options)
  then Throw "At least one character type must be selected"%string
  else
    let similar chars := if excludeSimilar options then replace_similar chars else chars in
    let st := ([], []) in
    let st := add_class random (includeUppercase options) (similar UPPERCASE) st in
    let st := add_class random (includeLowercase options) (similar LOWERCASE) st in
    let st := add_class random (includeNumbers options) (similar NUMBERS) st in
    let st := add_class random (includeSymbols options) SYMBOLS st in
    let '(charset, requiredChars) := st in
    let minLength := length requiredChars in
    let length := N.to_nat (options_length options) in
    if options_length options <? N.of_nat minLength
    then Throw ("Password length must be at least " ++ digit_text minLength
                ++ " with current options")%string
    else if 16384 <? options_length options then Throw quota_exceeded
    else
      let randomValues := map (fun i => random (minLength + i)%nat) (seq 0 length) in
      let password :=
        flat_map (fun i => appended (charAt charset
                                       (nth i randomValues 0 mod N.of_nat (List.length charset))))
                 (seq 0 (length - minLength)) in
      let password := password ++ join requiredChars in
      Return (shuffleString password (skipn (length - minLength) randomValues)).

(** [calculatePasswordStrength(password)]. *)
Record rating := { score : nat; label : string; color : string }.

Definition calculatePasswordStrength (password : jsstring) : rating :=
  let score := 0%nat in
  let score := if (8 <=? length password)%nat then S score else score in
  let score := if (12 <=? length password)%nat then S score else score in
  let score := if (16 <=? length password)%nat then S score else score in
  let score :=
    if Crypto.test Crypto.lower password && Crypto.test Crypto.upper password
    then S score else score in
  let score := if Crypto.test Crypto.digit password then S score else score in
  let score := if Crypto.test Crypto.other password then S score else score in
  let '(label, color) :=
    (if (score <=? 1)%nat then ("Very Weak", "text-red-600")
     else if (score =? 2)%nat then ("Weak", "text-orange-600")
     else if (score =? 3)%nat then ("Medium", "text-yellow-600")
     else if (score =? 4)%nat then ("Strong", "text-lime-600")
     else ("Very Strong", "text-green-600"))%string in
  {| score := Nat.min score 5; label := label; color := color |}.

Definition getDefaultOptions : PasswordOptions :=
  {| options_length := 16; includeUppercase := true; includeLowercase := true;
     includeNumbers := true; includeSymbols := true; excludeSimilar := false |}.

Record options_validation := { valid : bool; error : option string }.

Definition validateOptions (options : PasswordOptions) : options_validation :=
  if options_length options <? 4
  then {| valid := false;
          error := Some "Password length must be at least 4 characters"%string |}
  else if 128 <? options_length options
  then {| valid := false;
          error := Some "Password length cannot exceed 128 characters"%string |}
  else if negb (includeUppercase options) && negb (includeLowercase options)
          && negb (includeNumbers options) && negb (includeSymbols options)
  then {| valid := false;
          error := Some "At least one character type must be selected"%string |}
  else {| valid := true; error := None |}.

(** [handleGenerate] of src/components/PasswordGenerator.tsx: what the
    component shows afterwards. *)
Inductive generated :=
| setError (message : string)
| setPassword (newPassword : jsstring) (strength : rating).

Definition handleGenerate (random : nat -> N) (options : PasswordOptions) : generated :=
  let validation := validateOptions options in
  if negb (valid validation)
  then setError (match error validation with
                 | Some e =>
                     if (String.length e =? 0)%nat then "Invalid password options"%string
                     else e
                 | None => "Invalid password options"%string
                 end)
  else
    match generatePassword random options with
    | Return newPassword => setPassword newPassword (calculatePasswordStrength newPassword)
    | Throw _ => setError "Failed to generate password. Please try again."%string
    end.

End PasswordGenerator.

(** ** src/middleware.ts *)

Module Middleware.

Definition protectedRoutes : list jsstring := [js "/vault"; js "/dashboard"; js "/profile"].

Definition authRoutes : list jsstring := [js "/login"; js "/register"].

(** [pathname.startsWith(route)] *)
Definition startsWith (pathname route : jsstring) : bool :=
  string_eqb (firstn (length route) pathname) route.

(** What the middleware answers: a redirect to a path of the same origin,
    with the [callbackUrl] parameter when it is set, or [NextResponse.next()]. *)
Inductive answer :=
| redirect (pathname : jsstring) (callbackUrl : option jsstring)
| next.

Definition middleware (session : option Session) (pathname : jsstring) : answer :=
  let isProtectedRoute := existsb (fun route => startsWith pathname route) protectedRoutes in
  let isAuthRoute := existsb (fun route => startsWith pathname route) authRoutes in
  let no_session := match session with None => true | Some _ => false end in
  if isProtectedRoute && no_session then redirect (js "/login") (Some pathname)
  else if isAuthRoute && negb no_session then redirect (js "/vault") None
  else next.

End Middleware.

(** ** [JSON.stringify(value, null, 2)]

    The values that the application serializes: strings, counts (numbers
    that are natural and below 10^21, which print as their decimal digits),
    arrays and objects, and [undefined] for an optional property that is
    not there. *)

Module JSONStringify.

#[local] Set Warnings "-register-all".

Inductive data :=
| DUndefined
| DString (s : jsstring)
| DCount (n : N)
| DArray (elements : list data)
| DObject (properties : list (jsstring * data)).

(** The four lowercase hexadecimal digits of a code unit. *)
Definition hex_digit (n : N) : N := if n <? 10 then 48 + n else 87 + n.

Definition UnicodeEscape (c : N) : jsstring :=
  [92; 117; hex_digit (c / 4096 mod 16); hex_digit (c / 256 mod 16);
   hex_digit (c / 16 mod 16); hex_digit (c mod 16)].

(** The body of [QuoteJSONString]: the short escapes, [\uXXXX] for the
    other control characters and for a surrogate without its partner,
    everything else as it is. *)
Fixpoint quote_chars (s : jsstring) : jsstring :=
  match s with
  | [] => []
  | c :: rest =>
      if c =? 8 then 92 :: 98 :: quote_chars rest
      else if c =? 9 then 92 :: 116 :: quote_chars rest
      else if c =? 10 then 92 :: 110 :: quote_chars rest
      else if c =? 12 then 92 :: 102 :: quote_chars rest
      else if c =? 13 then 92 :: 114 :: quote_chars rest
      else if c =? 34 then 92 :: 34 :: quote_chars rest
      else if c =? 92 then 92 :: 92 :: quote_chars rest
      else if c <? 32 then UnicodeEscape c ++ quote_chars rest
      else if Utf8.is_high_surrogate c then
        match rest with
        | d :: rest' =>
            if Utf8.is_low_surrogate d then c :: d :: quote_chars rest'
            else UnicodeEscape c ++ quote_chars rest
        | [] => UnicodeEscape c
        end
      else if Utf8.is_low_surrogate c then UnicodeEscape c ++ quote_chars rest
      else c :: quote_chars rest
  end.

Definition QuoteJSONString (s : jsstring) : jsstring := 34 :: quote_chars s ++ [34].

(** The decimal digits of a count. *)
Fixpoint decimal_digits_of (fuel : nat) (n : N) (acc : jsstring) : jsstring :=
  match fuel with
  | O => acc
  | S fuel' =>
      let acc' := 48 + n mod 10 :: acc in
      if n <? 10 then acc' else decimal_digits_of fuel' (n / 10) acc'
  end.

Definition decimal (n : N) : jsstring := decimal_digits_of (S (N.to_nat (N.log2 n))) n [].

Definition gap : jsstring := js "  ".

(** [partial.join(separator)] *)
Fixpoint join_with (separator : jsstring) (partial : list jsstring) : jsstring :=
  match partial with
  | [] => []
  | [x] => x
  | x :: rest => x ++ separator ++ join_with separator rest
  end.

(** The wrapping of [SerializeJSONObject] and [SerializeJSONArray]. *)
Definition wrapped (open close : N) (stepback indent : jsstring) (partial : list jsstring)
  : jsstring :=
  match partial with
  | [] => [open; close]
  | _ :: _ =>
      [open; 10] ++ indent ++ join_with ([44; 10] ++ indent) partial ++ [10] ++ stepback
      ++ [close]
  end.

(** [SerializeJSONProperty]: [None] is [undefined]. *)
Fixpoint SerializeJSONProperty (indent : jsstring) (value : data) : option jsstring :=
  match value with
  | DUndefined => None
  | DString s => Some (QuoteJSONString s)
  | DCount n => Some (decimal n)
  | DArray elements =>
      let stepback := indent in
      let indent := indent ++ gap in
      let partial :=
        map (fun element =>
               match SerializeJSONProperty indent element with
               | Some strP => strP
               | None => js "null"
               end) elements in
      Some (wrapped 91 93 stepback indent partial)
  | DObject properties =>
      let stepback := indent in
      let indent := indent ++ gap in
      let partial :=
        flat_map (fun property =>
                    match SerializeJSONProperty indent (snd property) with
                    | Some strP => [QuoteJSONString (fst property) ++ [58; 32] ++ strP]
                    | None => []
                    end) properties in
      Some (wrapped 123 125 stepback indent partial)
  end.

Definition stringify (value : data) : option jsstring := SerializeJSONProperty [] value.

End JSONStringify.

(** ** The vault export module: [exportVaultToJSON] *)

Module VaultExportJSON.

Import JSONStringify VaultItemCrypto.

Definition optional (x : option jsstring) : data :=
  match x with
  | Some s => DString s
  | None => DUndefined
  end.

(** The object that [items.map] makes of one item. *)
Definition item_data (item : DecryptedVaultItem) : data :=
  DObject
    [(js "_id", DString (_id item));
     (js "userId", DString (item_userId item));
     (js "title", DString (item_title item));
     (js "username", optional (item_username item));
     (js "password", optional (item_password_of item));
     (js "url", optional (item_url item));
     (js "notes", optional (item_notes item));
     (js "createdAt", DString (item_createdAt item));
     (js "updatedAt", DString (item_updatedAt item))].

(** The object that [exportVaultToJSON] builds; [exportedAt] is what
    [new Date().toISOString()] gives. *)
Definition exportData (exportedAt : jsstring) (items : list DecryptedVaultItem) : data :=
  DObject
    [(js "version", DString (js "1.0.0"));
     (js "exportedAt", DString exportedAt);
     (js "items", DArray (map item_data items));
     (js "itemCount", DCount (N.of_nat (length items)))].

Definition exportVaultToJSON (exportedAt : jsstring) (items : list DecryptedVaultItem)
  : jsstring :=
  match stringify (exportData exportedAt items) with
  | Some str => str
  | None => js "undefined"
  end.

End VaultExportJSON.

(** ** The export and import dialog (src/components/ExportImportModal.tsx) *)

Module ExportImportModal.

Import JSON VaultItemCrypto VaultExport VaultExportJSON.

(** [vaultItems.map(item => { try { return decryptVaultItem(item, key) }
    catch { return null } }).filter(item => item !== null)]; [random i] are
    the salts drawn for the item at index [i]. *)
Fixpoint decryptedItems (random : nat -> salts) (i : nat) (vaultItems : list DecryptedVaultItem)
    (key : jsstring) : list DecryptedVaultItem :=
  match vaultItems with
  | [] => []
  | item :: rest =>
      match decryptVaultItem (random i) item key with
      | Return decrypted => decrypted :: decryptedItems random (S i) rest key
      | Throw _ => decryptedItems random (S i) rest key
      end
  end.

(** What the dialog does at the end of [handleExportJSON]: an alert that
    the vault is locked, or the file handed to [downloadVaultFile] and the
    number of items that the alert reports. *)
Inductive exported :=
| alert_locked
| downloaded (jsonData : jsstring) (count : nat).

Definition handleExportJSON (random : nat -> salts) (exportedAt : jsstring)
    (key : option jsstring) (vaultItems : list DecryptedVaultItem) : exported :=
  match key with
  | Some (c :: k) =>
      let decryptedItems := decryptedItems random 0 vaultItems (c :: k) in
      let jsonData := exportVaultToJSON exportedAt decryptedItems in
      downloaded jsonData (length decryptedItems)
  | _ => alert_locked
  end.

(** [handleImport] for the text of the chosen file: the error it shows, or
    the items it passes to [onImport].  (Once [parseImportedVault] has
    returned, [items] is an array.) *)
Inductive imported :=
| setImportError (message : string)
| onImport (items : list value).

Definition handleImport (key : option jsstring) (fileContent : jsstring) : imported :=
  match key with
  | Some (_ :: _) =>
      match parseImportedVault fileContent with
      | Throw message => setImportError message
      | Return importedVault =>
          match get importedVault (js "items") with
          | Return (Some (JArray (item :: items))) => onImport (item :: items)
          | _ => setImportError "No items found in import file"
          end
      end
  | _ => setImportError "Please unlock your vault first"
  end.

End ExportImportModal.

(** ** Key derivation (src/lib/crypto.ts) and the encryption context

    [deriveKey] hashes with SHA-256 and PBKDF2 of crypto-js.  What the two
    compute from the octets they are given is left open: [SHA256] and
    [PBKDF2] stand for any two functions on octets.  What is modelled is
    what crypto-js does around them: strings are read as UTF-8 and the
    results are written in hexadecimal. *)

Module KeyDerivation.

Import Utf8 Crypto.

(** [try { return body } catch (error) { return false }] *)
Definition try_catch_bool (body : outcome bool) : bool :=
  match body with
  | Return b => b
  | Throw _ => false
  end.

Section WithHashes.

Variable SHA256 : list octet -> list octet.
Variable PBKDF2 : list octet -> list octet -> N -> N -> list octet.

(** [enc.Hex.stringify] *)
Definition hexChar (n : N) : N := if n <? 10 then 48 + n else 87 + n.

Definition Hex_stringify (bytes : list octet) : jsstring :=
  flat_map (fun bite => [hexChar (N_of_ascii bite / 16); hexChar (N_of_ascii bite mod 16)])
    bytes.

(** [CryptoJS.SHA256(message).toString()] *)
Definition SHA256_toString (message : jsstring) : outcome jsstring :=
  bind (Utf8.parse message) (fun m => Return (Hex_stringify (SHA256 m))).

(** [CryptoJS.PBKDF2(password, salt, { keySize, iterations }).toString()] *)
Definition PBKDF2_toString (password salt : jsstring) (keySize iterations : N)
  : outcome jsstring :=
  bind (Utf8.parse password) (fun p =>
  bind (Utf8.parse salt) (fun s =>
  Return (Hex_stringify (PBKDF2 p s keySize iterations)))).

Definition deriveKey (masterPassword email : jsstring) : outcome jsstring :=
  EncryptionContext.deriveKey SHA256_toString PBKDF2_toString masterPassword email.

(** [setupEncryptionKey] of the encryption context with this [deriveKey]. *)
Definition setupEncryptionKey (st : EncryptionContext.state) (masterPassword email : jsstring)
  : EncryptionContext.state * bool :=
  EncryptionContext.setupEncryptionKey SHA256_toString PBKDF2_toString st masterPassword email.

(** [testEncryption()]; [random1] and [random2] are the salts that
    crypto-js draws. *)
Definition testEncryption (random1 random2 : CryptoJS.salt64) : bool :=
  try_catch_bool
    (let testData := js "Test encryption string" in
     bind (deriveKey (js "testPassword123") (js "test@example.com")) (fun testKey =>
     bind (encrypt random1 testData testKey) (fun encrypted =>
     bind (decrypt random2 encrypted testKey) (fun decrypted =>
     Return (string_eqb decrypted testData))))).

End WithHashes.

End KeyDerivation.

(** * Vocabulary and test data of the statements *)

Module CipherTerms.

Import AES CryptoJS.

Definition hex_octets (bs : list octet) : string :=
  let digit (n : N) : ascii :=
    if n <? 10 then ascii_of_N (48 + n) else ascii_of_N (87 + n) in
  string_of_list_ascii
    (flat_map (fun b => [digit (N_of_ascii b / 16); digit (N_of_ascii b mod 16)]) bs).

Definition salt_of_N (n : N) : CryptoJS.salt64 :=
  let b k := ascii_of_N ((n / 256 ^ k) mod 256) in
  ((b 7, b 6, b 5, b 4), (b 3, b 2, b 1, b 0)).

Definition decryption_failure : string := "Failed to decrypt data - wrong master password?".

Definition encryption_failure : string := "Failed to encrypt data".

(** No surrogate without its partner. *)
Fixpoint paired (s : jsstring) : bool :=
  match s with
  | [] => true
  | u :: rest =>
      if is_low_surrogate u then false
      else if is_high_surrogate u then
        match rest with
        | [] => false
        | l :: rest' => is_low_surrogate l && paired rest'
        end
      else paired rest
  end.

(** A scalar value: a code point that is not a surrogate. *)
Definition scalar (v : N) : Prop := v < 0x110000 /\ ~ (0xD800 <= v <= 0xDFFF).

Definition padding_length (data : list octet) : nat := (16 - length data mod 16)%nat.

(** The round keys and the IV that crypto-js derives from a passphrase and
    a salt. *)
Definition derived_keys (password salt : list octet) : list block * block :=
  let derived := EvpKDF password salt in
  (key_schedule (key256_of derived), block_of (skipn 32 derived)).

(** What the cipher leaves of [data], encrypted under [pw1] and a salt and
    decrypted under [pw2] and the same salt: the blocks, and the number of
    octets that count once the last octet has been taken as padding length. *)
Definition reopened (salt data pw1 pw2 : list octet) : WordArray :=
  let '(rks1, iv1) := derived_keys pw1 salt in
  let '(rks2, iv2) := derived_keys pw2 salt in
  Pkcs7_unpad
    {| words := octets_of_blocks
                  (cbc_decrypt rks2 iv2
                     (cbc_encrypt rks1 iv1 (blocks_of_octets (Pkcs7_pad data))));
       sigBytes := Z.of_nat (length (Pkcs7_pad data)) |}.

End CipherTerms.

Module PolicyTerms.

Definition too_short : string := "Master password must be at least 8 characters".
Definition advice : string := "Consider using a stronger master password".

(** A database with one user who has no master password yet, and that
    user's session. *)
Definition alice_id : jsstring := js "65f1c0ffee0123456789abcd".

Definition alice : User :=
  {| email := js "alice@example.com"; password := js "$2b$10$login-hash";
     masterPasswordHash := None;
     user_createdAt := 1700000000000; user_updatedAt := 1700000000000 |}.

Definition alice_uid : N :=
  match castObjectId alice_id with Some uid => uid | None => 0 end.

Definition db0 : Database := {| users := {[ alice_uid := alice ]}; vaultItems := ∅ |}.

Definition alice_session : option Session :=
  Some {| user := Some {| id := alice_id; session_email := js "alice@example.com" |} |}.

End PolicyTerms.

Module StoreTerms.

Import VaultItemRoute.

Definition not_found : response :=
  json [("error", text "Vault item not found")]%string 404.

Definition title_required : response :=
  json [("error", text "Title is required")]%string 400.

Definition session_of (sid email : jsstring) : option Session :=
  Some {| user := Some {| id := sid; session_email := email |} |}.

(** Two owners, a record of the second one, and an update without a title. *)
Definition owner_a : jsstring := js "00000000000000000000000a".
Definition owner_b : jsstring := js "00000000000000000000000b".
Definition record_id : jsstring := js "0000000000000000000000f1".

Definition record_of_b : VaultItem :=
  {| userId := 11; title := js "U2FsdGVkX18="; username := []; item_password := [];
     url := []; notes := []; createdAt := 1700000000000; updatedAt := 1700000000000 |}.

Definition db_b : Database := {| users := ∅; vaultItems := {[ 241 := record_of_b ]} |}.

Definition untitled : item_body :=
  {| body_title := Some []; body_username := None; body_password := None;
     body_url := None; body_notes := None |}.

End StoreTerms.

Module BcryptTerms.

(** Reading back the octets of [utf8Array]. *)
Fixpoint of_utf8Array (bs : list N) : jsstring :=
  match bs with
  | [] => []
  | b0 :: r0 =>
      if b0 <? 128 then b0 :: of_utf8Array r0
      else if b0 <? 224 then
        match r0 with
        | b1 :: r1 => (b0 - 192) * 64 + (b1 - 128) :: of_utf8Array r1
        | _ => []
        end
      else if b0 <? 240 then
        match r0 with
        | b1 :: b2 :: r2 =>
            (b0 - 224) * 4096 + (b1 - 128) * 64 + (b2 - 128) :: of_utf8Array r2
        | _ => []
        end
      else
        match r0 with
        | b1 :: b2 :: b3 :: r3 =>
            let c := (b0 - 240) * 262144 + (b1 - 128) * 4096 + (b2 - 128) * 64 + (b3 - 128) in
            0xD800 + (c - 0x10000) / 1024 :: 0xDC00 + (c - 0x10000) mod 1024
            :: of_utf8Array r3
        | _ => []
        end
  end.

(** A secret that bcrypt reads in full: code units other than NUL whose
    UTF-8 form has at most 71 octets. *)
Definition read_in_full (s : jsstring) : Prop :=
  Forall (fun u => 0 < u < 65536) s /\ (length (Bcrypt.utf8Array s) <= 71)%nat.

(** Checking a decidable property on every number below [2 ^ bits]. *)
Fixpoint all_below (bits : nat) (base : N) (P : N -> bool) : bool :=
  match bits with
  | O => P base
  | S k => all_below k base P && all_below k (base + 2 ^ N.of_nat k) P
  end.

End BcryptTerms.

Module VerifierTerms.

Import MasterPasswordRoute.

Local Open Scope string_scope.

Definition required : response := json [("error", text "Master password is required")] 400.
Definition already_set : response := json [("error", text "Master password already set")] 400.
Definition set_ok : response :=
  json [("success", flag true); ("message", text "Master password set successfully")] 200.
Definition verified (isValid : bool) : response :=
  json [("valid", flag isValid);
        ("message", text (if isValid then "Master password verified"
                          else "Invalid master password"))] 200.
Definition both_required : response :=
  json [("error", text "Both old and new master passwords are required")] 400.
Definition old_incorrect : response :=
  json [("error", text "Old master password is incorrect")] 401.

Definition changed : response :=
  json [("success", flag true);
        ("message", text "Master password changed successfully");
        ("warning", text "All existing vault items are encrypted with the old master password. You will need to re-encrypt them.")]
       200.

Local Close Scope string_scope.

(** The operations on the verifier, as the route serves them. *)
Definition setVerifier (now salt : N) (db : Database) (session : option Session)
    (secret : jsstring) :=
  POST now salt db session secret (js "set").
Definition verify (db : Database) (session : option Session) (secret : jsstring) :=
  POST 0 0 db session secret (js "verify").
Definition rekey (now salt : N) (db : Database) (session : option Session)
    (oldSecret newSecret : jsstring) :=
  PUT now salt db session oldSecret newSecret.

(** The owner's session sees a verifier made from [secret]. *)
Definition has_verifier (db : Database) (session : option Session) (secret : jsstring) : Prop :=
  exists u uid user salt,
    session_user session = Some u
    /\ castObjectId (id u) = Some uid
    /\ users db !! uid = Some user
    /\ masterPasswordHash user = Some (Bcrypt.hash salt secret 10).

(** Two secrets of 73 characters that differ in the last one, which bcrypt
    never reads. *)
Definition long_secret (last : string) : jsstring := repeat 97 72 ++ js last.

Definition carol_id : jsstring := js "65f1c0ffee0123456789abce".

Definition carol_uid : N :=
  match castObjectId carol_id with Some uid => uid | None => 0 end.

Definition carol : User :=
  {| email := js "carol@example.com"; password := js "$2b$10$login-hash";
     masterPasswordHash := None;
     user_createdAt := 1700000000000; user_updatedAt := 1700000000000 |}.

Definition carol_db : Database := {| users := {[ carol_uid := carol ]}; vaultItems := ∅ |}.

Definition carol_session : option Session :=
  Some {| user := Some {| id := carol_id; session_email := js "carol@example.com" |} |}.

Definition carol_db_set : Database :=
  fst (setVerifier 1700000001000 42 carol_db carol_session (long_secret "1")).

Definition carol_db_rekeyed : Database :=
  fst (rekey 1700000002000 43 carol_db_set carol_session (long_secret "2") (js "NewSecret123!")).

End VerifierTerms.

Module ImportTerms.

Import JSON.

(** A literal of JSON text written with apostrophes in place of the double
    quotes. *)
Definition quoted (s : string) : jsstring :=
  map (fun c => if c =? 39 then 34 else c) (js s).

(** The parsed value has a truthy [version] and an array as [items]. *)
Definition accepted (data : value) : Prop :=
  exists version items,
    get data (js "version") = Return (Some version)
    /\ truthy (Some version) = true
    /\ get data (js "items") = Return (Some (JArray items)).

Definition malformed (m : string) : string := "Failed to parse vault file: " ++ m.

End ImportTerms.

Module VaultItemCryptoTerms.

Import VaultItemCrypto CipherTerms.

(** A string that crypto-js can read: code units, no surrogate without its
    partner. *)
Definition well_formed (s : jsstring) : Prop := code_units s /\ paired s = true.

Definition well_formed_field (x : option jsstring) : Prop :=
  match x with
  | Some s => well_formed s
  | None => True
  end.

(** [x || ''] *)
Definition or_empty (x : option jsstring) : jsstring :=
  match x with
  | Some s => s
  | None => []
  end.

(** The item as the server hands it back: the ciphertext fields with the
    identifiers and the times of the stored document. *)
Definition stored (id uid created updated : jsstring) (c : cipher_fields)
  : DecryptedVaultItem :=
  {| _id := id; item_userId := uid;
     item_title := out_title c;
     item_username := Some (out_username c);
     item_password_of := Some (out_password c);
     item_url := Some (out_url c);
     item_notes := Some (out_notes c);
     item_createdAt := created; item_updatedAt := updated |}.

Definition zero_salts : salts :=
  {| for_title := salt_of_N 1; for_username := salt_of_N 2; for_password := salt_of_N 3;
     for_url := salt_of_N 4; for_notes := salt_of_N 5 |}.

Definition login : item_fields :=
  {| in_title := js "Mail"; in_username := Some (js "carol"); in_password := Some (js "hunter2");
     in_url := None; in_notes := Some [] |}.

End VaultItemCryptoTerms.

Module VaultRouteTerms.

Import VaultItemRoute VaultRoute StoreTerms.

(** A titled body, and the record and the database that creating it under
    the first owner's session gives. *)
Definition titled : item_body :=
  {| body_title := Some (js "U2FsdGVkX19="); body_username := None; body_password := None;
     body_url := None; body_notes := None |}.

Definition created_record : VaultItem :=
  {| userId := 10; title := js "U2FsdGVkX19="; username := []; item_password := [];
     url := []; notes := []; createdAt := 1700000000500; updatedAt := 1700000000500 |}.

Definition db_created : Database :=
  fst (POST 1700000000500 242 db_b (session_of owner_a []) titled).

(** The record of the second owner after an update with that body, and the
    databases after the update and after a delete. *)
Definition updated_record : VaultItem :=
  {| userId := 11; title := js "U2FsdGVkX19="; username := []; item_password := [];
     url := []; notes := []; createdAt := 1700000000000; updatedAt := 1700000000700 |}.

Definition db_updated : Database :=
  fst (VaultItemRoute.PUT 1700000000700 db_b (session_of owner_b []) record_id titled).

Definition db_deleted : Database :=
  fst (VaultItemRoute.DELETE db_b (session_of owner_b []) record_id).

End VaultRouteTerms.

Module VerifierRouteTerms.

Import MasterPasswordRoute VerifierTerms.

Local Open Scope string_scope.

Definition unauthorized : response := json [("error", text "Unauthorized")] 401.
Definition has_master_password (b : bool) : response :=
  json [("hasMasterPassword", flag b)] 200.
Definition not_set_yet : response :=
  json [("error", text "Master password not set yet")] 400.
Definition none_set : response := json [("error", text "No master password set")] 400.
Definition failed_to_process : response :=
  json [("error", text "Failed to process master password")] 500.

Local Close Scope string_scope.

(** Carol's database after a re-key from the secret she set to a new one. *)
Definition carol_secret : jsstring := js "LongEnough1!".
Definition carol_new_secret : jsstring := js "NewSecret123!".

Definition carol_db_plain : Database :=
  fst (setVerifier 1700000001000 42 carol_db carol_session carol_secret).

(** A user whose stored email the schema no longer lets pass (its last
    label has four letters), and that user's session. *)
Definition erin_id : jsstring := js "65f1c0ffee0123456789abcf".

Definition erin_uid : N :=
  match castObjectId erin_id with Some uid => uid | None => 0 end.

Definition erin : User :=
  {| email := js "erin@example.info"; password := js "$2b$10$login-hash";
     masterPasswordHash := None;
     user_createdAt := 1700000000000; user_updatedAt := 1700000000000 |}.

Definition erin_db : Database := {| users := {[ erin_uid := erin ]}; vaultItems := ∅ |}.

Definition erin_session : option Session :=
  Some {| user := Some {| id := erin_id; session_email := js "erin@example.info" |} |}.

End VerifierRouteTerms.

Module StrengthTerms.

Import Crypto.

(** The four ratings in their order. *)
Definition rank (s : strength) : nat :=
  match s with
  | weak => 0
  | medium => 1
  | strong => 2
  | very_strong => 3
  end.

End StrengthTerms.

Module PasswordGeneratorTerms.

Import PasswordGenerator.

(** The character classes that the options select, in the order in which
    [generatePassword] goes through them. *)
Definition classes (options : PasswordOptions) : list jsstring :=
  let similar chars := if excludeSimilar options then replace_similar chars else chars in
  (if includeUppercase options then [similar UPPERCASE] else [])
  ++ (if includeLowercase options then [similar LOWERCASE] else [])
  ++ (if includeNumbers options then [similar NUMBERS] else [])
  ++ (if includeSymbols options then [SYMBOLS] else []).

Definition selected (options : PasswordOptions) : nat := length (classes options).

Definition charset_of (options : PasswordOptions) : jsstring := concat (classes options).

(** The characters drawn one from each selected class. *)
Fixpoint draw_each (random : nat -> N) (k : nat) (cls : list jsstring) : list (option N) :=
  match cls with
  | [] => []
  | chars :: rest => getRandomChar (random k) chars :: draw_each random (S k) rest
  end.

Definition required_text (random : nat -> N) (options : PasswordOptions) : jsstring :=
  join (draw_each random 0 (classes options)).

(** A source of random values for the examples. *)
Definition sample_random (k : nat) : N := (N.of_nat k * 2654435761 + 12345) mod 4294967296.

End PasswordGeneratorTerms.

Module ExportTerms.

Import JSON JSONStringify VaultItemCrypto ImportTerms.

(** What [JSON.parse] makes of a serialized value. *)
Fixpoint parsed_of (value : data) : JSON.value :=
  match value with
  | DUndefined => JNull
  | DString s => JString s
  | DCount n => JNumber {| negative := false; digits := n; exponent := 0 |}
  | DArray elements => JArray (map parsed_of elements)
  | DObject properties =>
      JObject (flat_map (fun property =>
                           match snd property with
                           | DUndefined => []
                           | _ => [(fst property, parsed_of (snd property))]
                           end) properties)
  end.

(** What follows a serialized value: nothing, a comma or a line feed. *)
Definition number_ends (rest : jsstring) : Prop :=
  match rest with
  | [] => True
  | c :: _ => c = 44 \/ c = 10
  end.

Definition whitespace (s : jsstring) : Prop := Forall (fun c => is_whitespace c = true) s.

(** The text of a value does not begin with white space or a closing
    bracket. *)
Definition starts_value (text : jsstring) : Prop :=
  exists c t, text = c :: t /\ is_whitespace c = false /\ c <> 93 /\ c <> 125.

(** With enough fuel [text] is read as [v], whatever follows it. *)
Definition parses (text : jsstring) (v : JSON.value) : Prop :=
  starts_value text
  /\ forall rest, number_ends rest ->
       exists f0, forall f, (f0 <= f)%nat -> parse_value f (text ++ rest) = Parsed v rest.

(** The text of an element of an array. *)
Definition text_of (indent : jsstring) (v : data) : jsstring :=
  match SerializeJSONProperty indent v with
  | Some strP => strP
  | None => js "null"
  end.

(** A member of an object: its text [name: value], and what it is read as. *)
Definition member_text (e : jsstring * (jsstring * JSON.value)) : jsstring :=
  QuoteJSONString (fst e) ++ [58; 32] ++ fst (snd e).

Definition member_value (e : jsstring * (jsstring * JSON.value)) : jsstring * JSON.value :=
  (fst e, snd (snd e)).

(** An item read back from a parsed bundle, property by property. *)
Definition string_property (v : JSON.value) (name : string) : option jsstring :=
  match get v (js name) with
  | Return (Some (JString s)) => Some s
  | _ => None
  end.

Definition item_of (v : JSON.value) : option DecryptedVaultItem :=
  match string_property v "_id", string_property v "userId", string_property v "title",
        string_property v "createdAt", string_property v "updatedAt" with
  | Some id, Some uid, Some title, Some created, Some updated =>
      Some {| _id := id; item_userId := uid; item_title := title;
              item_username := string_property v "username";
              item_password_of := string_property v "password";
              item_url := string_property v "url";
              item_notes := string_property v "notes";
              item_createdAt := created; item_updatedAt := updated |}
  | _, _, _, _, _ => None
  end.

Definition sample_item : DecryptedVaultItem :=
  {| _id := js "65f1c0ffee0123456789abcf"; item_userId := js "65f1c0ffee0123456789abce";
     item_title := quoted "Mail 'home'"; item_username := Some (js "carol");
     item_password_of := Some [104; 0xD83D; 0xDE00; 0xD800; 10]; item_url := None;
     item_notes := Some [];
     item_createdAt := js "2024-03-13T10:00:00.000Z";
     item_updatedAt := js "2024-03-13T10:00:00.000Z" |}.

End ExportTerms.

Module PipelineTerms.

Import VaultItemCrypto VaultItemCryptoTerms.

(** A vault item in plaintext: the identifiers and times of its document
    and its five fields. *)
Record plain_item := {
  plain_id : jsstring;
  plain_userId : jsstring;
  plain_createdAt : jsstring;
  plain_updatedAt : jsstring;
  plain_fields : item_fields
}.

Definition well_formed_item (p : plain_item) : Prop :=
  well_formed (in_title (plain_fields p))
  /\ well_formed_field (in_username (plain_fields p))
  /\ well_formed_field (in_password (plain_fields p))
  /\ well_formed_field (in_url (plain_fields p))
  /\ well_formed_field (in_notes (plain_fields p)).

(** The item as the server hands it to the client, for ciphertext fields
    that [encryptVaultItem] returned under [key]. *)
Definition stored_under (key : jsstring) (p : plain_item) (item : DecryptedVaultItem) : Prop :=
  exists random c,
    encryptVaultItem random (plain_fields p) key = Return c
    /\ item = stored (plain_id p) (plain_userId p) (plain_createdAt p) (plain_updatedAt p) c.

(** The item as the client shows it. *)
Definition shown (p : plain_item) : DecryptedVaultItem :=
  {| _id := plain_id p; item_userId := plain_userId p;
     item_title := in_title (plain_fields p);
     item_username := Some (or_empty (in_username (plain_fields p)));
     item_password_of := Some (or_empty (in_password (plain_fields p)));
     item_url := Some (or_empty (in_url (plain_fields p)));
     item_notes := Some (or_empty (in_notes (plain_fields p)));
     item_createdAt := plain_createdAt p; item_updatedAt := plain_updatedAt p |}.

Definition plain_login : plain_item :=
  {| plain_id := js "65f1c0ffee0123456789abcf"; plain_userId := js "65f1c0ffee0123456789abce";
     plain_createdAt := js "2024-03-13T10:00:00.000Z";
     plain_updatedAt := js "2024-03-13T10:00:00.000Z";
     plain_fields := login |}.

Definition stored_login : DecryptedVaultItem :=
  match encryptVaultItem zero_salts login (js "correct horse") with
  | Return c =>
      stored (plain_id plain_login) (plain_userId plain_login) (plain_createdAt plain_login)
        (plain_updatedAt plain_login) c
  | Throw _ => shown plain_login
  end.

End PipelineTerms.

Module EmailTerms.

Import RegExp AuthHelpers.

(** The strings of a pattern. *)
Inductive matches : pattern -> jsstring -> Prop :=
| matches_Empty : matches Empty []
| matches_Class accepts c : accepts c = true -> matches (Class accepts) [c]
| matches_Seq p q s t : matches p s -> matches q t -> matches (Seq p q) (s ++ t)
| matches_Or_l p q s : matches p s -> matches (Or p q) s
| matches_Or_r p q s : matches q s -> matches (Or p q) s
| matches_Star_nil p : matches (Star p) []
| matches_Star_more p s t : matches p s -> matches (Star p) t -> matches (Star p) (s ++ t).

(** The characters of an address other than the @. *)
Definition address_char (c : N) : bool := word c || dot_or_hyphen c.

End EmailTerms.

(** * Properties *)

(** ** The library models against published test vectors *)

Module LibraryChecks.

Import CipherTerms.

Example md5_empty : hex_octets (MD5.digest []) = "d41d8cd98f00b204e9800998ecf8427e"%string.
Proof. vm_compute. reflexivity. Qed.

Example md5_abc :
  hex_octets (MD5.digest (list_ascii_of_string "abc")) = "900150983cd24fb0d6963f7d28e17f72"%string.
Proof. vm_compute. reflexivity. Qed.

Example md5_long :
  hex_octets (MD5.digest (list_ascii_of_string
    "12345678901234567890123456789012345678901234567890123456789012345678901234567890"))
  = "57edf4a22be3c955ac49da2e2107b67a"%string.
Proof. vm_compute. reflexivity. Qed.

(** FIPS-197, appendix C.3. *)
Example aes256_fips197 :
  let key := map ascii_of_N (map N.of_nat (seq 0 32)) in
  let plain := map ascii_of_N (map (fun k => 17 * N.of_nat k) (seq 0 16)) in
  let rks := AES.key_schedule (AES.key256_of key) in
  hex_octets (AES.octets_of_block (AES.encrypt_block rks (AES.block_of plain)))
    = "8ea2b7ca516745bfeafc49904b496089"%string
  /\ AES.decrypt_block rks (AES.encrypt_block rks (AES.block_of plain)) = AES.block_of plain.
Proof. vm_compute. split; reflexivity. Qed.

(** Ciphertexts that [openssl enc -aes-256-cbc -md md5] gives under the
    same passphrase and salt. *)
Example encrypt_like_openssl :
  Crypto.encrypt (salt_of_N 0x0001020304050607) (js "a") (js "k1")
  = Return (js "U2FsdGVkX18AAQIDBAUGB6RlaJpVgwRQSGpGKBHXa5Q=")
  /\ Crypto.encrypt (salt_of_N 0x0001020304050607)
       (js "The quick brown fox jumps over the lazy dog") (js "correct horse")
     = Return (js "U2FsdGVkX18AAQIDBAUGB8c9FHfKrKCqcv1WJ0k9KyfvgFhkKvYkRohnZyRtptMMXzFVQMWzSEo/ah1VNbF/Eg==")
  /\ Crypto.decrypt (salt_of_N 0)
       (js "U2FsdGVkX18AAQIDBAUGB8c9FHfKrKCqcv1WJ0k9KyfvgFhkKvYkRohnZyRtptMMXzFVQMWzSEo/ah1VNbF/Eg==")
       (js "correct horse")
     = Return (js "The quick brown fox jumps over the lazy dog").
Proof. vm_compute. repeat split. Qed.

(** The same for a plaintext and a passphrase outside ASCII, with
    characters of two, three and four UTF-8 octets. *)
Example encrypt_like_openssl_utf8 :
  let plaintext := [104; 233; 108; 108; 111; 32; 8364; 55357; 56832] in
  let passphrase := [112; 228; 115; 115; 119; 111; 114; 100] in
  Crypto.encrypt (salt_of_N 0x0001020304050607) plaintext passphrase
  = Return (js "U2FsdGVkX18AAQIDBAUGB5UW22tljDpZQnTtzXVGE48=")
  /\ Crypto.decrypt (salt_of_N 0) (js "U2FsdGVkX18AAQIDBAUGB5UW22tljDpZQnTtzXVGE48=") passphrase
     = Return plaintext.
Proof. vm_compute. split; reflexivity. Qed.

End LibraryChecks.

(** ** The field cipher on the empty string and on arbitrary input *)

Module FieldCipherFacts.

Import Crypto CipherTerms.

Lemma falsy_string_nil (s : jsstring) : falsy_string s = true <-> s = [].
Proof. destruct s; simpl; split; congruence. Qed.

(** What [decrypt] can answer on a non-empty input, whatever crypto-js
    makes of that input. *)
Lemma decrypt_nonempty_cases (random : CryptoJS.salt64) (c k : jsstring) :
  c <> [] ->
  decrypt random c k = Throw decryption_failure
  \/ exists p, p <> [] /\ decrypt random c k = Return p.
Proof.
  intros Hc. unfold decrypt.
  destruct c as [|u c']; [congruence|]. cbn [falsy_string].
  destruct (CryptoJS.AES_decrypt random (u :: c') k) as [bytes|e]; cbn [bind try_catch]; auto.
  destruct (CryptoJS.toString_Utf8 bytes) as [plaintext|e]; cbn [bind try_catch]; auto.
  destruct plaintext as [|v p']; cbn [falsy_string try_catch]; auto.
  right. exists (v :: p'). split; [discriminate|reflexivity].
Qed.

(** C8. Encrypting the empty string gives the empty string and decrypting
    the empty string gives the empty string, for every key and without an
    error. *)
Theorem C8_empty_string_identity (r1 r2 : CryptoJS.salt64) (k : jsstring) :
  encrypt r1 [] k = Return [] /\ decrypt r2 [] k = Return [].
Proof. split; reflexivity. Qed.

(** C10. On a non-empty input [decrypt] never returns the empty string: it
    throws the decryption failure or returns a non-empty plaintext; so it
    returns the empty string exactly when its input is the empty string. *)
Theorem C10_decrypt_never_returns_empty (random : CryptoJS.salt64) (c k : jsstring) :
  (c <> [] ->
     decrypt random c k = Throw decryption_failure
     \/ exists p, p <> [] /\ decrypt random c k = Return p)
  /\ (decrypt random c k = Return [] <-> c = []).
Proof.
  split; [apply decrypt_nonempty_cases|].
  split.
  - intros H. destruct c as [|u c']; [reflexivity|].
    destruct (decrypt_nonempty_cases random (u :: c') k) as [E|(p & Hp & E)];
      [discriminate | rewrite E in H; discriminate | rewrite E in H].
    injection H as ->. congruence.
  - intros ->. reflexivity.
Qed.

End FieldCipherFacts.

(** ** The secret-strength policy and where it is applied *)

Module SecretPolicyFacts.

Import Crypto MasterPasswordPrompt EncryptionContext PolicyTerms.

Lemma validate_short (secret : jsstring) :
  (length secret < 8)%nat ->
  validateMasterPassword secret
  = {| isValid := false; message := Some too_short; strength_of := weak |}.
Proof.
  intros H. unfold validateMasterPassword.
  destruct (Nat.ltb_spec (length secret) 8) as [_|H']; [reflexivity|lia].
Qed.

Lemma validate_long (secret : jsstring) :
  (8 <= length secret)%nat ->
  validateMasterPassword secret
  = match strength_of_score (score_of secret) with
    | weak => {| isValid := true; message := Some advice; strength_of := weak |}
    | s => {| isValid := true; message := None; strength_of := s |}
    end.
Proof.
  intros H. unfold validateMasterPassword.
  destruct (Nat.ltb_spec (length secret) 8) as [H'|_]; [lia|].
  destruct (strength_of_score (score_of secret)); reflexivity.
Qed.

Lemma validate_weak (secret : jsstring) :
  (8 <= length secret)%nat ->
  strength_of (validateMasterPassword secret) = weak ->
  validateMasterPassword secret
  = {| isValid := true; message := Some advice; strength_of := weak |}.
Proof.
  intros H Hw. rewrite validate_long in * by assumption.
  destruct (strength_of_score (score_of secret)); simpl in Hw; congruence.
Qed.

(** C3, as stated, fails: "password" has eight characters and scores weak;
    the validation calls it valid, yet the prompt stops the submission with
    the advice as its error and never sets the verifier. *)
Lemma C3_weak_secret_blocked_by_prompt :
  let secret := js "password" in
  length secret = 8%nat
  /\ validateMasterPassword secret
     = {| isValid := true; message := Some advice; strength_of := weak |}
  /\ handleSubmit 1700000001000 7 db0 alice_session true secret = (db0, setError advice).
Proof. vm_compute. repeat split. Qed.

(** The route itself checks no strength: a three-character secret sent to
    it becomes the verifier. *)
Example route_accepts_short_secret :
  exists db',
    MasterPasswordRoute.POST 1700000001000 7 db0 alice_session (js "abc") (js "set")
    = (db', json [("success", flag true);
                  ("message", text "Master password set successfully")]%string 200)
    /\ users db' !! alice_uid
       = Some {| email := email alice; password := password alice;
                 masterPasswordHash := Some (Bcrypt.hash 7 (js "abc") 10);
                 user_createdAt := user_createdAt alice;
                 user_updatedAt := 1700000001000 |}.
Proof. eexists. split; [reflexivity|]. vm_compute. reflexivity. Qed.

(** C3 (amended). [validateMasterPassword] rejects every secret shorter
    than 8 characters, and deriving the session key and the prompt both
    refuse it.  A secret of at least 8 characters that scores weak is
    reported valid with an advisory message; deriving the session key goes
    ahead with it, but the prompt refuses it too, showing the advice as an
    error and sending nothing to the server. *)
Theorem C3_secret_strength_policy (secret : jsstring) :
  ((length secret < 8)%nat ->
     validateMasterPassword secret
     = {| isValid := false; message := Some too_short; strength_of := weak |}
     /\ (forall SHA256 PBKDF2 st email,
           setupEncryptionKey SHA256 PBKDF2 st secret email = (st, false))
     /\ (forall now salt db session first,
           handleSubmit now salt db session first secret = (db, setError too_short)))
  /\ ((8 <= length secret)%nat ->
      strength_of (validateMasterPassword secret) = weak ->
      validateMasterPassword secret
      = {| isValid := true; message := Some advice; strength_of := weak |}
      /\ (forall SHA256 PBKDF2 st email,
            setupEncryptionKey SHA256 PBKDF2 st secret email
            = match deriveKey SHA256 PBKDF2 secret email with
              | Return key => ({| encryptionKey := Some key; isLocked := false |}, true)
              | Throw _ => (st, false)
              end)
      /\ (forall now salt db session first,
            handleSubmit now salt db session first secret = (db, setError advice))).
Proof.
  split.
  - intros H. pose proof (validate_short secret H) as E.
    split; [exact E|]. split.
    + intros. unfold setupEncryptionKey. rewrite E. reflexivity.
    + intros. unfold handleSubmit. rewrite E. reflexivity.
  - intros H Hw. pose proof (validate_weak secret H Hw) as E.
    split; [exact E|]. split.
    + intros. unfold setupEncryptionKey. rewrite E. reflexivity.
    + intros. unfold handleSubmit. rewrite E. reflexivity.
Qed.

Lemma C3_secret_strength_policy_witness :
  let secret := js "password" in
  validateMasterPassword secret
  = {| isValid := true; message := Some advice; strength_of := weak |}
  /\ (forall now salt db session first,
        handleSubmit now salt db session first secret = (db, setError advice)).
Proof.
  destruct (proj2 (C3_secret_strength_policy (js "password"))) as (E & _ & H).
  - vm_compute. lia.
  - vm_compute. reflexivity.
  - split; assumption.
Defined.

End SecretPolicyFacts.

(** ** Owner isolation in the vault-item route *)

Module RecordStoreFacts.

Import VaultItemRoute StoreTerms.

(** The compound lookup misses a record of another owner. *)
Lemma findOne_other_owner (db : Database) (_id a b : N) (item : VaultItem) :
  vaultItems db !! _id = Some item -> userId item = b -> a <> b ->
  findOne db _id a = None.
Proof.
  intros Hi Hb Hab. unfold findOne. rewrite Hi.
  destruct (N.eqb_spec (userId item) a); [congruence|reflexivity].
Qed.

(** The compound lookup finds a record only under its owner. *)
Lemma findOne_Some (db : Database) (_id a : N) (item : VaultItem) :
  findOne db _id a = Some item <-> vaultItems db !! _id = Some item /\ userId item = a.
Proof.
  unfold findOne. destruct (vaultItems db !! _id) as [i|].
  - destruct (N.eqb_spec (userId i) a); split; intros H.
    + injection H as ->. auto.
    + destruct H as [H _]. exact H.
    + discriminate.
    + destruct H as [H1 H2]. injection H1 as ->. contradiction.
  - split; [discriminate|intros [H _]; discriminate].
Qed.

(** C4, as stated, fails for the update: before it looks the record up, PUT
    answers an update without a title with 400 "Title is required", not
    with the 404 of a missing record. *)
Lemma C4_update_without_title_is_400 :
  castObjectId owner_a = Some 10
  /\ castObjectId record_id = Some 241
  /\ vaultItems db_b !! 241 = Some record_of_b
  /\ userId record_of_b <> 10
  /\ PUT 1700000000001 db_b (session_of owner_a []) record_id untitled
     = (db_b, title_required)
  /\ title_required <> not_found.
Proof. vm_compute. repeat split; discriminate. Qed.

(** C4 (amended). For an owner A and a record of another owner B, GET and
    DELETE under A's session answer 404 "Vault item not found"; PUT answers
    404 when the submitted title is non-empty and 400 "Title is required"
    when it is empty or missing.  None of the three returns B's record, and
    the database is left as it was. *)
Theorem C4_owner_isolation (db : Database) (sid email rid : jsstring) (a b _id : N)
    (item : VaultItem) (now : N) (body : item_body) :
  castObjectId sid = Some a ->
  castObjectId rid = Some _id ->
  vaultItems db !! _id = Some item ->
  userId item = b ->
  a <> b ->
  GET db (session_of sid email) rid = not_found
  /\ DELETE db (session_of sid email) rid = (db, not_found)
  /\ PUT now db (session_of sid email) rid body
     = (db, if falsy (body_title body) then title_required else not_found).
Proof.
  intros Ha Hr Hi Hb Hab.
  pose proof (findOne_other_owner db _id a b item Hi Hb Hab) as Hf.
  unfold GET, DELETE, PUT, session_of. cbn [session_user user id].
  rewrite Ha, Hr, Hf.
  repeat split. destruct (falsy (body_title body)); reflexivity.
Qed.

Lemma C4_owner_isolation_witness :
  GET db_b (session_of owner_a []) record_id = not_found
  /\ DELETE db_b (session_of owner_a []) record_id = (db_b, not_found)
  /\ PUT 1700000000001 db_b (session_of owner_a []) record_id untitled
     = (db_b, if falsy (body_title untitled) then title_required else not_found).
Proof.
  apply (C4_owner_isolation db_b owner_a [] record_id 10 11 241 record_of_b).
  - vm_compute. reflexivity.
  - vm_compute. reflexivity.
  - vm_compute. reflexivity.
  - reflexivity.
  - lia.
Defined.

End RecordStoreFacts.

(** ** What bcrypt reads of a secret *)

Module BcryptFacts.

Import Bcrypt BcryptTerms.

Ltac Zify.zify_post_hook ::= Z.to_euclidean_division_equations.

Lemma all_below_spec (bits : nat) (base : N) (P : N -> bool) :
  all_below bits base P = true ->
  forall c, c < 2 ^ N.of_nat bits -> P (base + c) = true.
Proof.
  revert base. induction bits as [|k IH]; intros base H c Hc.
  - cbn in Hc. replace c with 0 by lia. rewrite N.add_0_r. exact H.
  - cbn [all_below] in H. apply andb_prop in H as [H1 H2].
    rewrite Nat2N.inj_succ, N.pow_succ_r' in Hc.
    destruct (N.lt_ge_cases c (2 ^ N.of_nat k)) as [L|G].
    + apply IH; assumption.
    + replace (base + c) with (base + 2 ^ N.of_nat k + (c - 2 ^ N.of_nat k)) by lia.
      apply IH; [assumption|lia].
Qed.

Lemma forall_below (bits : nat) (P : N -> bool) :
  all_below bits 0 P = true -> forall c, c < 2 ^ N.of_nat bits -> P c = true.
Proof. intros H c Hc. exact (all_below_spec bits 0 P H c Hc). Qed.

Lemma lor_128 (x : N) : x < 64 -> N.lor x 128 = 128 + x.
Proof.
  intros H. apply N.eqb_eq.
  apply (forall_below 6 (fun x => N.lor x 128 =? 128 + x)); [vm_compute; reflexivity|exact H].
Qed.

Lemma lor_192 (x : N) : x < 32 -> N.lor x 192 = 192 + x.
Proof.
  intros H. apply N.eqb_eq.
  apply (forall_below 5 (fun x => N.lor x 192 =? 192 + x)); [vm_compute; reflexivity|exact H].
Qed.

Lemma lor_224 (x : N) : x < 16 -> N.lor x 224 = 224 + x.
Proof.
  intros H. apply N.eqb_eq.
  apply (forall_below 4 (fun x => N.lor x 224 =? 224 + x)); [vm_compute; reflexivity|exact H].
Qed.

Lemma lor_240 (x : N) : x < 8 -> N.lor x 240 = 240 + x.
Proof.
  intros H. apply N.eqb_eq.
  apply (forall_below 3 (fun x => N.lor x 240 =? 240 + x)); [vm_compute; reflexivity|exact H].
Qed.

Lemma land_63 (x : N) : N.land x 63 = x mod 64.
Proof. change 63 with (N.ones 6). rewrite N.land_ones. reflexivity. Qed.

Lemma land_3ff (x : N) : N.land x 0x3ff = x mod 1024.
Proof. change 0x3ff with (N.ones 10). rewrite N.land_ones. reflexivity. Qed.

Lemma shiftr_div (x k : N) : N.shiftr x k = x / 2 ^ k.
Proof. apply N.shiftr_div_pow2. Qed.

(** The two masks that recognise the halves of a surrogate pair. *)
Lemma high_mask (c : N) :
  c < 65536 -> (N.land c 0xfc00 =? 0xd800) = ((0xD800 <=? c) && (c <? 0xDC00)).
Proof.
  intros H.
  pose proof (forall_below 16
    (fun c => Bool.eqb (N.land c 0xfc00 =? 0xd800) ((0xD800 <=? c) && (c <? 0xDC00)))) as K.
  apply Bool.eqb_prop. apply K; [vm_compute; reflexivity|exact H].
Qed.

Lemma low_mask (c : N) :
  c < 65536 -> (N.land c 0xfc00 =? 0xdc00) = ((0xDC00 <=? c) && (c <? 0xE000)).
Proof.
  intros H.
  pose proof (forall_below 16
    (fun c => Bool.eqb (N.land c 0xfc00 =? 0xdc00) ((0xDC00 <=? c) && (c <? 0xE000)))) as K.
  apply Bool.eqb_prop. apply K; [vm_compute; reflexivity|exact H].
Qed.

Lemma shiftl_10 (x : N) : N.shiftl x 10 = x * 1024.
Proof. rewrite N.shiftl_mul_pow2. reflexivity. Qed.

Ltac to_arithmetic :=
  rewrite ?shiftr_div, ?land_63, ?land_3ff, ?shiftl_10;
  change (2 ^ 6) with 64; change (2 ^ 12) with 4096; change (2 ^ 18) with 262144.

Lemma three_octets (c : N) (rest : list N) :
  2048 <= c < 65536 ->
  of_utf8Array (N.lor (N.shiftr c 12) 224 :: N.lor (N.land (N.shiftr c 6) 63) 128
                :: N.lor (N.land c 63) 128 :: rest)
  = c :: of_utf8Array rest.
Proof.
  intros H. to_arithmetic.
  rewrite lor_224, !lor_128 by lia.
  cbn [of_utf8Array].
  destruct (N.ltb_spec (224 + c / 4096) 128); [lia|].
  destruct (N.ltb_spec (224 + c / 4096) 224); [lia|].
  destruct (N.ltb_spec (224 + c / 4096) 240); [|lia].
  f_equal. lia.
Qed.

Lemma four_octets (c : N) (rest : list N) :
  0x10000 <= c < 0x110000 ->
  of_utf8Array (N.lor (N.shiftr c 18) 240 :: N.lor (N.land (N.shiftr c 12) 63) 128
                :: N.lor (N.land (N.shiftr c 6) 63) 128 :: N.lor (N.land c 63) 128 :: rest)
  = 0xD800 + (c - 0x10000) / 1024 :: 0xDC00 + (c - 0x10000) mod 1024 :: of_utf8Array rest.
Proof.
  intros H. to_arithmetic.
  rewrite lor_240, !lor_128 by lia.
  cbn [of_utf8Array].
  destruct (N.ltb_spec (240 + c / 262144) 128); [lia|].
  destruct (N.ltb_spec (240 + c / 262144) 224); [lia|].
  destruct (N.ltb_spec (240 + c / 262144) 240); [lia|].
  replace ((240 + c / 262144 - 240) * 262144 + (128 + (c / 4096) mod 64 - 128) * 4096
           + (128 + (c / 64) mod 64 - 128) * 64 + (128 + c mod 64 - 128))
    with c by lia.
  reflexivity.
Qed.

Lemma high_bits (c1 : N) : 0xD800 <= c1 < 0xDC00 -> c1 mod 1024 = c1 - 0xD800.
Proof. intros H. symmetry. apply (N.mod_unique c1 1024 54); lia. Qed.

Lemma low_bits (c2 : N) : 0xDC00 <= c2 < 0xE000 -> c2 mod 1024 = c2 - 0xDC00.
Proof. intros H. symmetry. apply (N.mod_unique c2 1024 55); lia. Qed.

Lemma pair_back (c1 c2 : N) :
  0xD800 <= c1 < 0xDC00 -> 0xDC00 <= c2 < 0xE000 ->
  let c := 0x10000 + (c1 - 0xD800) * 1024 + (c2 - 0xDC00) in
  0xD800 + (c - 0x10000) / 1024 = c1 /\ 0xDC00 + (c - 0x10000) mod 1024 = c2.
Proof.
  intros H1 H2 c.
  replace (c - 0x10000) with (1024 * (c1 - 0xD800) + (c2 - 0xDC00)) by (subst c; lia).
  split.
  - rewrite <- (N.div_unique _ 1024 (c1 - 0xD800) (c2 - 0xDC00)); lia.
  - rewrite <- (N.mod_unique _ 1024 (c1 - 0xD800) (c2 - 0xDC00)); lia.
Qed.

Lemma utf8Array_read_back_bounded (n : nat) (s : jsstring) :
  (length s <= n)%nat -> code_units s -> of_utf8Array (utf8Array s) = s.
Proof.
  revert s. induction n as [|n IH]; intros s Hn Hu.
  - destruct s; [reflexivity|simpl in Hn; lia].
  - destruct s as [|c1 rest]; [reflexivity|].
    apply Forall_cons_iff in Hu as [H1 Hu].
    cbn [utf8Array].
    destruct (N.ltb_spec c1 128) as [A|A].
    { cbn [of_utf8Array]. destruct (N.ltb_spec c1 128); [|lia].
      rewrite IH by (simpl in *; auto; lia). reflexivity. }
    destruct (N.ltb_spec c1 2048) as [B|B].
    { to_arithmetic. rewrite lor_192, lor_128 by lia.
      cbn [of_utf8Array].
      destruct (N.ltb_spec (192 + c1 / 64) 128); [lia|].
      destruct (N.ltb_spec (192 + c1 / 64) 224); [|lia].
      rewrite IH by (simpl in *; auto; lia). f_equal. lia. }
    destruct rest as [|c2 rest'].
    { rewrite three_octets by lia. reflexivity. }
    pose proof Hu as Hu'. apply Forall_cons_iff in Hu' as [H2 Hu'].
    rewrite high_mask, low_mask by assumption.
    destruct ((0xD800 <=? c1) && (c1 <? 0xDC00) && ((0xDC00 <=? c2) && (c2 <? 0xE000)))
      eqn:Pair.
    + apply andb_prop in Pair as [P1 P2].
      apply andb_prop in P1 as [P1a P1b]. apply andb_prop in P2 as [P2a P2b].
      apply N.leb_le in P1a, P2a. apply N.ltb_lt in P1b, P2b.
      rewrite land_3ff, land_3ff, shiftl_10, high_bits, low_bits by lia.
      destruct (pair_back c1 c2) as [E1 E2]; [lia|lia|].
      rewrite four_octets by lia.
      rewrite E1, E2, IH by (simpl in *; auto; lia). reflexivity.
    + rewrite three_octets by lia.
      rewrite IH by (simpl in *; auto; lia). reflexivity.
Qed.

Lemma utf8Array_read_back (s : jsstring) :
  code_units s -> of_utf8Array (utf8Array s) = s.
Proof. apply (utf8Array_read_back_bounded (length s)). lia. Qed.

Lemma utf8Array_inj (s s' : jsstring) :
  code_units s -> code_units s' -> utf8Array s = utf8Array s' -> s = s'.
Proof.
  intros H H' E.
  rewrite <- (utf8Array_read_back s H), <- (utf8Array_read_back s' H'), E. reflexivity.
Qed.

Lemma utf8Array_app_nul_bounded (n : nat) (s : jsstring) :
  (length s <= n)%nat -> utf8Array (s ++ [0]) = utf8Array s ++ [0].
Proof.
  revert s. induction n as [|n IH]; intros s Hn.
  - destruct s; [reflexivity|simpl in Hn; lia].
  - destruct s as [|c1 rest]; [reflexivity|].
    cbn [app utf8Array].
    destruct (c1 <? 128); [rewrite IH by (simpl in *; lia); reflexivity|].
    destruct (c1 <? 2048); [rewrite IH by (simpl in *; lia); reflexivity|].
    destruct rest as [|c2 rest'].
    + cbn [app]. change (N.land 0 0xfc00 =? 0xdc00) with false.
      rewrite andb_false_r. reflexivity.
    + cbn [app].
      destruct ((N.land c1 0xfc00 =? 0xd800) && (N.land c2 0xfc00 =? 0xdc00)).
      * rewrite IH by (simpl in *; lia). reflexivity.
      * change (c2 :: rest' ++ [0]) with ((c2 :: rest') ++ [0]).
        rewrite IH by (simpl in *; lia). reflexivity.
Qed.

Lemma utf8Array_app_nul (s : jsstring) : utf8Array (s ++ [0]) = utf8Array s ++ [0].
Proof. apply (utf8Array_app_nul_bounded (length s)). lia. Qed.

Lemma lor_nonzero (x k : N) : k <> 0 -> N.lor x k <> 0.
Proof. intros Hk H. apply N.lor_eq_0_iff in H as [_ H]. contradiction. Qed.

Lemma utf8Array_nonzero_bounded (n : nat) (s : jsstring) :
  (length s <= n)%nat -> Forall (fun u => 0 < u < 65536) s ->
  Forall (fun b => b <> 0) (utf8Array s).
Proof.
  revert s. induction n as [|n IH]; intros s Hn Hu.
  - destruct s; [constructor|simpl in Hn; lia].
  - destruct s as [|c1 rest]; [constructor|].
    apply Forall_cons_iff in Hu as [H1 Hu].
    cbn [utf8Array].
    destruct (c1 <? 128); [constructor; [lia|apply IH; simpl in *; auto; lia]|].
    destruct (c1 <? 2048);
      [repeat (constructor; [apply lor_nonzero; discriminate|]);
       apply IH; simpl in *; auto; lia|].
    destruct rest as [|c2 rest'];
      [repeat (constructor; [apply lor_nonzero; discriminate|]); constructor|].
    pose proof Hu as Hu'. apply Forall_cons_iff in Hu' as [H2 Hu'].
    destruct ((N.land c1 0xfc00 =? 0xd800) && (N.land c2 0xfc00 =? 0xdc00));
      repeat (constructor; [apply lor_nonzero; discriminate|]);
      apply IH; simpl in *; auto; lia.
Qed.

Lemma utf8Array_nonzero (s : jsstring) :
  Forall (fun u => 0 < u < 65536) s -> Forall (fun b => b <> 0) (utf8Array s).
Proof. apply (utf8Array_nonzero_bounded (length s)). lia. Qed.

(** The stream starts with the octets of the password and a NUL. *)
Lemma key_stream_nth (s : jsstring) (i : nat) :
  (i <= length (utf8Array s))%nat -> (length (utf8Array s) <= 71)%nat ->
  nth i (key_stream s) 0 = nth i (utf8Array s ++ [0]) 0.
Proof.
  intros Hi Hl. unfold key_stream. rewrite utf8Array_app_nul.
  set (pb := utf8Array s ++ [0]).
  assert (length pb = S (length (utf8Array s))) as L
    by (subst pb; rewrite length_app; simpl; lia).
  rewrite (nth_indep _ 0 (nth (0 mod length pb) pb 0))
    by (rewrite length_map, length_seq; lia).
  rewrite (map_nth (fun i => nth (i mod length pb) pb 0) (seq 0 72) 0%nat i).
  rewrite seq_nth by lia. cbn [Nat.add].
  rewrite Nat.mod_small by lia. reflexivity.
Qed.

(** Secrets that bcrypt reads in full are told apart by their streams. *)
Lemma key_stream_inj (s s' : jsstring) :
  read_in_full s -> read_in_full s' -> key_stream s = key_stream s' -> s = s'.
Proof.
  intros [Hu Hl] [Hu' Hl'] E.
  assert (forall t t' : jsstring,
            Forall (fun u => 0 < u < 65536) t -> (length (utf8Array t) <= 71)%nat ->
            Forall (fun u => 0 < u < 65536) t' -> (length (utf8Array t') <= 71)%nat ->
            key_stream t = key_stream t' ->
            ~ (length (utf8Array t) < length (utf8Array t'))%nat) as Shorter.
  { intros t t' Ht Lt Ht' Lt' Et Hlt.
    pose proof (key_stream_nth t (length (utf8Array t)) (Nat.le_refl _) Lt) as A.
    pose proof (key_stream_nth t' (length (utf8Array t))) as B.
    rewrite Et in A. rewrite B in A by lia.
    rewrite (app_nth2 (utf8Array t)), Nat.sub_diag in A by lia. cbn [nth] in A.
    rewrite (app_nth1 (utf8Array t')) in A by lia.
    pose proof (utf8Array_nonzero t' Ht') as Z.
    rewrite List.Forall_forall in Z. apply (Z (nth (length (utf8Array t)) (utf8Array t') 0)).
    - apply nth_In. exact Hlt.
    - exact A. }
  assert (length (utf8Array s) = length (utf8Array s')) as Len.
  { pose proof (Shorter s s' Hu Hl Hu' Hl' E).
    pose proof (Shorter s' s Hu' Hl' Hu Hl (eq_sym E)). lia. }
  apply utf8Array_inj.
  - eapply List.Forall_impl; [|exact Hu]. cbn. intros; lia.
  - eapply List.Forall_impl; [|exact Hu']. cbn. intros; lia.
  - apply (nth_ext _ _ 0 0 Len). intros i Hi.
    pose proof (key_stream_nth s i) as A. pose proof (key_stream_nth s' i) as B.
    rewrite app_nth1 in A by lia. rewrite app_nth1 in B by lia.
    rewrite <- A, <- B, E by lia. reflexivity.
Qed.

(** Two different secrets that bcrypt reads in full give different streams. *)
Lemma read_in_full_told_apart (s s' : jsstring) :
  read_in_full s -> read_in_full s' -> s' <> s -> key_stream s' <> key_stream s.
Proof. intros Hs Hs' Hne E. apply Hne. apply key_stream_inj; assumption. Qed.

Example read_in_full_example : read_in_full (js "LongEnough1!").
Proof. split; [vm_compute; repeat constructor | vm_compute; lia]. Qed.

End BcryptFacts.

(** ** The master-secret verifier: set, verify and re-key *)

Module VerifierFacts.

Import MasterPasswordRoute BcryptTerms VerifierTerms.

Lemma string_eqb_eq (a b : jsstring) : string_eqb a b = true <-> a = b.
Proof.
  revert b. induction a as [|x a IH]; intros [|y b]; simpl; split; try congruence.
  - intros H. apply andb_prop in H as [H1 H2].
    apply N.eqb_eq in H1. apply IH in H2. congruence.
  - intros H. injection H as -> ->. rewrite N.eqb_refl. simpl. apply IH. reflexivity.
Qed.

Lemma string_eqb_refl (a : jsstring) : string_eqb a a = true.
Proof. apply string_eqb_eq. reflexivity. Qed.

(** The symbolic comparison: equal exactly on equal key streams. *)
Lemma compare_hash (salt rounds : N) (s s' : jsstring) :
  Bcrypt.compare s' (Bcrypt.hash salt s rounds)
  = string_eqb (Bcrypt.key_stream s') (Bcrypt.key_stream s).
Proof. reflexivity. Qed.

Lemma compare_same (salt rounds : N) (s : jsstring) :
  Bcrypt.compare s (Bcrypt.hash salt s rounds) = true.
Proof. rewrite compare_hash. apply string_eqb_refl. Qed.

(** A successful [setVerifier] leaves exactly such a state. *)
(** [verify] draws no salt and reads no clock. *)
Lemma verify_any (now salt : N) (db : Database) (session : option Session) (s : jsstring) :
  POST now salt db session s (js "verify") = verify db session s.
Proof.
  unfold verify, POST.
  destruct (session_user session) as [u|]; [|reflexivity].
  destruct (falsy_string s); [reflexivity|].
  destruct (findById db (id u)) as [[uid [user|]]|]; reflexivity.
Qed.

Lemma setVerifier_ok (now salt : N) (db db' : Database) (session : option Session)
    (secret : jsstring) (r : response) :
  setVerifier now salt db session secret = (db', r) -> status r = 200 ->
  secret <> [] /\ r = set_ok /\ has_verifier db' session secret.
Proof.
  unfold setVerifier, POST. intros H Hs.
  destruct (session_user session) as [u|] eqn:Hu;
    [|injection H as <- <-; discriminate].
  destruct secret as [|c secret']; [injection H as <- <-; discriminate|].
  cbn [falsy_string] in H. unfold findById in H.
  destruct (castObjectId (id u)) as [uid|] eqn:Hc;
    [|injection H as <- <-; discriminate].
  destruct (users db !! uid) as [user|] eqn:Hl;
    [|injection H as <- <-; discriminate].
  change (string_eqb (js "set") (js "set")) with true in H. cbv iota in H.
  destruct (masterPasswordHash user) eqn:Hh;
    [injection H as <- <-; discriminate|].
  unfold save in H. rewrite Hh in H. cbn [unmodified] in H.
  destruct (UserSchema.validate user); cbn [negb] in H;
    [|injection H as <- <-; discriminate].
  injection H as <- <-.
  split; [discriminate|]. split; [reflexivity|].
  exists u, uid. eexists. exists salt.
  split; [exact Hu|]. split; [exact Hc|].
  split; [cbn; apply lookup_insert_eq | reflexivity].
Qed.

Section WithVerifier.

Variables (db : Database) (session : option Session) (secret : jsstring).
Hypothesis Hset : has_verifier db session secret.

Lemma setVerifier_again (now salt : N) (s2 : jsstring) :
  setVerifier now salt db session s2
  = (db, if falsy_string s2 then required else already_set).
Proof.
  destruct Hset as (u & uid & user & salt0 & Hu & Hc & Hl & Hh).
  unfold setVerifier, POST. rewrite Hu.
  destruct (falsy_string s2); [reflexivity|].
  unfold findById. rewrite Hc, Hl.
  change (string_eqb (js "set") (js "set")) with true. cbv iota.
  rewrite Hh. reflexivity.
Qed.

Lemma verify_answer (s' : jsstring) :
  verify db session s'
  = (db, if falsy_string s' then required
         else verified (string_eqb (Bcrypt.key_stream s') (Bcrypt.key_stream secret))).
Proof.
  destruct Hset as (u & uid & user & salt0 & Hu & Hc & Hl & Hh).
  unfold verify, POST. rewrite Hu.
  destruct (falsy_string s'); [reflexivity|].
  unfold findById. rewrite Hc, Hl.
  change (string_eqb (js "verify") (js "set")) with false.
  change (string_eqb (js "verify") (js "verify")) with true. cbv iota.
  rewrite Hh, compare_hash. reflexivity.
Qed.

Lemma rekey_wrong_old (now salt : N) (oldSecret newSecret : jsstring) :
  Bcrypt.key_stream oldSecret <> Bcrypt.key_stream secret ->
  rekey now salt db session oldSecret newSecret
  = (db, if falsy_string oldSecret || falsy_string newSecret
         then both_required else old_incorrect).
Proof.
  intros Hne.
  destruct Hset as (u & uid & user & salt0 & Hu & Hc & Hl & Hh).
  unfold rekey, PUT. rewrite Hu.
  destruct (falsy_string oldSecret || falsy_string newSecret); [reflexivity|].
  unfold findById. rewrite Hc, Hl, Hh, compare_hash.
  destruct (string_eqb (Bcrypt.key_stream oldSecret) (Bcrypt.key_stream secret)) eqn:E.
  - apply string_eqb_eq in E. contradiction.
  - reflexivity.
Qed.

End WithVerifier.

(** C5, as stated, fails: with the verifier set from one of the two long
    secrets, verifying the other one, a different secret, answers true; and
    verifying the empty secret answers neither true nor false but the
    error 400 "Master password is required". *)
Lemma C5_verify_accepts_another_secret :
  long_secret "2" <> long_secret "1"
  /\ setVerifier 1700000001000 42 carol_db carol_session (long_secret "1")
     = (carol_db_set, set_ok)
  /\ verify carol_db_set carol_session (long_secret "2") = (carol_db_set, verified true)
  /\ verify carol_db_set carol_session [] = (carol_db_set, required).
Proof.
  split; [|vm_compute; repeat split].
  intros H. apply (f_equal (fun l => nth 72 l 0)) in H. vm_compute in H. discriminate.
Qed.

(** C5 (amended). After [setVerifier] has succeeded for an owner with
    secret [s], a second [setVerifier] fails and leaves the database as it
    is: with 400 "Master password already set" for a non-empty secret, with
    400 "Master password is required" for the empty one.  [verify] answers
    true for [s] and for every secret from which bcrypt reads the same 72
    octets as from [s], false for every other non-empty secret, and the
    error 400 "Master password is required" for the empty secret; it never
    changes the database.  When [s] and the secret presented are both read
    in full by bcrypt (no NUL code unit, at most 71 octets in UTF-8),
    [verify] answers true only for [s] itself. *)
Theorem C5_verifier_set_once (now salt : N) (db db1 : Database) (session : option Session)
    (s : jsstring) (r : response) :
  setVerifier now salt db session s = (db1, r) ->
  status r = 200 ->
  (forall now2 salt2 s2,
      setVerifier now2 salt2 db1 session s2
      = (db1, if falsy_string s2 then required else already_set))
  /\ verify db1 session s = (db1, verified true)
  /\ (forall s', s' <> [] -> Bcrypt.key_stream s' = Bcrypt.key_stream s ->
        verify db1 session s' = (db1, verified true))
  /\ (forall s', s' <> [] -> Bcrypt.key_stream s' <> Bcrypt.key_stream s ->
        verify db1 session s' = (db1, verified false))
  /\ (forall s', s' <> [] -> read_in_full s -> read_in_full s' -> s' <> s ->
        verify db1 session s' = (db1, verified false))
  /\ verify db1 session [] = (db1, required).
Proof.
  intros Hset Hok.
  destruct (setVerifier_ok _ _ _ _ _ _ _ Hset Hok) as (Hs & _ & Hv).
  split; [intros; apply (setVerifier_again db1 session s Hv)|].
  assert (forall s', s' <> [] ->
            verify db1 session s'
            = (db1, verified (string_eqb (Bcrypt.key_stream s') (Bcrypt.key_stream s)))) as V.
  { intros s' Hne. rewrite (verify_answer db1 session s Hv).
    destruct s'; [congruence|reflexivity]. }
  split; [rewrite V by assumption; rewrite string_eqb_refl; reflexivity|].
  split; [intros s' Hne E; rewrite V by assumption; rewrite E, string_eqb_refl; reflexivity|].
  assert (forall s', s' <> [] -> Bcrypt.key_stream s' <> Bcrypt.key_stream s ->
            verify db1 session s' = (db1, verified false)) as F.
  { intros s' Hne E. rewrite V by assumption.
    destruct (string_eqb (Bcrypt.key_stream s') (Bcrypt.key_stream s)) eqn:B; [|reflexivity].
    apply string_eqb_eq in B. contradiction. }
  split; [exact F|].
  split; [|apply (verify_answer db1 session s Hv)].
  intros s' Hne Rs Rs' D. apply F; [assumption|].
  apply BcryptFacts.read_in_full_told_apart; assumption.
Qed.

Lemma C5_verifier_set_once_witness :
  verify carol_db_set carol_session (long_secret "1") = (carol_db_set, verified true)
  /\ verify carol_db_set carol_session (js "LongEnough1!") = (carol_db_set, verified false).
Proof.
  destruct (C5_verifier_set_once 1700000001000 42 carol_db carol_db_set carol_session
              (long_secret "1") set_ok)
    as (_ & V & _ & F & _ & _).
  - vm_compute. reflexivity.
  - reflexivity.
  - split; [exact V|]. apply F.
    + discriminate.
    + intros H. apply (f_equal (fun l => nth 0 l 0)) in H. vm_compute in H. discriminate.
Defined.

(** C6, as stated, fails: with the verifier set from one long secret, a
    re-key that presents the other long secret, a different one, as the old
    secret succeeds and replaces the verifier, after which the original
    secret no longer verifies. *)
Lemma C6_rekey_accepts_another_old_secret :
  long_secret "2" <> long_secret "1"
  /\ setVerifier 1700000001000 42 carol_db carol_session (long_secret "1")
     = (carol_db_set, set_ok)
  /\ rekey 1700000002000 43 carol_db_set carol_session (long_secret "2") (js "NewSecret123!")
     = (carol_db_rekeyed, changed)
  /\ carol_db_rekeyed <> carol_db_set
  /\ verify carol_db_rekeyed carol_session (long_secret "1")
     = (carol_db_rekeyed, verified false).
Proof.
  split; [|split; [|split; [|split]]]; try (vm_compute; reflexivity).
  - intros H. apply (f_equal (fun l => nth 72 l 0)) in H. vm_compute in H. discriminate.
  - intros H. apply (f_equal (fun d => users d !! carol_uid)) in H.
    vm_compute in H. discriminate.
Qed.

(** C6 (amended). For an owner whose verifier was set from [s], a re-key
    whose old secret makes bcrypt read other octets than [s] does (as does
    every old secret other than [s] when both are read in full by bcrypt:
    no NUL code unit, at most 71 octets in UTF-8) fails and leaves the
    database as it is, so that [s] still verifies afterwards: with 401
    "Old master password is incorrect" when both secrets are non-empty,
    with 400 "Both old and new master passwords are required" when one of
    them is empty. *)
Theorem C6_rekey_wrong_old_secret (now salt now2 salt2 : N) (db db1 : Database)
    (session : option Session) (s oldSecret newSecret : jsstring) (r : response) :
  setVerifier now salt db session s = (db1, r) ->
  status r = 200 ->
  Bcrypt.key_stream oldSecret <> Bcrypt.key_stream s
  \/ (read_in_full s /\ read_in_full oldSecret /\ oldSecret <> s) ->
  rekey now2 salt2 db1 session oldSecret newSecret
  = (db1, if falsy_string oldSecret || falsy_string newSecret
          then both_required else old_incorrect)
  /\ verify (fst (rekey now2 salt2 db1 session oldSecret newSecret)) session s
     = (db1, verified true).
Proof.
  intros Hset Hok Hd.
  assert (Bcrypt.key_stream oldSecret <> Bcrypt.key_stream s) as Hne.
  { destruct Hd as [Hne|(Rs & Ro & D)]; [exact Hne|].
    apply BcryptFacts.read_in_full_told_apart; assumption. }
  destruct (setVerifier_ok _ _ _ _ _ _ _ Hset Hok) as (Hs & _ & Hv).
  pose proof (rekey_wrong_old db1 session s Hv now2 salt2 oldSecret newSecret Hne) as E.
  split; [exact E|]. rewrite E. cbn [fst].
  rewrite (verify_answer db1 session s Hv).
  destruct s; [congruence|]. cbn [falsy_string].
  rewrite string_eqb_refl. reflexivity.
Qed.

Lemma C6_rekey_wrong_old_secret_witness :
  rekey 1700000002000 43 carol_db_set carol_session (js "WrongSecret9!") (js "NewSecret123!")
  = (carol_db_set, old_incorrect)
  /\ verify (fst (rekey 1700000002000 43 carol_db_set carol_session
                        (js "WrongSecret9!") (js "NewSecret123!")))
            carol_session (long_secret "1")
     = (carol_db_set, verified true).
Proof.
  apply (C6_rekey_wrong_old_secret 1700000001000 42 1700000002000 43
           carol_db carol_db_set carol_session
           (long_secret "1") (js "WrongSecret9!") (js "NewSecret123!") set_ok).
  - vm_compute. reflexivity.
  - reflexivity.
  - left. intros H. apply (f_equal (fun l => nth 0 l 0)) in H. vm_compute in H. discriminate.
Defined.

(** C7. A re-key, successful or not, leaves every stored record as it was,
    and its answer does not depend on the records.  Among the users it
    changes at most the owner's document, and there it replaces the
    verifier hash by the hash of the new secret (the document's
    modification stamp is renewed by the save; email and login password
    stay). *)
Theorem C7_rekey_leaves_records (now salt : N) (db : Database) (session : option Session)
    (oldSecret newSecret : jsstring) :
  vaultItems (fst (rekey now salt db session oldSecret newSecret)) = vaultItems db
  /\ (forall items,
        rekey now salt {| users := users db; vaultItems := items |} session
          oldSecret newSecret
        = ({| users := users (fst (rekey now salt db session oldSecret newSecret));
              vaultItems := items |},
           snd (rekey now salt db session oldSecret newSecret)))
  /\ (forall uid,
        users (fst (rekey now salt db session oldSecret newSecret)) !! uid
        <> users db !! uid ->
        snd (rekey now salt db session oldSecret newSecret) = changed
        /\ exists u user,
             session_user session = Some u
             /\ castObjectId (id u) = Some uid
             /\ users db !! uid = Some user
             /\ users (fst (rekey now salt db session oldSecret newSecret)) !! uid
                = Some {| email := email user; password := password user;
                          masterPasswordHash := Some (Bcrypt.hash salt newSecret 10);
                          user_createdAt := user_createdAt user;
                          user_updatedAt := now |}).
Proof.
  unfold rekey, PUT, findById.
  destruct (session_user session) as [u|]; [|cbn; repeat split; congruence].
  destruct (falsy_string oldSecret || falsy_string newSecret);
    [cbn; repeat split; congruence|].
  destruct (castObjectId (id u)) as [uid0|] eqn:Hc; [|cbn; repeat split; congruence].
  cbn [users vaultItems].
  destruct (users db !! uid0) as [user|] eqn:Hl; [|cbn; repeat split; congruence].
  destruct (masterPasswordHash user) as [h|]; [|cbn; repeat split; congruence].
  destruct (negb (Bcrypt.compare oldSecret h)); [cbn; repeat split; congruence|].
  unfold save. cbn [users vaultItems].
  destruct (negb (UserSchema.validate user)); [cbn; repeat split; congruence|].
  destruct (unmodified _ _); [cbn; repeat split; congruence|].
  cbn [fst snd users vaultItems].
  split; [reflexivity|]. split; [reflexivity|].
  intros uid Hne. split; [reflexivity|].
  destruct (decide (uid0 = uid)) as [->|Hd].
  - exists u, user. rewrite lookup_insert_eq. auto.
  - rewrite lookup_insert_ne in Hne by assumption. congruence.
Qed.

End VerifierFacts.

(** ** The import parser *)

Module ImportFacts.

Import JSON VaultExport ImportTerms.

Ltac break_in H :=
  repeat match type of H with
         | context [match ?x with _ => _ end] => destruct x eqn:?
         | context [if ?b then _ else _] => destruct b eqn:?
         | context [let '(_, _) := ?x in _] => destruct x eqn:?
         end.

Lemma skip_ws_length (s : jsstring) : (length (skip_ws s) <= length s)%nat.
Proof.
  induction s as [|c s IH]; simpl; [lia|].
  destruct (is_whitespace c); simpl; lia.
Qed.

Lemma string_chars_length_bounded (n : nat) (s acc x rest : jsstring) :
  (length s <= n)%nat ->
  string_chars s acc = Parsed x rest -> (length rest < length s)%nat.
Proof.
  revert s acc. induction n as [|n IH]; intros s acc Hn H.
  - destruct s; [discriminate|simpl in Hn; lia].
  - destruct s as [|c s1]; [discriminate|].
    simpl in H.
    destruct (c =? 34); [injection H as _ <-; simpl; lia|].
    destruct (c =? 92).
    + destruct s1 as [|e s2]; [discriminate|].
      assert (forall a, string_chars s2 a = Parsed x rest ->
                        (length rest < length (c :: e :: s2))%nat) as K.
      { intros a Ha. apply IH in Ha; simpl in *; lia. }
      repeat match type of H with
             | (if ?b then _ else _) = _ => destruct b; [eapply K; eassumption|]
             end.
      destruct (e =? 117); [|discriminate].
      destruct s2 as [|h1 [|h2 [|h3 [|h4 s3]]]]; try discriminate.
      break_in H; try discriminate; apply IH in H; simpl in *; lia.
    + destruct (c <? 32); [discriminate|].
      apply IH in H; simpl in *; lia.
Qed.

Lemma string_chars_length (s acc x rest : jsstring) :
  string_chars s acc = Parsed x rest -> (length rest < length s)%nat.
Proof. apply (string_chars_length_bounded (length s)). lia. Qed.

Lemma decimal_digits_length (s : jsstring) (acc : N) (count : nat) (v : N) (n : nat)
    (rest : jsstring) :
  decimal_digits s acc count = (v, n, rest) -> (length rest <= length s)%nat.
Proof.
  revert acc count. induction s as [|c s IH]; intros acc count H; simpl in H.
  - injection H as _ _ <-. simpl. lia.
  - destruct (Crypto.digit c).
    + apply IH in H. simpl. lia.
    + injection H as _ _ <-. simpl. lia.
Qed.

Lemma exponent_part_length (s rest : jsstring) (e : Z) :
  exponent_part s = Parsed e rest -> (length rest <= length s)%nat.
Proof.
  unfold exponent_part. intros H.
  destruct s as [|c s']; [injection H as _ <-; lia|].
  destruct ((c =? 101) || (c =? 69)); [|injection H as _ <-; lia].
  destruct s' as [|d t].
  - simpl in H. discriminate.
  - destruct (d =? 43); [|destruct (d =? 45)];
      match type of H with
      | context [decimal_digits ?a ?b ?c] =>
          destruct (decimal_digits a b c) as [[v n] r] eqn:D
      end;
      apply decimal_digits_length in D; destruct n; try discriminate;
      injection H as _ <-; simpl in *; lia.
Qed.

Lemma fraction_part_length (s rest : jsstring) (int : N) (m : N * nat) :
  fraction_part s int = Parsed m rest -> (length rest <= length s)%nat.
Proof.
  unfold fraction_part. intros H.
  destruct s as [|c s']; [injection H as _ <-; lia|].
  destruct (c =? 46); [|injection H as _ <-; lia].
  destruct (decimal_digits s' int 0) as [[v n] r] eqn:D.
  apply decimal_digits_length in D. destruct n; [discriminate|].
  injection H as _ <-. simpl. lia.
Qed.

Lemma number_literal_length (s rest : jsstring) (n : number) :
  number_literal s = Parsed n rest -> (length rest <= length s)%nat.
Proof.
  unfold number_literal. intros H.
  destruct (match s with
            | c :: t => if c =? 45 then (true, t) else (false, s)
            | [] => (false, s)
            end) as [neg s1] eqn:E1.
  assert (length s1 <= length s)%nat as L1.
  { destruct s as [|c t]; [injection E1 as _ <-; lia|].
    destruct (c =? 45); injection E1 as _ <-; simpl; lia. }
  destruct s1 as [|c t]; [discriminate|].
  destruct (negb (Crypto.digit c)); [discriminate|].
  destruct (if c =? 48 then (0, t)
            else let '(i, _, r) := decimal_digits (c :: t) 0 0 in (i, r)) as [int s2] eqn:E2.
  assert (length s2 <= length (c :: t))%nat as L2.
  { destruct (c =? 48); [injection E2 as _ <-; simpl; lia|].
    destruct (decimal_digits (c :: t) 0 0) as [[i k] r] eqn:D.
    apply decimal_digits_length in D. injection E2 as _ <-. exact D. }
  destruct (fraction_part s2 int) as [[m count] s3| |] eqn:F; try discriminate.
  apply fraction_part_length in F.
  destruct (exponent_part s3) as [e s4| |] eqn:X; try discriminate.
  apply exponent_part_length in X.
  injection H as _ <-. lia.
Qed.

Lemma literal_length (word : string) (v v' : value) (s rest : jsstring) :
  literal word v s = Parsed v' rest -> (length rest <= length s)%nat.
Proof.
  unfold literal. intros H.
  destruct (string_eqb (firstn (length (js word)) s) (js word)); [|discriminate].
  injection H as _ <-. rewrite length_skipn. lia.
Qed.

Ltac lengths :=
  repeat match goal with
         | H : skip_ws ?a = _ |- _ =>
             let L := fresh "L" in
             pose proof (skip_ws_length a) as L; rewrite H in L; clear H
         | H : string_chars _ _ = Parsed _ _ |- _ => apply string_chars_length in H
         | H : number_literal _ = Parsed _ _ |- _ => apply number_literal_length in H
         | H : literal _ _ _ = Parsed _ _ |- _ => apply literal_length in H
         end.

(** A parsed value leaves no more input than it was given. *)
Lemma parse_consumes (fuel : nat) :
  (forall s v rest, parse_value fuel s = Parsed v rest -> (length rest <= length s)%nat)
  /\ (forall s acc v rest,
        parse_elements fuel s acc = Parsed v rest -> (length rest <= length s)%nat)
  /\ (forall s acc v rest,
        parse_members fuel s acc = Parsed v rest -> (length rest <= length s)%nat).
Proof.
  induction fuel as [|fuel (IHv & IHe & IHm)]; [repeat split; discriminate|].
  split; [|split].
  - intros s v rest H. cbn [parse_value] in H.
    destruct (skip_ws s) as [|c r0] eqn:E; [discriminate|].
    break_in H; try discriminate;
      try (injection H as _ <-);
      try (apply IHm in H); try (apply IHe in H);
      lengths; simpl in *; lia.
  - intros s acc v rest H. cbn [parse_elements] in H.
    destruct (parse_value fuel s) as [v0 r0| |] eqn:V; try discriminate.
    apply IHv in V.
    break_in H; try discriminate;
      try (injection H as _ <-); try (apply IHe in H);
      lengths; simpl in *; lia.
  - intros s acc v rest H. cbn [parse_members] in H.
    destruct (skip_ws s) as [|q s1] eqn:E; [discriminate|].
    destruct (q =? 34); [|discriminate].
    destruct (string_chars s1 []) as [name s2| |] eqn:S; try discriminate.
    destruct (skip_ws s2) as [|colon s3] eqn:E2; [discriminate|].
    destruct (colon =? 58); [|discriminate].
    destruct (parse_value fuel s3) as [v0 r0| |] eqn:V; try discriminate.
    apply IHv in V.
    break_in H; try discriminate;
      try (injection H as _ <-); try (apply IHm in H);
      lengths; simpl in *; lia.
Qed.

(** With fuel for two steps per character the parser never stops for lack
    of fuel. *)
Lemma parse_fuel (fuel : nat) :
  (forall s, (2 * length s + 1 <= fuel)%nat -> parse_value fuel s <> OutOfFuel)
  /\ (forall s acc, (2 * length s + 2 <= fuel)%nat -> parse_elements fuel s acc <> OutOfFuel)
  /\ (forall s acc, (2 * length s + 2 <= fuel)%nat -> parse_members fuel s acc <> OutOfFuel).
Proof.
  induction fuel as [|fuel (IHv & IHe & IHm)]; [repeat split; intros; lia|].
  split; [|split].
  - intros s Hf H. cbn [parse_value] in H.
    destruct (skip_ws s) as [|c r0] eqn:E; [discriminate|].
    break_in H; try discriminate;
      try (unfold literal in H; break_in H; discriminate);
      first [apply IHm in H | apply IHe in H]; auto; lengths; simpl in *; lia.
  - intros s acc Hf H. cbn [parse_elements] in H.
    destruct (parse_value fuel s) as [v0 r0| |] eqn:V; try discriminate.
    + apply (proj1 (parse_consumes fuel)) in V.
      break_in H; try discriminate.
      apply IHe in H; auto. lengths; simpl in *; lia.
    + apply IHv in V; auto. lia.
  - intros s acc Hf H. cbn [parse_members] in H.
    destruct (skip_ws s) as [|q s1] eqn:E; [discriminate|].
    destruct (q =? 34); [|discriminate].
    destruct (string_chars s1 []) as [name s2| |] eqn:S; try discriminate.
    destruct (skip_ws s2) as [|colon s3] eqn:E2; [discriminate|].
    destruct (colon =? 58); [|discriminate].
    destruct (parse_value fuel s3) as [v0 r0| |] eqn:V; try discriminate.
    + apply (proj1 (parse_consumes fuel)) in V.
      break_in H; try discriminate.
      apply IHm in H; auto. lengths; simpl in *; lia.
    + apply IHv in V; auto. lengths; simpl in *; lia.
Qed.

Lemma parse_never_out_of_fuel (text : jsstring) :
  parse_value (2 * length text + 1) text <> OutOfFuel.
Proof. apply parse_fuel. lia. Qed.

Lemma parseImportedVault_cases (raw : jsstring) :
  (exists data, JSON.parse raw = Return data /\ accepted data
                /\ parseImportedVault raw = Return data)
  \/ ((forall data, JSON.parse raw = Return data -> ~ accepted data)
      /\ exists m, parseImportedVault raw = Throw (malformed m)).
Proof.
  unfold parseImportedVault.
  destruct (JSON.parse raw) as [data|e] eqn:P; cbn [bind try_catch].
  2:{ right. split; [discriminate|]. exists e. reflexivity. }
  destruct (get data (js "version")) as [version|e] eqn:V; cbn [bind try_catch].
  2:{ right. split; [|exists e; reflexivity].
      intros d [= <-] (v & i & Hv & _). congruence. }
  destruct (truthy version) eqn:T; cbn [negb bind try_catch].
  2:{ right. split; [|eexists; reflexivity].
      intros d [= <-] (v & i & Hv & Ht & _). congruence. }
  destruct (get data (js "items")) as [items|e] eqn:I; cbn [bind try_catch].
  2:{ right. split; [|exists e; reflexivity].
      intros d [= <-] (v & i & _ & _ & Hi). congruence. }
  destruct items as [[| | | |elements|]|]; cbn [truthy isArray negb orb try_catch];
    try (right; split; [|eexists; reflexivity];
         intros d [= <-] (v & i & _ & _ & Hi); congruence);
    try (destruct (negb _); right; (split; [|eexists; reflexivity]);
         intros d [= <-] (v & i & _ & _ & Hi); congruence).
  left. exists data. split; [reflexivity|]. split; [|reflexivity].
  destruct version as [version|]; [|discriminate].
  exists version, elements. auto.
Qed.

(** C9, as stated, fails: this input parses as JSON with a version tag
    present (the empty string) and an array as items, and is rejected. *)
Lemma C9_empty_version_rejected :
  let raw := quoted "{'version':'','items':[]}" in
  let data := JObject [(js "version", JString []); (js "items", JArray [])] in
  JSON.parse raw = Return data
  /\ get data (js "version") = Return (Some (JString []))
  /\ get data (js "items") = Return (Some (JArray []))
  /\ parseImportedVault raw = Throw (malformed "Invalid vault export format").
Proof. vm_compute. repeat split. Qed.

(** C9 (amended). [parseImportedVault] returns a bundle exactly when the
    input parses as JSON to a value whose [version] is truthy (present and
    not null, false, zero or the empty string) and whose [items] is an
    array; the bundle is then the parsed value itself, version, items and
    count untouched.  On every other input it throws "Failed to parse vault
    file: ..." *)
Theorem C9_import_parser (raw : jsstring) :
  (forall bundle,
      parseImportedVault raw = Return bundle
      <-> JSON.parse raw = Return bundle /\ accepted bundle)
  /\ ((forall data, JSON.parse raw = Return data -> ~ accepted data) ->
      exists m, parseImportedVault raw = Throw (malformed m)).
Proof.
  destruct (parseImportedVault_cases raw) as [(data & P & A & R)|(N & m & R)].
  - split.
    + intros bundle. rewrite R, P. split.
      * intros [= <-]. auto.
      * intros [[= <-] _]. reflexivity.
    + intros H. exfalso. exact (H data P A).
  - split.
    + intros bundle. rewrite R. split; [discriminate|].
      intros [P A]. exfalso. exact (N bundle P A).
    + intros _. exists m. exact R.
Qed.

Lemma C9_import_parser_witness :
  exists m, parseImportedVault (quoted "{'items':[]}") = Throw (malformed m).
Proof.
  apply (proj2 (C9_import_parser (quoted "{'items':[]}"))).
  intros data P (version & items & V & _).
  vm_compute in P. injection P as <-. vm_compute in V. discriminate.
Defined.

End ImportFacts.

(** ** The block cipher is inverted by its inverse cipher *)

Module AESFacts.

Import AES.

Lemma xorb_cancel (a k : bool) : xorb (xorb a k) k = a.
Proof. destruct a, k; reflexivity. Qed.

Lemma xor8_cancel (a k : octet) : xor8 (xor8 a k) k = a.
Proof. destruct a, k. unfold xor8. rewrite !xorb_cancel. reflexivity. Qed.

Lemma xor_column_cancel (a k : column) : xor_column (xor_column a k) k = a.
Proof.
  destruct a as [[[a0 a1] a2] a3], k as [[[k0 k1] k2] k3].
  unfold xor_column. rewrite !xor8_cancel. reflexivity.
Qed.

Lemma xor_block_cancel (a k : block) : xor_block (xor_block a k) k = a.
Proof.
  destruct a as [[[a0 a1] a2] a3], k as [[[k0 k1] k2] k3].
  unfold xor_block. rewrite !xor_column_cancel. reflexivity.
Qed.

Lemma inv_sub_sub (b : octet) : inv_sub (sub b) = b.
Proof.
  destruct b as [[] [] [] [] [] [] [] []]; vm_compute; reflexivity.
Qed.

Lemma inv_sub_bytes_sub_bytes (s : block) : inv_sub_bytes (sub_bytes s) = s.
Proof.
  destruct s as [[[[[[a0 a1] a2] a3] [[[b0 b1] b2] b3]] [[[c0 c1] c2] c3]] [[[d0 d1] d2] d3]].
  unfold inv_sub_bytes, sub_bytes, on_block, on_column.
  rewrite !inv_sub_sub. reflexivity.
Qed.

Lemma inv_shift_rows_shift_rows (s : block) : inv_shift_rows (shift_rows s) = s.
Proof.
  destruct s as [[[[[[a0 a1] a2] a3] [[[b0 b1] b2] b3]] [[[c0 c1] c2] c3]] [[[d0 d1] d2] d3]].
  reflexivity.
Qed.

Lemma inv_mix_column_mix_column (c : column) : inv_mix_column (mix_column c) = c.
Proof.
  destruct c as [[[[a0 a1 a2 a3 a4 a5 a6 a7] [b0 b1 b2 b3 b4 b5 b6 b7]]
                   [c0 c1 c2 c3 c4 c5 c6 c7]] [d0 d1 d2 d3 d4 d5 d6 d7]].
  cbv [inv_mix_column mix_column xor4 mul3 mul9 mul11 mul13 mul14 xtime xor8].
  repeat f_equal; btauto.
Qed.

Lemma inv_mix_columns_mix_columns (s : block) : inv_mix_columns (mix_columns s) = s.
Proof.
  destruct s as [[[c0 c1] c2] c3].
  unfold inv_mix_columns, mix_columns, on_block.
  rewrite !inv_mix_column_mix_column. reflexivity.
Qed.

Lemma inv_round_round (s rk : block) : inv_round (round s rk) rk = s.
Proof.
  unfold inv_round, round.
  rewrite xor_block_cancel, inv_mix_columns_mix_columns,
    inv_shift_rows_shift_rows, inv_sub_bytes_sub_bytes.
  reflexivity.
Qed.

Lemma inv_final_round_final_round (s rk : block) : inv_final_round (final_round s rk) rk = s.
Proof.
  unfold inv_final_round, final_round.
  rewrite xor_block_cancel, inv_shift_rows_shift_rows, inv_sub_bytes_sub_bytes.
  reflexivity.
Qed.

Lemma inv_rounds_rounds (rks : list block) (s : block) : inv_rounds (rounds s rks) rks = s.
Proof.
  revert s. induction rks as [|rk rks IH]; intros s; [reflexivity|].
  destruct rks as [|rk2 rks'].
  - apply inv_final_round_final_round.
  - change (inv_round (inv_rounds (rounds (round s rk) (rk2 :: rks')) (rk2 :: rks')) rk = s).
    rewrite IH. apply inv_round_round.
Qed.

(** Decryption undoes encryption under the same round keys, whatever they
    are. *)
Lemma decrypt_block_encrypt_block (rks : list block) (s : block) :
  decrypt_block rks (encrypt_block rks s) = s.
Proof.
  destruct rks as [|rk0 rks]; [reflexivity|].
  unfold decrypt_block, encrypt_block.
  rewrite inv_rounds_rounds. apply xor_block_cancel.
Qed.

Lemma cbc_decrypt_cbc_encrypt (rks : list block) (iv : block) (ps : list block) :
  cbc_decrypt rks iv (cbc_encrypt rks iv ps) = ps.
Proof.
  revert iv. induction ps as [|p ps IH]; intros iv; [reflexivity|].
  cbn [cbc_encrypt cbc_decrypt].
  rewrite decrypt_block_encrypt_block, xor_block_cancel, IH. reflexivity.
Qed.

Lemma cbc_encrypt_length (rks : list block) (iv : block) (ps : list block) :
  length (cbc_encrypt rks iv ps) = length ps.
Proof.
  revert iv. induction ps as [|p ps IH]; intros iv; [reflexivity|].
  cbn [cbc_encrypt length]. rewrite IH. reflexivity.
Qed.

End AESFacts.

(** ** Octet strings, blocks and padding *)

Module BlockFacts.

Import AES CryptoJS CipherTerms.

Lemma octets_of_block_length (b : block) : length (octets_of_block b) = 16%nat.
Proof.
  destruct b as [[[[[[a0 a1] a2] a3] [[[b0 b1] b2] b3]] [[[c0 c1] c2] c3]] [[[d0 d1] d2] d3]].
  reflexivity.
Qed.

Lemma octets_of_blocks_length (bl : list block) :
  length (octets_of_blocks bl) = (16 * length bl)%nat.
Proof.
  induction bl as [|b bl IH]; [reflexivity|].
  unfold octets_of_blocks in *. cbn [flat_map length].
  rewrite length_app, octets_of_block_length, IH. lia.
Qed.

Lemma blocks_of_cons (fuel : nat) (b : block) (rest : list octet) :
  blocks_of (S fuel) (octets_of_block b ++ rest) = b :: blocks_of fuel rest.
Proof.
  destruct b as [[[[[[a0 a1] a2] a3] [[[b0 b1] b2] b3]] [[[c0 c1] c2] c3]] [[[d0 d1] d2] d3]].
  reflexivity.
Qed.

Lemma blocks_of_octets_of_blocks (bl : list block) (fuel : nat) :
  (length bl <= fuel)%nat -> blocks_of fuel (octets_of_blocks bl) = bl.
Proof.
  revert fuel. induction bl as [|b bl IH]; intros fuel Hf.
  - destruct fuel; reflexivity.
  - destruct fuel as [|fuel]; [simpl in Hf; lia|].
    unfold octets_of_blocks in *. cbn [flat_map].
    rewrite blocks_of_cons, IH by (simpl in Hf; lia). reflexivity.
Qed.

Lemma blocks_of_octets_octets_of_blocks (bl : list block) :
  blocks_of_octets (octets_of_blocks bl) = bl.
Proof.
  unfold blocks_of_octets. apply blocks_of_octets_of_blocks.
  rewrite octets_of_blocks_length. lia.
Qed.

(** An octet string of whole blocks is the octets of its blocks. *)
Lemma octets_of_blocks_blocks_of (n : nat) (bs : list octet) (fuel : nat) :
  length bs = (16 * n)%nat -> (n <= fuel)%nat ->
  octets_of_blocks (blocks_of fuel bs) = bs.
Proof.
  revert bs fuel. induction n as [|n IH]; intros bs fuel Hl Hf.
  - destruct bs; [|discriminate]. destruct fuel; reflexivity.
  - destruct fuel as [|fuel]; [lia|].
    do 16 (destruct bs as [|? bs]; [exfalso; simpl in Hl; lia|]).
    change (octets_of_blocks (blocks_of (S fuel) (?a0 :: ?a1 :: ?a2 :: ?a3 :: ?b0 :: ?b1 :: ?b2
              :: ?b3 :: ?c0 :: ?c1 :: ?c2 :: ?c3 :: ?d0 :: ?d1 :: ?d2 :: ?d3 :: bs)))
      with (a0 :: a1 :: a2 :: a3 :: b0 :: b1 :: b2 :: b3 :: c0 :: c1 :: c2 :: c3
            :: d0 :: d1 :: d2 :: d3 :: octets_of_blocks (blocks_of fuel bs)).
    rewrite IH; [reflexivity| simpl in Hl; lia | lia].
Qed.

Lemma blocks_of_length (n : nat) (bs : list octet) (fuel : nat) :
  length bs = (16 * n)%nat -> (n <= fuel)%nat -> length (blocks_of fuel bs) = n.
Proof.
  intros Hl Hf.
  pose proof (octets_of_blocks_length (blocks_of fuel bs)) as L.
  rewrite (octets_of_blocks_blocks_of n) in L by assumption. lia.
Qed.

(** *** PKCS#7 *)

Lemma padding_length_bounds (data : list octet) :
  (1 <= padding_length data <= 16)%nat.
Proof.
  unfold padding_length.
  pose proof (Nat.mod_upper_bound (length data) 16). lia.
Qed.

Lemma Pkcs7_pad_eq (data : list octet) :
  Pkcs7_pad data
  = data ++ repeat (ascii_of_nat (padding_length data)) (padding_length data).
Proof. reflexivity. Qed.

Lemma Pkcs7_pad_length (data : list octet) :
  length (Pkcs7_pad data) = (16 * (length data / 16 + 1))%nat.
Proof.
  rewrite Pkcs7_pad_eq, length_app, repeat_length. unfold padding_length.
  pose proof (Nat.div_mod_eq (length data) 16).
  pose proof (Nat.mod_upper_bound (length data) 16). lia.
Qed.

Lemma Pkcs7_unpad_pad (data : list octet) :
  Pkcs7_unpad {| words := Pkcs7_pad data;
                 sigBytes := Z.of_nat (length (Pkcs7_pad data)) |}
  = {| words := Pkcs7_pad data; sigBytes := Z.of_nat (length data) |}.
Proof.
  unfold Pkcs7_unpad. cbn [words sigBytes].
  pose proof (Pkcs7_pad_length data) as L.
  pose proof (padding_length_bounds data) as B.
  set (n := (length data / 16 + 1)%nat) in *.
  assert (1 <= n)%nat as Hn by (subst n; lia).
  destruct (Z.leb_spec (Z.of_nat (length (Pkcs7_pad data))) 0) as [H|_]; [lia|].
  assert (Z.to_nat (4 * ((Z.of_nat (length (Pkcs7_pad data)) - 1) / 4) + 3)
          = (length data + (padding_length data - 1))%nat) as ->.
  { assert (length (Pkcs7_pad data) = (length data + padding_length data)%nat) as E.
    { rewrite Pkcs7_pad_eq, length_app, repeat_length. reflexivity. }
    rewrite L in *.
    replace (Z.of_nat (16 * n) - 1)%Z with (3 + (4 * Z.of_nat n - 1) * 4)%Z by lia.
    rewrite Z.div_add by lia. change (3 / 4)%Z with 0%Z. lia. }
  assert (nth (length data + (padding_length data - 1)) (Pkcs7_pad data) zero
          = ascii_of_nat (padding_length data)) as ->.
  { rewrite Pkcs7_pad_eq, app_nth2 by lia.
    replace (length data + (padding_length data - 1) - length data)%nat
      with (padding_length data - 1)%nat by lia.
    apply nth_repeat_lt. lia. }
  rewrite nat_ascii_embedding by lia.
  f_equal.
  assert (length (Pkcs7_pad data) = (length data + padding_length data)%nat) as ->
    by (rewrite Pkcs7_pad_eq, length_app, repeat_length; reflexivity).
  lia.
Qed.

Lemma firstn_Pkcs7_pad (data : list octet) :
  firstn (length data) (Pkcs7_pad data) = data.
Proof.
  rewrite Pkcs7_pad_eq, firstn_app, Nat.sub_diag, firstn_all. cbn [firstn].
  apply app_nil_r.
Qed.

End BlockFacts.

(** ** Base64 reads back what it wrote *)

Module Base64Facts.

Import Base64.

Lemma reverseMap_charAt (x : sextet) : reverseMap (charAt x) = x.
Proof. destruct x as [[[[[[] []] []] []] []] []]; vm_compute; reflexivity. Qed.

Lemma charAt_not_padding (x : sextet) : N.eqb (charAt x) paddingChar = false.
Proof. destruct x as [[[[[[] []] []] []] []] []]; vm_compute; reflexivity. Qed.

Lemma padding_is_padding : N.eqb paddingChar paddingChar = true.
Proof. reflexivity. Qed.

Lemma parse_stringify_bounded (n : nat) (bs : list octet) :
  (length bs <= n)%nat -> parseLoop (before_padding (stringify_octets bs)) = bs.
Proof.
  revert bs. induction n as [|n IH]; intros bs Hn.
  - destruct bs; [reflexivity|simpl in Hn; lia].
  - destruct bs as [|[a0 a1 a2 a3 a4 a5 a6 a7] bs]; [reflexivity|].
    destruct bs as [|[b0 b1 b2 b3 b4 b5 b6 b7] bs].
    { cbn [stringify_octets before_padding].
      rewrite !charAt_not_padding, padding_is_padding.
      cbn [parseLoop]. unfold combine1. rewrite !reverseMap_charAt. reflexivity. }
    destruct bs as [|[c0 c1 c2 c3 c4 c5 c6 c7] bs].
    { cbn [stringify_octets before_padding].
      rewrite !charAt_not_padding, padding_is_padding.
      cbn [parseLoop]. unfold combine1, combine2. rewrite !reverseMap_charAt. reflexivity. }
    cbn [stringify_octets before_padding].
    rewrite !charAt_not_padding.
    cbn [parseLoop]. unfold combine1, combine2, combine3. rewrite !reverseMap_charAt.
    rewrite IH by (simpl in Hn; lia). reflexivity.
Qed.

Lemma parse_stringify (bs : list octet) : parse (stringify bs) = bs.
Proof. apply (parse_stringify_bounded (length bs)). lia. Qed.

End Base64Facts.

(** ** UTF-8 reads back what it wrote *)

Module Utf8Facts.

Import Utf8 CipherTerms.

Ltac Zify.zify_post_hook ::= Z.to_euclidean_division_equations.

Lemma encode_units_paired (s : jsstring) :
  paired s = true <-> exists bs, encode_units s = Some bs.
Proof.
  assert (forall n s, (length s <= n)%nat ->
            (paired s = true <-> exists bs, encode_units s = Some bs)) as K.
  { clear s. induction n as [|n IH]; intros s Hn.
    - destruct s; [|simpl in Hn; lia]. simpl. split; eauto.
    - destruct s as [|u rest]; [simpl; split; eauto|].
      cbn [paired encode_units].
      destruct (is_low_surrogate u); [split; [discriminate|intros [? ?]; discriminate]|].
      destruct (is_high_surrogate u).
      + destruct rest as [|l rest']; [split; [discriminate|intros [? ?]; discriminate]|].
        destruct (is_low_surrogate l); cbn [andb];
          [|split; [discriminate|intros [? ?]; discriminate]].
        rewrite (IH rest') by (simpl in Hn; lia).
        destruct (encode_units rest'); split; eauto; intros [? ?]; discriminate.
      + rewrite (IH rest) by (simpl in Hn; lia).
        destruct (encode_units rest); split; eauto; intros [? ?]; discriminate. }
  apply (K (length s)). lia.
Qed.

Lemma parse_paired (s : jsstring) :
  paired s = true -> exists bs, encode_units s = Some bs /\ parse s = Return (map ascii_of_N bs).
Proof.
  intros H. apply encode_units_paired in H as [bs E].
  exists bs. unfold parse. rewrite E. auto.
Qed.

Lemma parse_unpaired (s : jsstring) :
  paired s = false -> parse s = Throw "URI malformed".
Proof.
  intros H. unfold parse. destruct (encode_units s) as [bs|] eqn:E; [|reflexivity].
  assert (paired s = true) by (apply encode_units_paired; eauto). congruence.
Qed.

Lemma encode_point_octets (v : N) :
  scalar v -> Forall (fun b => b < 256) (encode_point v).
Proof.
  intros [H1 H2]. unfold encode_point.
  repeat match goal with
         | |- context [if ?a <? ?b then _ else _] => destruct (N.ltb_spec a b)
         end; repeat constructor; lia.
Qed.

Lemma decode_encode_point (v : N) (rest : list N) :
  scalar v ->
  decode_octets (encode_point v ++ rest)
  = option_map (app (units_of_point v)) (decode_octets rest).
Proof.
  intros [H1 H2]. unfold encode_point.
  destruct (N.ltb_spec v 0x80) as [L1|L1].
  { cbn [app decode_octets]. destruct (N.ltb_spec v 0x80); [|lia].
    unfold units_of_point. destruct (N.ltb_spec v 0x10000); [|lia]. reflexivity. }
  destruct (N.ltb_spec v 0x800) as [L2|L2].
  { cbn [app decode_octets].
    destruct (N.ltb_spec (0xC0 + v / 64) 0x80); [lia|].
    destruct (N.ltb_spec (0xC0 + v / 64) 0xC0); [lia|].
    destruct (N.ltb_spec (0xC0 + v / 64) 0xE0); [|lia].
    replace ((0xC0 + v / 64 - 0xC0) * 64 + (0x80 + v mod 64 - 0x80)) with v by lia.
    unfold is_continuation.
    destruct (N.leb_spec 0x80 (0x80 + v mod 64)); [|lia].
    destruct (N.ltb_spec (0x80 + v mod 64) 0xC0); [|lia].
    destruct (N.leb_spec 0x80 v); [|lia]. reflexivity. }
  destruct (N.ltb_spec v 0x10000) as [L3|L3].
  { cbn [app decode_octets].
    destruct (N.ltb_spec (0xE0 + v / 4096) 0x80); [lia|].
    destruct (N.ltb_spec (0xE0 + v / 4096) 0xC0); [lia|].
    destruct (N.ltb_spec (0xE0 + v / 4096) 0xE0); [lia|].
    destruct (N.ltb_spec (0xE0 + v / 4096) 0xF0); [|lia].
    replace ((0xE0 + v / 4096 - 0xE0) * 4096 + (0x80 + (v / 64) mod 64 - 0x80) * 64
             + (0x80 + v mod 64 - 0x80)) with v by lia.
    unfold is_continuation, is_surrogate_point.
    destruct (N.leb_spec 0x80 (0x80 + (v / 64) mod 64)); [|lia].
    destruct (N.ltb_spec (0x80 + (v / 64) mod 64) 0xC0); [|lia].
    destruct (N.leb_spec 0x80 (0x80 + v mod 64)); [|lia].
    destruct (N.ltb_spec (0x80 + v mod 64) 0xC0); [|lia].
    destruct (N.leb_spec 0x800 v); [|lia].
    destruct (N.leb_spec 0xD800 v); destruct (N.leb_spec v 0xDFFF);
      try reflexivity; lia. }
  cbn [app decode_octets].
  destruct (N.ltb_spec (0xF0 + v / 262144) 0x80); [lia|].
  destruct (N.ltb_spec (0xF0 + v / 262144) 0xC0); [lia|].
  destruct (N.ltb_spec (0xF0 + v / 262144) 0xE0); [lia|].
  destruct (N.ltb_spec (0xF0 + v / 262144) 0xF0); [lia|].
  destruct (N.ltb_spec (0xF0 + v / 262144) 0xF8); [|lia].
  replace ((0xF0 + v / 262144 - 0xF0) * 262144 + (0x80 + (v / 4096) mod 64 - 0x80) * 4096
           + (0x80 + (v / 64) mod 64 - 0x80) * 64 + (0x80 + v mod 64 - 0x80))
    with v by lia.
  unfold is_continuation.
  destruct (N.leb_spec 0x80 (0x80 + (v / 4096) mod 64)); [|lia].
  destruct (N.ltb_spec (0x80 + (v / 4096) mod 64) 0xC0); [|lia].
  destruct (N.leb_spec 0x80 (0x80 + (v / 64) mod 64)); [|lia].
  destruct (N.ltb_spec (0x80 + (v / 64) mod 64) 0xC0); [|lia].
  destruct (N.leb_spec 0x80 (0x80 + v mod 64)); [|lia].
  destruct (N.ltb_spec (0x80 + v mod 64) 0xC0); [|lia].
  destruct (N.leb_spec 0x10000 v); [|lia].
  destruct (N.leb_spec v 0x10FFFF); [|lia]. reflexivity.
Qed.

Lemma surrogate_cases (u : N) :
  (is_low_surrogate u = true /\ 0xDC00 <= u <= 0xDFFF)
  \/ (is_low_surrogate u = false /\ is_high_surrogate u = true /\ 0xD800 <= u <= 0xDBFF)
  \/ (is_low_surrogate u = false /\ is_high_surrogate u = false
      /\ ~ (0xD800 <= u <= 0xDFFF)).
Proof.
  unfold is_low_surrogate, is_high_surrogate.
  destruct (N.leb_spec 0xDC00 u), (N.leb_spec u 0xDFFF),
    (N.leb_spec 0xD800 u), (N.leb_spec u 0xDBFF); cbn [andb]; lia.
Qed.

Lemma decode_encode_units_bounded (n : nat) (s : jsstring) (bs : list N) :
  (length s <= n)%nat -> code_units s -> encode_units s = Some bs ->
  decode_octets bs = Some s /\ Forall (fun b => b < 256) bs.
Proof.
  revert s bs. induction n as [|n IH]; intros s bs Hn Hu E.
  - destruct s; [|simpl in Hn; lia]. injection E as <-. split; [reflexivity|constructor].
  - destruct s as [|u rest]; [injection E as <-; split; [reflexivity|constructor]|].
    apply Forall_cons_iff in Hu as [Hu0 Hu].
    cbn [encode_units] in E.
    destruct (surrogate_cases u) as [(L & _)|[(L & H & B)|(L & H & B)]];
      rewrite L in E; [discriminate| |]; rewrite H in E.
    + destruct rest as [|l rest']; [discriminate|].
      apply Forall_cons_iff in Hu as [Hl Hu].
      destruct (surrogate_cases l) as [(L' & B')|[(L' & _)|(L' & _)]];
        rewrite L' in E; try discriminate.
      destruct (encode_units rest') as [bs'|] eqn:E'; [|discriminate].
      injection E as <-.
      destruct (IH rest' bs') as [D F]; [simpl in Hn; lia|assumption|assumption|].
      assert (scalar ((u - 0xD800) * 0x400 + (l - 0xDC00) + 0x10000)) as Hs
        by (unfold scalar; lia).
      split.
      * rewrite decode_encode_point, D by assumption. cbn [option_map].
        unfold units_of_point.
        destruct (N.ltb_spec ((u - 0xD800) * 0x400 + (l - 0xDC00) + 0x10000) 0x10000);
          [lia|].
        cbn [app]. do 3 f_equal; lia.
      * apply Forall_app. split; [apply encode_point_octets; assumption|assumption].
    + destruct (encode_units rest) as [bs'|] eqn:E'; [|discriminate].
      injection E as <-.
      destruct (IH rest bs') as [D F]; [simpl in Hn; lia|assumption|assumption|].
      assert (scalar u) as Hs by (unfold scalar; lia).
      split.
      * rewrite decode_encode_point, D by assumption. cbn [option_map].
        unfold units_of_point. destruct (N.ltb_spec u 0x10000); [reflexivity|lia].
      * apply Forall_app. split; [apply encode_point_octets; assumption|assumption].
Qed.

Lemma map_N_of_ascii_of_N (bs : list N) :
  Forall (fun b => b < 256) bs -> map N_of_ascii (map ascii_of_N bs) = bs.
Proof.
  induction 1 as [|b bs Hb _ IH]; [reflexivity|].
  cbn [map]. rewrite IH, N_ascii_embedding by assumption. reflexivity.
Qed.

(** Strings without an unpaired surrogate survive [parse] and [stringify]. *)
Lemma stringify_parse (s : jsstring) :
  code_units s -> paired s = true ->
  exists bytes, parse s = Return bytes /\ stringify bytes = Return s.
Proof.
  intros Hu Hp. destruct (parse_paired s Hp) as (bs & E & P).
  destruct (decode_encode_units_bounded (length s) s bs) as [D F]; auto.
  exists (map ascii_of_N bs). split; [exact P|].
  unfold stringify. rewrite map_N_of_ascii_of_N, D by assumption. reflexivity.
Qed.

End Utf8Facts.

(** ** Decrypting what [encrypt] produced *)

Module RoundTripFacts.

Import AES CryptoJS Crypto CipherTerms.

Lemma whole_words_id (bs : list octet) (n : nat) :
  length bs = (4 * n)%nat -> whole_words bs = bs.
Proof.
  intros H. unfold whole_words. rewrite H.
  replace (4 * n)%nat with (n * 4)%nat by lia.
  rewrite Nat.Div0.mod_mul. cbn [repeat Nat.sub Nat.modulo]. apply app_nil_r.
Qed.

(** The envelope written by [toString] is split again into the same salt
    and ciphertext. *)
Lemma OpenSSL_parse_toString (r : salt64) (ct : list octet) (n : nat) :
  length ct = (16 * n)%nat ->
  OpenSSL_parse (toString {| ciphertext := ct; salt := octets_of_salt r |})
  = (ct, Some (octets_of_salt r), Z.of_nat (length ct)).
Proof.
  intros Hl. unfold OpenSSL_parse, toString. cbn [ciphertext salt].
  rewrite Base64Facts.parse_stringify.
  destruct r as [[[[s0 s1] s2] s3] [[[s4 s5] s6] s7]].
  rewrite (whole_words_id _ (4 + 4 * n)).
  2:{ rewrite !length_app, Hl. cbn. lia. }
  cbn [Salted__ list_ascii_of_string octets_of_salt octets_of_column fst snd app
       firstn skipn length].
  replace (Z.of_nat (S (S (S (S (S (S (S (S (S (S (S (S (S (S (S (S (length ct)))))))))))))))))
           - 16)%Z with (Z.of_nat (length ct)) by lia.
  reflexivity.
Qed.

Lemma toString_not_empty (cp : CipherParams) : falsy_string (toString cp) = false.
Proof.
  unfold toString, Base64.stringify, Salted__.
  cbn [list_ascii_of_string app Base64.stringify_octets falsy_string]. reflexivity.
Qed.

(** [encrypt] followed by [decrypt] under any second key: the result is
    decided by whether the reopened octets are a non-empty well-formed
    UTF-8 string. *)
Lemma decrypt_encrypt (r1 r2 : salt64) (s k1 k2 : jsstring) (data pw1 pw2 : list octet) :
  s <> [] ->
  Utf8.parse s = Return data ->
  Utf8.parse k1 = Return pw1 ->
  Utf8.parse k2 = Return pw2 ->
  exists c,
    encrypt r1 s k1 = Return c
    /\ decrypt r2 c k2
       = match toString_Utf8 (reopened (octets_of_salt r1) data pw1 pw2) with
         | Return (u :: p) => Return (u :: p)
         | _ => Throw decryption_failure
         end.
Proof.
  intros Hs Pd P1 P2.
  unfold encrypt, AES_encrypt.
  destruct s as [|u0 s0]; [congruence|]. cbn [falsy_string].
  rewrite P1, Pd. cbn [bind try_catch].
  eexists. split; [reflexivity|].
  unfold decrypt. rewrite toString_not_empty.
  unfold AES_decrypt.
  set (bl := cbc_encrypt _ _ _).
  rewrite (OpenSSL_parse_toString r1 (octets_of_blocks bl) (length bl))
    by apply BlockFacts.octets_of_blocks_length.
  rewrite P2. cbn [bind].
  rewrite BlockFacts.blocks_of_octets_octets_of_blocks.
  rewrite BlockFacts.octets_of_blocks_length.
  subst bl. rewrite AESFacts.cbc_encrypt_length.
  unfold blocks_of_octets at 2.
  rewrite (BlockFacts.blocks_of_length (length data / 16 + 1))
    by (rewrite ?BlockFacts.Pkcs7_pad_length; lia).
  rewrite <- BlockFacts.Pkcs7_pad_length.
  unfold reopened, derived_keys.
  destruct (toString_Utf8 _) as [[|u p]|e]; reflexivity.
Qed.

Lemma reopened_same_key (salt data pw : list octet) :
  reopened salt data pw pw
  = {| words := Pkcs7_pad data; sigBytes := Z.of_nat (length data) |}.
Proof.
  unfold reopened. destruct (derived_keys pw salt) as [rks iv].
  rewrite AESFacts.cbc_decrypt_cbc_encrypt.
  unfold blocks_of_octets.
  rewrite (BlockFacts.octets_of_blocks_blocks_of (length data / 16 + 1))
    by (rewrite ?BlockFacts.Pkcs7_pad_length; lia).
  apply BlockFacts.Pkcs7_unpad_pad.
Qed.

Lemma encrypt_unpaired (r : salt64) (s k : jsstring) :
  s <> [] -> paired s = false \/ paired k = false ->
  encrypt r s k = Throw encryption_failure.
Proof.
  intros Hs H. unfold encrypt, AES_encrypt.
  destruct s as [|u0 s0]; [congruence|]. cbn [falsy_string].
  destruct H as [H|H].
  - rewrite (Utf8Facts.parse_unpaired _ H). destruct (Utf8.parse k); reflexivity.
  - rewrite (Utf8Facts.parse_unpaired _ H). reflexivity.
Qed.

(** C1, as stated, fails: a string that consists of an unpaired surrogate
    is a non-empty string, and [encrypt] throws on it. *)
Lemma C1_unpaired_surrogate_not_encrypted :
  code_units [0xD800]
  /\ [0xD800] <> []
  /\ encrypt (salt_of_N 0x0001020304050607) [0xD800] (js "correct horse")
     = Throw encryption_failure.
Proof.
  split; [repeat constructor|]. split; [discriminate|]. vm_compute. reflexivity.
Qed.

(** C1 (amended). For every non-empty plaintext [s] and every key [k], both
    without an unpaired surrogate, and whatever salt [encrypt] draws,
    decrypting the result of encrypting [s] under [k] with the same [k]
    returns [s].  When [s] or [k] has an unpaired surrogate, [encrypt]
    throws "Failed to encrypt data". *)
Theorem C1_round_trip (r1 r2 : salt64) (s k : jsstring) :
  s <> [] ->
  code_units s ->
  (paired s = true -> paired k = true ->
     exists c, encrypt r1 s k = Return c /\ decrypt r2 c k = Return s)
  /\ (paired s = false \/ paired k = false ->
      encrypt r1 s k = Throw encryption_failure).
Proof.
  intros Hs Hu. split; [|apply encrypt_unpaired; assumption].
  intros Ps Pk.
  destruct (Utf8Facts.stringify_parse s Hu Ps) as (data & Pd & Sd).
  destruct (Utf8Facts.parse_paired k Pk) as (kb & _ & Pkb).
  destruct (decrypt_encrypt r1 r2 s k k data _ _ Hs Pd Pkb Pkb) as (c & E & D).
  exists c. split; [exact E|]. rewrite D, reopened_same_key.
  unfold toString_Utf8. cbn [words sigBytes].
  rewrite Nat2Z.id, BlockFacts.firstn_Pkcs7_pad, Sd.
  destruct s; [congruence|reflexivity].
Qed.

Lemma C1_round_trip_witness :
  exists c,
    encrypt (salt_of_N 0x0001020304050607) (js "hunter2") (js "correct horse") = Return c
    /\ decrypt (salt_of_N 0) c (js "correct horse") = Return (js "hunter2").
Proof.
  apply (C1_round_trip (salt_of_N 0x0001020304050607) (salt_of_N 0)
           (js "hunter2") (js "correct horse")).
  - discriminate.
  - vm_compute. repeat constructor.
  - reflexivity.
  - reflexivity.
Defined.

(** C2 does not hold of the code.  The ciphertext of "hunter2" under the
    key "correct horse" (with the salt 00 01 ... 07) decrypts under the
    different key "key2" without an error, to the string "2": the cipher
    is not authenticated, the last octet of what AES-CBC leaves under
    "key2" is 0x0f and is taken as the padding length, and the one octet
    that remains, 0x32, is well-formed UTF-8.  [decrypt] means the throw
    to be the sign of a wrong key ("Failed to decrypt data - wrong master
    password?"), and here it does not come. *)
Lemma C2_wrong_key_returns_a_string :
  js "key2" <> js "correct horse"
  /\ encrypt (salt_of_N 0x0001020304050607) (js "hunter2") (js "correct horse")
     = Return (js "U2FsdGVkX18AAQIDBAUGB+8FhEnG4M1m4Wt2vnVO+mE=")
  /\ decrypt (salt_of_N 0) (js "U2FsdGVkX18AAQIDBAUGB+8FhEnG4M1m4Wt2vnVO+mE=") (js "key2")
     = Return (js "2").
Proof.
  split; [discriminate|]. vm_compute. split; reflexivity.
Qed.

End RoundTripFacts.

(** ** The fields of a vault item come back as they went in *)

Module VaultItemCryptoFacts.

Import AES CryptoJS Crypto CipherTerms VaultItemCrypto VaultItemCryptoTerms.

Lemma js_code_units (s : string) : code_units (js s).
Proof.
  unfold code_units, js. apply List.Forall_map, List.Forall_forall.
  intros a _. pose proof (N_ascii_bounded a). lia.
Qed.

(** What one field goes through. *)
Lemma field_round_trip (r1 r2 : salt64) (s k : jsstring) :
  well_formed s -> well_formed k ->
  exists c, encrypt r1 s k = Return c
            /\ decrypt r2 c k = Return s
            /\ (c = [] <-> s = []).
Proof.
  intros [Hu Ps] [_ Pk]. destruct s as [|u0 s0].
  { exists []. repeat split; reflexivity. }
  destruct (Utf8Facts.stringify_parse (u0 :: s0) Hu Ps) as (data & Pd & Sd).
  destruct (Utf8Facts.parse_paired k Pk) as (kb & _ & Pkb).
  destruct (RoundTripFacts.decrypt_encrypt r1 r2 (u0 :: s0) k k data _ _
              ltac:(discriminate) Pd Pkb Pkb) as (c & E & D).
  exists c. split; [exact E|]. split.
  - rewrite D, RoundTripFacts.reopened_same_key.
    unfold toString_Utf8. cbn [words sigBytes].
    rewrite Nat2Z.id, BlockFacts.firstn_Pkcs7_pad, Sd. reflexivity.
  - split; [|discriminate]. intros ->.
    unfold encrypt in E. cbn [falsy_string] in E. unfold AES_encrypt in E.
    rewrite Pkb, Pd in E. cbn [bind try_catch] in E. injection E as E.
    apply (f_equal falsy_string) in E.
    rewrite RoundTripFacts.toString_not_empty in E. discriminate.
Qed.

Lemma optional_round_trip (r1 r2 : salt64) (x : option jsstring) (k : jsstring) :
  well_formed_field x -> well_formed k ->
  exists c, if_truthy (encrypt r1) x k = Return c
            /\ if_truthy (decrypt r2) (Some c) k = Return (or_empty x)
            /\ (c = [] <-> or_empty x = []).
Proof.
  intros Hx Hk. destruct x as [[|u0 s0]|]; try (exists []; repeat split; reflexivity).
  destruct (field_round_trip r1 r2 (u0 :: s0) k Hx Hk) as (c & E & D & Z).
  exists c. cbn [if_truthy or_empty]. split; [exact E|]. split; [|exact Z].
  destruct c as [|c0 c']; [|exact D].
  destruct Z as [Z _]. discriminate (Z eq_refl).
Qed.

(** X10. A vault item whose fields crypto-js can read comes back from
    [decryptVaultItem] as it went into [encryptVaultItem] under the same
    key, whatever salts are drawn: the title as it was, an absent optional
    field as the empty string, identifiers and times untouched.  A
    ciphertext field is empty exactly when its plaintext is empty or
    absent. *)
Theorem vault_item_round_trip (r1 r2 : salts) (item : item_fields) (key : jsstring)
    (id uid created updated : jsstring) :
  well_formed key ->
  well_formed (in_title item) ->
  well_formed_field (in_username item) ->
  well_formed_field (in_password item) ->
  well_formed_field (in_url item) ->
  well_formed_field (in_notes item) ->
  exists c,
    encryptVaultItem r1 item key = Return c
    /\ decryptVaultItem r2 (stored id uid created updated c) key
       = Return {| _id := id; item_userId := uid;
                   item_title := in_title item;
                   item_username := Some (or_empty (in_username item));
                   item_password_of := Some (or_empty (in_password item));
                   item_url := Some (or_empty (in_url item));
                   item_notes := Some (or_empty (in_notes item));
                   item_createdAt := created; item_updatedAt := updated |}
    /\ (out_title c = [] <-> in_title item = [])
    /\ (out_username c = [] <-> or_empty (in_username item) = [])
    /\ (out_password c = [] <-> or_empty (in_password item) = [])
    /\ (out_url c = [] <-> or_empty (in_url item) = [])
    /\ (out_notes c = [] <-> or_empty (in_notes item) = []).
Proof.
  intros Hk Ht Hu Hp Hl Hn.
  destruct (field_round_trip (for_title r1) (for_title r2) _ _ Ht Hk) as (ct & Et & Dt & Zt).
  destruct (optional_round_trip (for_username r1) (for_username r2) _ _ Hu Hk)
    as (cu & Eu & Du & Zu).
  destruct (optional_round_trip (for_password r1) (for_password r2) _ _ Hp Hk)
    as (cp & Ep & Dp & Zp).
  destruct (optional_round_trip (for_url r1) (for_url r2) _ _ Hl Hk) as (cl & El & Dl & Zl).
  destruct (optional_round_trip (for_notes r1) (for_notes r2) _ _ Hn Hk)
    as (cn & En & Dn & Zn).
  eexists. split.
  { unfold encryptVaultItem. rewrite Et, Eu, Ep, El, En. reflexivity. }
  split.
  { unfold decryptVaultItem, stored.
    cbn [_id item_userId item_title item_username item_password_of item_url item_notes
         item_createdAt item_updatedAt out_title out_username out_password out_url out_notes].
    rewrite Dt, Du, Dp, Dl, Dn. reflexivity. }
  cbn [out_title out_username out_password out_url out_notes]. auto.
Qed.

Lemma vault_item_round_trip_witness :
  exists c,
    encryptVaultItem zero_salts login (js "correct horse") = Return c
    /\ decryptVaultItem zero_salts (stored (js "f1") (js "0a") (js "t0") (js "t1") c)
         (js "correct horse")
       = Return {| _id := js "f1"; item_userId := js "0a";
                   item_title := js "Mail";
                   item_username := Some (js "carol");
                   item_password_of := Some (js "hunter2");
                   item_url := Some [];
                   item_notes := Some [];
                   item_createdAt := js "t0"; item_updatedAt := js "t1" |}.
Proof.
  destruct (vault_item_round_trip zero_salts zero_salts login (js "correct horse")
              (js "f1") (js "0a") (js "t0") (js "t1")) as (c & E & D & _).
  - split; [apply js_code_units | reflexivity].
  - split; [apply js_code_units | reflexivity].
  - split; [apply js_code_units | reflexivity].
  - split; [apply js_code_units | reflexivity].
  - exact I.
  - split; [constructor | reflexivity].
  - exists c. split; [exact E | exact D].
Defined.

End VaultItemCryptoFacts.

(** ** The vault routes: what is stored is what is served *)

Module VaultRouteFacts.

Import VaultItemRoute VaultRoute StoreTerms VaultRouteTerms.

Lemma findOne_insert (db : Database) (_id uid : N) (item : VaultItem) :
  userId item = uid ->
  findOne {| users := users db; vaultItems := <[_id := item]> (vaultItems db) |} _id uid
  = Some item.
Proof.
  intros H. unfold findOne. cbn [vaultItems]. rewrite lookup_insert_eq.
  rewrite H, N.eqb_refl. reflexivity.
Qed.

Lemma findOne_delete (db : Database) (_id uid : N) :
  findOne {| users := users db; vaultItems := delete _id (vaultItems db) |} _id uid = None.
Proof. unfold findOne. cbn [vaultItems]. rewrite lookup_delete_eq. reflexivity. Qed.

Lemma falsy_or_empty (x : option jsstring) : falsy x = false -> or_empty x <> [].
Proof. destruct x as [[|c s]|]; simpl; intros H; congruence. Qed.

(** X1. A record created through POST /api/vault is served by GET
    /api/vault/:id to the session that created it. *)
Theorem create_then_get (now new_id : N) (db db' : Database) (session : option Session)
    (body : item_body) (r : response) :
  POST now new_id db session body = (db', r) ->
  status r = 201 ->
  exists u uid item,
    session_user session = Some u
    /\ castObjectId (id u) = Some uid
    /\ vaultItems db !! new_id = None
    /\ item = {| userId := uid;
                 title := or_empty (body_title body);
                 username := or_empty (body_username body);
                 item_password := or_empty (body_password body);
                 url := or_empty (body_url body);
                 notes := or_empty (body_notes body);
                 createdAt := now; updatedAt := now |}
    /\ title item <> []
    /\ r = json [("item", document new_id item)]%string 201
    /\ vaultItems db' = <[new_id := item]> (vaultItems db)
    /\ users db' = users db
    /\ forall rid, castObjectId rid = Some new_id ->
         VaultItemRoute.GET db' session rid = json [("item", document new_id item)]%string 200.
Proof.
  unfold POST. intros H Hs.
  destruct (session_user session) as [u|] eqn:Hu; [|injection H as <- <-; discriminate].
  destruct (falsy (body_title body)) eqn:Ht; [injection H as <- <-; discriminate|].
  destruct (castObjectId (id u)) as [uid|] eqn:Hc; [|injection H as <- <-; discriminate].
  destruct (vaultItems db !! new_id) eqn:Hn; [injection H as <- <-; discriminate|].
  injection H as <- <-.
  exists u, uid. eexists. repeat (split; [first [eassumption|reflexivity]|]).
  split; [cbn; apply falsy_or_empty; exact Ht|].
  repeat (split; [reflexivity|]).
  intros rid Hr. unfold VaultItemRoute.GET. rewrite Hu, Hr, Hc.
  rewrite findOne_insert by reflexivity. reflexivity.
Qed.

Lemma create_then_get_witness :
  VaultItemRoute.GET db_created (session_of owner_a []) (js "0000000000000000000000f2")
  = json [("item", document 242 created_record)]%string 200.
Proof.
  destruct (create_then_get 1700000000500 242 db_b db_created (session_of owner_a [])
              titled (json [("item", document 242 created_record)]%string 201))
    as (u & uid & item & Hu & Hc & _ & Hi & _ & Hr & _ & _ & G).
  - vm_compute. reflexivity.
  - reflexivity.
  - injection Hr as <-. apply G. vm_compute. reflexivity.
Defined.

Lemma newer_total : Total newer.
Proof. intros a b. unfold newer. lia. Qed.

Lemma newer_trans : Transitive newer.
Proof. intros a b c. unfold newer. lia. Qed.

Lemma find_spec (db : Database) (uid k : N) (item : VaultItem) :
  (k, item) ∈ find db uid <-> vaultItems db !! k = Some item /\ userId item = uid.
Proof.
  unfold find. rewrite list_elem_of_filter, elem_of_map_to_list. cbn. tauto.
Qed.

(** X2. The listing holds the records of the session's owner, all of them,
    each once, and no record of anybody else; a record comes before the
    ones created earlier. *)
Theorem list_owner_records (db : Database) (sid email : jsstring) (uid : N) :
  castObjectId sid = Some uid ->
  exists docs,
    GET db (session_of sid email) = {| list_body_of := items docs; list_status := 200 |}
    /\ (forall k item,
          (k, item) ∈ docs <-> vaultItems db !! k = Some item /\ userId item = uid)
    /\ NoDup docs
    /\ StronglySorted newer docs.
Proof.
  intros Hc. unfold GET, session_of. cbn [session_user user id]. rewrite Hc.
  eexists. split; [reflexivity|]. split; [|split].
  - intros k item. rewrite merge_sort_Permutation. apply find_spec.
  - rewrite merge_sort_Permutation. unfold find.
    apply NoDup_filter, NoDup_map_to_list.
  - apply (@StronglySorted_merge_sort _ newer _ newer_trans newer_total).
Qed.

Lemma list_owner_records_witness :
  exists docs,
    GET db_created (session_of owner_a [])
    = {| list_body_of := items docs; list_status := 200 |}
    /\ (forall k item,
          (k, item) ∈ docs <-> vaultItems db_created !! k = Some item /\ userId item = 10)
    /\ NoDup docs
    /\ StronglySorted newer docs.
Proof. apply (list_owner_records db_created owner_a [] 10). vm_compute. reflexivity. Defined.

(** X3. After a record is created, the listing of its owner holds it beside
    what it held before, and the listing of every other owner holds what it
    held before. *)
Theorem create_then_list (now new_id : N) (db db' : Database) (session : option Session)
    (body : item_body) (r : response) (sid email : jsstring) (docs docs' : list (N * VaultItem)) :
  POST now new_id db session body = (db', r) ->
  status r = 201 ->
  GET db (session_of sid email) = {| list_body_of := items docs; list_status := 200 |} ->
  GET db' (session_of sid email) = {| list_body_of := items docs'; list_status := 200 |} ->
  forall k item,
    (k, item) ∈ docs'
    <-> (k, item) ∈ docs
        \/ (k = new_id /\ vaultItems db' !! new_id = Some item
            /\ castObjectId sid = Some (userId item)).
Proof.
  intros HP Hs HG HG'.
  assert (exists it, vaultItems db !! new_id = None
                     /\ vaultItems db' = <[new_id := it]> (vaultItems db)) as (it & Hn & Hv).
  { unfold POST in HP.
    destruct (session_user session) as [u|]; [|injection HP as <- <-; discriminate].
    destruct (falsy (body_title body)); [injection HP as <- <-; discriminate|].
    destruct (castObjectId (id u)) as [uid|]; [|injection HP as <- <-; discriminate].
    destruct (vaultItems db !! new_id) eqn:Hn; [injection HP as <- <-; discriminate|].
    injection HP as <- <-. eexists. split; reflexivity. }
  unfold GET, session_of in HG, HG'. cbn [session_user user id] in HG, HG'.
  destruct (castObjectId sid) as [uid2|] eqn:Hc2; [|discriminate].
  injection HG as <-. injection HG' as <-.
  intros k item. rewrite !merge_sort_Permutation, !find_spec, Hv.
  destruct (decide (k = new_id)) as [->|Hk].
  - rewrite lookup_insert_eq, Hn. split.
    + intros [[= <-] <-]. right. auto.
    + intros [[H _]|(_ & [= <-] & [= <-])]; [discriminate|auto].
  - rewrite lookup_insert_ne by congruence. split; [auto|].
    intros [H|(H & _)]; [exact H|contradiction].
Qed.

Lemma create_then_list_witness :
  (241, record_of_b) ∈ merge_sort newer (find db_created 11)
  <-> (241, record_of_b) ∈ merge_sort newer (find db_b 11)
      \/ (241 = 242 /\ vaultItems db_created !! 242 = Some record_of_b
          /\ castObjectId owner_b = Some (userId record_of_b)).
Proof.
  apply (create_then_list 1700000000500 242 db_b db_created (session_of owner_a [])
           titled (json [("item", document 242 created_record)]%string 201) owner_b []
           (merge_sort newer (find db_b 11)) (merge_sort newer (find db_created 11))).
  - vm_compute. reflexivity.
  - reflexivity.
  - reflexivity.
  - reflexivity.
Defined.

(** X4. A successful update is served back by GET: the record keeps its
    owner and its creation time, takes the five fields of the body (an
    absent or empty optional field is stored empty) and the time of the
    update; every other record and every user is left as it was. *)
Theorem update_then_get (now : N) (db db' : Database) (session : option Session)
    (rid : jsstring) (body : item_body) (r : response) :
  VaultItemRoute.PUT now db session rid body = (db', r) ->
  status r = 200 ->
  exists _id old item,
    castObjectId rid = Some _id
    /\ vaultItems db !! _id = Some old
    /\ item = {| userId := userId old;
                 title := or_empty (body_title body);
                 username := or_empty (body_username body);
                 item_password := or_empty (body_password body);
                 url := or_empty (body_url body);
                 notes := or_empty (body_notes body);
                 createdAt := createdAt old; updatedAt := now |}
    /\ title item <> []
    /\ r = json [("item", document _id item)]%string 200
    /\ VaultItemRoute.GET db' session rid = json [("item", document _id item)]%string 200
    /\ vaultItems db' !! _id = Some item
    /\ (forall k, k <> _id -> vaultItems db' !! k = vaultItems db !! k)
    /\ users db' = users db.
Proof.
  unfold VaultItemRoute.PUT. intros H Hs.
  destruct (session_user session) as [u|] eqn:Hu; [|injection H as <- <-; discriminate].
  destruct (falsy (body_title body)) eqn:Ht; [injection H as <- <-; discriminate|].
  destruct (castObjectId rid) as [_id|] eqn:Hr; [|injection H as <- <-; discriminate].
  destruct (castObjectId (id u)) as [uid|] eqn:Hc; [|injection H as <- <-; discriminate].
  destruct (findOne db _id uid) as [old|] eqn:Hf; [|injection H as <- <-; discriminate].
  injection H as <- <-.
  apply RecordStoreFacts.findOne_Some in Hf as [Hl Ho].
  exists _id, old. eexists. split; [reflexivity|]. split; [exact Hl|].
  split; [reflexivity|]. split; [cbn; apply falsy_or_empty; exact Ht|].
  split; [reflexivity|]. split; [|split; [|split]].
  - unfold VaultItemRoute.GET. rewrite Hu, Hr, Hc.
    rewrite findOne_insert by exact Ho. reflexivity.
  - cbn. apply lookup_insert_eq.
  - intros k Hk. cbn. apply lookup_insert_ne. congruence.
  - reflexivity.
Qed.

Lemma update_then_get_witness :
  VaultItemRoute.GET db_updated (session_of owner_b []) record_id
  = json [("item", document 241 updated_record)]%string 200.
Proof.
  destruct (update_then_get 1700000000700 db_b db_updated (session_of owner_b [])
              record_id titled (json [("item", document 241 updated_record)]%string 200))
    as (_id & old & item & _ & _ & _ & _ & Hr & G & _).
  - vm_compute. reflexivity.
  - reflexivity.
  - injection Hr as <- <-. exact G.
Defined.

(** X5. After a successful DELETE the record is gone: GET and a second
    DELETE answer 404; every other record and every user is left as it
    was. *)
Theorem delete_then_get (db db' : Database) (session : option Session)
    (rid : jsstring) (r : response) :
  VaultItemRoute.DELETE db session rid = (db', r) ->
  status r = 200 ->
  exists _id,
    castObjectId rid = Some _id
    /\ vaultItems db' !! _id = None
    /\ VaultItemRoute.GET db' session rid = not_found
    /\ VaultItemRoute.DELETE db' session rid = (db', not_found)
    /\ (forall k, k <> _id -> vaultItems db' !! k = vaultItems db !! k)
    /\ users db' = users db.
Proof.
  unfold VaultItemRoute.DELETE at 1. intros H Hs.
  destruct (session_user session) as [u|] eqn:Hu; [|injection H as <- <-; discriminate].
  destruct (castObjectId rid) as [_id|] eqn:Hr; [|injection H as <- <-; discriminate].
  destruct (castObjectId (id u)) as [uid|] eqn:Hc; [|injection H as <- <-; discriminate].
  destruct (findOne db _id uid) as [old|] eqn:Hf; [|injection H as <- <-; discriminate].
  injection H as <- <-.
  exists _id. split; [reflexivity|]. split; [cbn; apply lookup_delete_eq|].
  split; [|split; [|split]].
  - unfold VaultItemRoute.GET. rewrite Hu, Hr, Hc, findOne_delete. reflexivity.
  - unfold VaultItemRoute.DELETE. rewrite Hu, Hr, Hc, findOne_delete. reflexivity.
  - intros k Hk. cbn. apply lookup_delete_ne. congruence.
  - reflexivity.
Qed.

Lemma delete_then_get_witness :
  exists _id,
    castObjectId record_id = Some _id
    /\ vaultItems db_deleted !! _id = None
    /\ VaultItemRoute.GET db_deleted (session_of owner_b []) record_id = not_found
    /\ VaultItemRoute.DELETE db_deleted (session_of owner_b []) record_id
       = (db_deleted, not_found)
    /\ (forall k, k <> _id -> vaultItems db_deleted !! k = vaultItems db_b !! k)
    /\ users db_deleted = users db_b.
Proof.
  apply (delete_then_get db_b db_deleted (session_of owner_b []) record_id
           (json [("message", text "Vault item deleted successfully")]%string 200)).
  - vm_compute. reflexivity.
  - reflexivity.
Defined.

(** X6. A vault request that is not answered with success changes nothing:
    whenever the create is not answered 201, or the update or the delete
    not 200, the database is the one before the request.  Requests without
    a session are among them: they are answered 401. *)
Theorem vault_requests_fail_clean (now new_id : N) (db : Database)
    (session : option Session) (rid : jsstring) (body : item_body) :
  (status (snd (POST now new_id db session body)) <> 201 ->
     fst (POST now new_id db session body) = db)
  /\ (status (snd (VaultItemRoute.PUT now db session rid body)) <> 200 ->
        fst (VaultItemRoute.PUT now db session rid body) = db)
  /\ (status (snd (VaultItemRoute.DELETE db session rid)) <> 200 ->
        fst (VaultItemRoute.DELETE db session rid) = db)
  /\ (session_user session = None ->
        status (snd (POST now new_id db session body)) = 401
        /\ status (snd (VaultItemRoute.PUT now db session rid body)) = 401
        /\ status (snd (VaultItemRoute.DELETE db session rid)) = 401
        /\ status (VaultItemRoute.GET db session rid) = 401
        /\ list_status (GET db session) = 401).
Proof.
  unfold POST, VaultItemRoute.PUT, VaultItemRoute.DELETE, VaultItemRoute.GET, GET.
  destruct (session_user session) as [u|].
  2:{ repeat split; intros; reflexivity. }
  split; [|split; [|split]].
  - destruct (falsy (body_title body)); [reflexivity|].
    destruct (castObjectId (id u)); [|reflexivity].
    destruct (vaultItems db !! new_id); [reflexivity|].
    cbn. congruence.
  - destruct (falsy (body_title body)); [reflexivity|].
    destruct (castObjectId rid); [|reflexivity].
    destruct (castObjectId (id u)); [|reflexivity].
    destruct (findOne db _ _); [|reflexivity].
    cbn. congruence.
  - destruct (castObjectId rid); [|reflexivity].
    destruct (castObjectId (id u)); [|reflexivity].
    destruct (findOne db _ _); [|reflexivity].
    cbn. congruence.
  - discriminate.
Qed.

End VaultRouteFacts.

(** ** The master-password route: states and transitions *)

Module VerifierRouteFacts.

Import MasterPasswordRoute BcryptTerms VerifierTerms VerifierRouteTerms.

Lemma unmodified_eq (old : option Bcrypt.digest) (hash : Bcrypt.digest) :
  unmodified old hash = true -> old = Some hash.
Proof.
  destruct old as [[r0 s0 k0]|]; [|discriminate]. destruct hash as [r1 s1 k1].
  unfold unmodified. cbn [Bcrypt.rounds Bcrypt.salt Bcrypt.key]. intros H.
  apply andb_true_iff in H as [H Hk]. apply andb_true_iff in H as [Hr Hs].
  apply N.eqb_eq in Hr, Hs. apply VerifierFacts.string_eqb_eq in Hk. congruence.
Qed.

(** A successful set leaves the owner's document with the hash of the
    secret, and that document passes the schema, as the one it replaced
    did. *)
Lemma set_saved (now salt : N) (db db1 : Database) (session : option Session)
    (s : jsstring) (r : response) :
  setVerifier now salt db session s = (db1, r) -> status r = 200 ->
  exists u uid user,
    session_user session = Some u
    /\ castObjectId (id u) = Some uid
    /\ users db1 !! uid = Some user
    /\ masterPasswordHash user = Some (Bcrypt.hash salt s 10)
    /\ UserSchema.validate user = true.
Proof.
  unfold setVerifier, POST, findById. intros H Hs.
  destruct (session_user session) as [u|]; [|injection H as <- <-; discriminate].
  destruct (falsy_string s); [injection H as <- <-; discriminate|].
  destruct (castObjectId (id u)) as [uid|] eqn:Hc; [|injection H as <- <-; discriminate].
  destruct (users db !! uid) as [user|] eqn:Hl; [|injection H as <- <-; discriminate].
  change (string_eqb (js "set") (js "set")) with true in H. cbv iota in H.
  destruct (masterPasswordHash user) eqn:Hh; [injection H as <- <-; discriminate|].
  unfold save in H. rewrite Hh in H. cbn [unmodified] in H.
  destruct (UserSchema.validate user) eqn:Hval; cbn [negb] in H;
    [|injection H as <- <-; discriminate].
  injection H as <- <-. exists u, uid. eexists.
  split; [reflexivity|]. split; [exact Hc|].
  split; [cbn [users]; apply lookup_insert_eq|]. split; [reflexivity|exact Hval].
Qed.

(** Saving a hash into a stored document that passes the schema succeeds,
    and the document then holds that hash. *)
Lemma save_valid (now : N) (db : Database) (uid : N) (user : User) (hash : Bcrypt.digest) :
  users db !! uid = Some user -> UserSchema.validate user = true ->
  exists db' user',
    save now db uid user hash = Some db'
    /\ users db' !! uid = Some user'
    /\ masterPasswordHash user' = Some hash.
Proof.
  intros Hl Hval. unfold save. rewrite Hval. cbn [negb].
  destruct (unmodified (masterPasswordHash user) hash) eqn:E.
  - exists db, user. split; [reflexivity|]. split; [exact Hl|].
    apply unmodified_eq. exact E.
  - eexists. eexists. split; [reflexivity|].
    split; [cbn [users]; apply lookup_insert_eq|reflexivity].
Qed.

(** X7. What GET reports decides what the other requests can do.  When it
    reports a master password, setting one is refused.  When it reports
    none, verifying and re-keying are refused; setting one succeeds, after
    which GET reports it, when the owner's stored document passes the
    validators of the User schema, and otherwise is answered 500 "Failed
    to process master password" and changes nothing. *)
Theorem GET_reports_verifier (db : Database) (session : option Session) (b : bool) :
  GET db session = has_master_password b ->
  exists u uid user,
    session_user session = Some u
    /\ castObjectId (id u) = Some uid
    /\ users db !! uid = Some user
    /\ (b = true ->
          forall now salt s, s <> [] ->
            setVerifier now salt db session s = (db, already_set))
    /\ (b = false ->
          forall now salt s s', s <> [] -> s' <> [] ->
            verify db session s = (db, not_set_yet)
            /\ rekey now salt db session s s' = (db, none_set)
            /\ (UserSchema.validate user = true ->
                  snd (setVerifier now salt db session s) = set_ok
                  /\ GET (fst (setVerifier now salt db session s)) session
                     = has_master_password true)
            /\ (UserSchema.validate user = false ->
                  setVerifier now salt db session s = (db, failed_to_process))).
Proof.
  unfold GET, findById. intros H.
  destruct (session_user session) as [u|] eqn:Hu; [|discriminate].
  destruct (castObjectId (id u)) as [uid|] eqn:Hc; [|discriminate].
  destruct (users db !! uid) as [user|] eqn:Hl; [|discriminate].
  exists u, uid, user. split; [reflexivity|]. split; [exact Hc|]. split; [exact Hl|].
  unfold GET, setVerifier, verify, rekey, POST, PUT, findById. rewrite Hu, Hc, Hl.
  change (string_eqb (js "set") (js "set")) with true.
  change (string_eqb (js "verify") (js "set")) with false.
  change (string_eqb (js "verify") (js "verify")) with true. cbv iota.
  destruct (masterPasswordHash user) as [h|] eqn:Hh; injection H as <-.
  - split; [|discriminate]. intros _ now salt [|c s] Hs; [congruence|reflexivity].
  - split; [discriminate|]. intros _ now salt [|c s] [|c' s'] Hs Hs'; try congruence.
    cbn [falsy_string orb]. unfold save. rewrite Hh. cbn [unmodified].
    split; [reflexivity|]. split; [reflexivity|]. split.
    + intros ->. cbn [negb fst snd users]. rewrite lookup_insert_eq.
      split; reflexivity.
    + intros ->. reflexivity.
Qed.

Lemma GET_reports_verifier_witness :
  setVerifier 1700000003000 44 carol_db_plain carol_session carol_new_secret
  = (carol_db_plain, already_set)
  /\ verify carol_db carol_session carol_secret = (carol_db, not_set_yet)
  /\ rekey 1700000002000 43 carol_db carol_session carol_secret carol_new_secret
     = (carol_db, none_set)
  /\ snd (setVerifier 1700000001000 42 carol_db carol_session carol_secret) = set_ok
  /\ GET carol_db_plain carol_session = has_master_password true
  /\ GET erin_db erin_session = has_master_password false
  /\ setVerifier 1700000001000 42 erin_db erin_session carol_secret
     = (erin_db, failed_to_process).
Proof.
  destruct (GET_reports_verifier carol_db_plain carol_session true eq_refl)
    as (_ & _ & _ & _ & _ & _ & T & _).
  destruct (GET_reports_verifier carol_db carol_session false eq_refl)
    as (u & uid & user & Hu & Hc & Hl & _ & F).
  destruct (GET_reports_verifier erin_db erin_session false eq_refl)
    as (u' & uid' & user' & Hu' & Hc' & Hl' & _ & F').
  injection Hu as <-. injection Hu' as <-.
  vm_compute in Hc. injection Hc as <-. vm_compute in Hc'. injection Hc' as <-.
  vm_compute in Hl. injection Hl as <-. vm_compute in Hl'. injection Hl' as <-.
  destruct (F eq_refl 1700000002000 43 carol_secret carol_new_secret)
    as (V & R & S & _); [discriminate|discriminate|].
  destruct (F eq_refl 1700000001000 42 carol_secret carol_new_secret)
    as (_ & _ & S1 & _); [discriminate|discriminate|].
  destruct (F' eq_refl 1700000001000 42 carol_secret carol_new_secret)
    as (_ & _ & _ & E); [discriminate|discriminate|].
  split; [apply T; [reflexivity|discriminate]|].
  split; [exact V|]. split; [exact R|].
  split; [apply S1; vm_compute; reflexivity|].
  split; [apply S1; vm_compute; reflexivity|].
  split; [reflexivity|]. apply E. vm_compute. reflexivity.
Defined.

(** X8. A re-key that presents the secret the verifier was set from
    succeeds for every non-empty new secret.  Afterwards the new secret
    verifies, GET still reports a master password, and the old secret no
    longer verifies when it differs from the new one and bcrypt reads both
    in full. *)
Theorem rekey_replaces_verifier (now salt now2 salt2 : N) (db db1 : Database)
    (session : option Session) (s newSecret : jsstring) (r : response) :
  setVerifier now salt db session s = (db1, r) ->
  status r = 200 ->
  newSecret <> [] ->
  exists db2,
    rekey now2 salt2 db1 session s newSecret = (db2, changed)
    /\ verify db2 session newSecret = (db2, verified true)
    /\ GET db2 session = has_master_password true
    /\ (read_in_full s -> read_in_full newSecret -> newSecret <> s ->
          verify db2 session s = (db2, verified false))
    /\ has_verifier db2 session newSecret.
Proof.
  intros Hset Hok Hnew.
  destruct (VerifierFacts.setVerifier_ok _ _ _ _ _ _ _ Hset Hok) as (Hs & _ & _).
  destruct (set_saved _ _ _ _ _ _ _ Hset Hok) as (u & uid & user & Hu & Hc & Hl & Hh & Hval).
  destruct (save_valid now2 db1 uid user (Bcrypt.hash salt2 newSecret 10) Hl Hval)
    as (db2 & user2 & Hsave & Hl2 & Hh2).
  assert (has_verifier db2 session newSecret) as Hv2.
  { exists u, uid, user2, salt2.
    split; [exact Hu|]. split; [exact Hc|]. split; [exact Hl2|exact Hh2]. }
  exists db2. split.
  { unfold rekey, PUT, findById. rewrite Hu.
    destruct s; [congruence|]. destruct newSecret; [congruence|].
    cbn [falsy_string orb]. rewrite Hc, Hl, Hh, VerifierFacts.compare_same.
    cbn [negb]. rewrite Hsave. reflexivity. }
  split; [|split; [|split]].
  - rewrite (VerifierFacts.verify_answer _ session newSecret Hv2).
    destruct newSecret; [congruence|]. cbn [falsy_string].
    rewrite VerifierFacts.string_eqb_refl. reflexivity.
  - unfold GET, findById. rewrite Hu, Hc, Hl2, Hh2. reflexivity.
  - intros Rs Rn D. rewrite (VerifierFacts.verify_answer _ session newSecret Hv2).
    destruct s as [|c s']; [congruence|]. cbn [falsy_string].
    destruct (string_eqb (Bcrypt.key_stream (c :: s')) (Bcrypt.key_stream newSecret)) eqn:E;
      [|reflexivity].
    apply VerifierFacts.string_eqb_eq in E.
    apply BcryptFacts.key_stream_inj in E; [congruence|assumption|assumption].
  - exact Hv2.
Qed.

Lemma rekey_replaces_verifier_witness :
  exists db2,
    rekey 1700000002000 43 carol_db_plain carol_session carol_secret carol_new_secret
    = (db2, changed)
    /\ verify db2 carol_session carol_new_secret = (db2, verified true)
    /\ GET db2 carol_session = has_master_password true
    /\ (read_in_full carol_secret -> read_in_full carol_new_secret ->
        carol_new_secret <> carol_secret ->
          verify db2 carol_session carol_secret = (db2, verified false))
    /\ has_verifier db2 carol_session carol_new_secret.
Proof.
  apply (rekey_replaces_verifier 1700000001000 42 1700000002000 43
           carol_db carol_db_plain carol_session carol_secret carol_new_secret set_ok).
  - vm_compute. reflexivity.
  - reflexivity.
  - discriminate.
Defined.

(** X9. A master-password request that is not answered 200 changes
    nothing, and neither does a verification, whatever its answer.  No
    request touches the vault records, the document of another user, or the
    owner's email and login password. *)
Theorem master_password_requests_frame (now salt : N) (db : Database)
    (session : option Session) (s action : jsstring) :
  (status (snd (POST now salt db session s action)) <> 200 ->
     fst (POST now salt db session s action) = db)
  /\ fst (verify db session s) = db
  /\ (string_eqb action (js "set") = false -> fst (POST now salt db session s action) = db)
  /\ vaultItems (fst (POST now salt db session s action)) = vaultItems db
  /\ (forall uid,
        users (fst (POST now salt db session s action)) !! uid <> users db !! uid ->
        exists u user,
          session_user session = Some u
          /\ castObjectId (id u) = Some uid
          /\ users db !! uid = Some user
          /\ masterPasswordHash user = None
          /\ users (fst (POST now salt db session s action)) !! uid
             = Some {| email := email user; password := password user;
                       masterPasswordHash := Some (Bcrypt.hash salt s 10);
                       user_createdAt := user_createdAt user;
                       user_updatedAt := now |}).
Proof.
  unfold verify, POST, findById.
  destruct (session_user session) as [u|]; [|cbn; repeat split; congruence].
  destruct (falsy_string s); [cbn; repeat split; congruence|].
  destruct (castObjectId (id u)) as [uid0|] eqn:Hc; [|cbn; repeat split; congruence].
  destruct (users db !! uid0) as [user|] eqn:Hl; [|cbn; repeat split; congruence].
  change (string_eqb (js "verify") (js "set")) with false.
  change (string_eqb (js "verify") (js "verify")) with true. cbv iota.
  destruct (string_eqb action (js "set")) eqn:A.
  - destruct (masterPasswordHash user) as [h|] eqn:Hh; [cbn; repeat split; congruence|].
    unfold save. rewrite Hh. cbn [unmodified].
    destruct (negb (UserSchema.validate user)); [cbn; repeat split; congruence|].
    cbn [fst snd users vaultItems status json].
    split; [congruence|]. split; [reflexivity|]. split; [discriminate|].
    split; [reflexivity|].
    intros uid Hne. destruct (decide (uid0 = uid)) as [->|Hd].
    + exists u, user. rewrite lookup_insert_eq. auto.
    + rewrite lookup_insert_ne in Hne by assumption. congruence.
  - destruct (masterPasswordHash user), (string_eqb action (js "verify"));
      cbn; repeat split; congruence.
Qed.

End VerifierRouteFacts.

(** ** The shape of a ciphertext *)

Module CiphertextFacts.

Import AES CryptoJS Crypto CipherTerms.

Lemma stringify_octets_length_bounded (n : nat) (bs : list octet) :
  (length bs <= n)%nat ->
  length (Base64.stringify_octets bs) = (4 * ((length bs + 2) / 3))%nat.
Proof.
  revert bs. induction n as [|n IH]; intros bs Hn.
  - destruct bs; [reflexivity|simpl in Hn; lia].
  - destruct bs as [|[a0 a1 a2 a3 a4 a5 a6 a7] bs]; [reflexivity|].
    destruct bs as [|[b0 b1 b2 b3 b4 b5 b6 b7] bs]; [reflexivity|].
    destruct bs as [|[c0 c1 c2 c3 c4 c5 c6 c7] bs]; [reflexivity|].
    cbn [Base64.stringify_octets length].
    rewrite IH by (simpl in Hn; lia).
    replace (S (S (S (length bs))) + 2)%nat with (1 * 3 + (length bs + 2))%nat by lia.
    rewrite Nat.div_add_l by lia. lia.
Qed.

Lemma charAt_in_map (x : Base64.sextet) : In (Base64.charAt x) Base64._map.
Proof.
  destruct x as [[[[[[] []] []] []] []] []]; vm_compute; tauto.
Qed.

Lemma stringify_octets_alphabet_bounded (n : nat) (bs : list octet) :
  (length bs <= n)%nat ->
  Forall (fun c => In c Base64._map) (Base64.stringify_octets bs).
Proof.
  assert (In Base64.paddingChar Base64._map) as P by (vm_compute; tauto).
  revert bs. induction n as [|n IH]; intros bs Hn.
  - destruct bs; [constructor|simpl in Hn; lia].
  - destruct bs as [|[a0 a1 a2 a3 a4 a5 a6 a7] bs]; [constructor|].
    destruct bs as [|[b0 b1 b2 b3 b4 b5 b6 b7] bs];
      [repeat (constructor; [first [apply charAt_in_map|exact P]|]); constructor|].
    destruct bs as [|[c0 c1 c2 c3 c4 c5 c6 c7] bs];
      [repeat (constructor; [first [apply charAt_in_map|exact P]|]); constructor|].
    cbn [Base64.stringify_octets].
    repeat (constructor; [apply charAt_in_map|]).
    apply IH. simpl in Hn. lia.
Qed.

(** X11. The ciphertext that [encrypt] returns for a non-empty plaintext is
    text in the Base64 alphabet that begins with "U2FsdGVkX1" (the marker
    "Salted__"); its length is that of the marker, the salt and the whole
    16-octet blocks that hold the UTF-8 form of the plaintext and its
    padding, so it shows the length of the plaintext up to 16 octets. *)
Theorem ciphertext_shape (r : salt64) (s k c : jsstring) :
  s <> [] ->
  encrypt r s k = Return c ->
  exists data,
    Utf8.parse s = Return data
    /\ length c = (4 * ((32 + 16 * (length data / 16) + 2) / 3))%nat
    /\ firstn 10 c = js "U2FsdGVkX1"
    /\ Forall (fun ch => In ch Base64._map) c.
Proof.
  intros Hs E. unfold encrypt in E. destruct s as [|u0 s0]; [congruence|].
  cbn [falsy_string] in E. unfold AES_encrypt in E.
  destruct (Utf8.parse k) as [pw|e]; [|discriminate].
  destruct (Utf8.parse (u0 :: s0)) as [data|e]; [|discriminate].
  cbn [bind try_catch] in E. injection E as <-.
  exists data. split; [reflexivity|].
  unfold toString, Base64.stringify. cbn [salt ciphertext].
  set (ct := octets_of_blocks _).
  assert (length ct = (16 * (length data / 16 + 1))%nat) as L.
  { subst ct. rewrite BlockFacts.octets_of_blocks_length, AESFacts.cbc_encrypt_length.
    unfold blocks_of_octets.
    rewrite (BlockFacts.blocks_of_length (length data / 16 + 1)).
    - reflexivity.
    - apply BlockFacts.Pkcs7_pad_length.
    - rewrite BlockFacts.Pkcs7_pad_length. lia. }
  split; [|split].
  - rewrite (stringify_octets_length_bounded _ _ (Nat.le_refl _)).
    assert (length (octets_of_salt r) = 8%nat) as Lr
      by (destruct r as [[[[? ?] ?] ?] [[[? ?] ?] ?]]; reflexivity).
    rewrite !length_app, L, Lr. change (length Salted__) with 8%nat.
    f_equal. f_equal. lia.
  - destruct r as [[[[[x0 x1 x2 x3 x4 x5 x6 x7] s1] s2] s3] [[[s4 s5] s6] s7]].
    destruct x6, x7; reflexivity.
  - apply (stringify_octets_alphabet_bounded _ _ (Nat.le_refl _)).
Qed.

Lemma ciphertext_shape_witness :
  exists data,
    Utf8.parse (js "hunter2") = Return data
    /\ length (js "U2FsdGVkX18AAQIDBAUGB+8FhEnG4M1m4Wt2vnVO+mE=")
       = (4 * ((32 + 16 * (length data / 16) + 2) / 3))%nat
    /\ firstn 10 (js "U2FsdGVkX18AAQIDBAUGB+8FhEnG4M1m4Wt2vnVO+mE=") = js "U2FsdGVkX1"
    /\ Forall (fun ch => In ch Base64._map) (js "U2FsdGVkX18AAQIDBAUGB+8FhEnG4M1m4Wt2vnVO+mE=").
Proof.
  apply (ciphertext_shape (salt_of_N 0x0001020304050607) (js "hunter2") (js "correct horse")).
  - discriminate.
  - vm_compute. reflexivity.
Defined.

End CiphertextFacts.

(** ** The rating of a master password *)

Module StrengthFacts.

Import Crypto StrengthTerms.

Lemma test_app (class : N -> bool) (a b : jsstring) :
  test class (a ++ b) = test class a || test class b.
Proof. apply existsb_app. Qed.

Lemma test_within (class : N -> bool) (a p b : jsstring) :
  test class p = true -> test class (a ++ p ++ b) = true.
Proof. intros H. rewrite !test_app, H. apply orb_true_r. Qed.

Lemma score_of_within (a p b : jsstring) : (score_of p <= score_of (a ++ p ++ b))%nat.
Proof.
  unfold score_of.
  assert (length p <= length (a ++ p ++ b))%nat as L by (rewrite !length_app; lia).
  pose proof (test_within lower a p b). pose proof (test_within upper a p b).
  pose proof (test_within digit a p b). pose proof (test_within other a p b).
  repeat match goal with
         | |- context [(?x <=? ?y)%nat] => destruct (Nat.leb_spec x y)
         end; try lia;
  destruct (test lower p), (test upper p), (test digit p), (test other p);
    repeat match goal with
           | H : true = true -> _ |- _ => rewrite (H eq_refl)
           end; cbn [andb];
    repeat match goal with
           | |- context [if ?c then _ else _] => destruct c
           end; lia.
Qed.

Lemma strength_of_score_mono (m n : nat) :
  (m <= n)%nat -> (rank (strength_of_score m) <= rank (strength_of_score n))%nat.
Proof.
  intros H. unfold strength_of_score.
  repeat match goal with
         | |- context [(?x <=? ?y)%nat] => destruct (Nat.leb_spec x y)
         | |- context [(?x =? ?y)%nat] => destruct (Nat.eqb_spec x y)
         end; cbn; lia.
Qed.

Lemma validate_strength (p : jsstring) :
  strength_of (validateMasterPassword p)
  = if (length p <? 8)%nat then weak else strength_of_score (score_of p).
Proof.
  unfold validateMasterPassword. destruct (length p <? 8)%nat; [reflexivity|].
  destruct (strength_of_score (score_of p)); reflexivity.
Qed.

Lemma validate_isValid (p : jsstring) :
  isValid (validateMasterPassword p) = negb (length p <? 8)%nat.
Proof.
  unfold validateMasterPassword. destruct (length p <? 8)%nat; [reflexivity|].
  destruct (strength_of_score (score_of p)); reflexivity.
Qed.

(** X12. Typing more never costs a master password its rating: a password
    that contains another one is valid when that one is, and is rated at
    least as strong. *)
Theorem more_characters_never_weaker (a p b : jsstring) :
  (isValid (validateMasterPassword p) = true ->
     isValid (validateMasterPassword (a ++ p ++ b)) = true)
  /\ (rank (strength_of (validateMasterPassword p))
      <= rank (strength_of (validateMasterPassword (a ++ p ++ b))))%nat.
Proof.
  rewrite !validate_isValid, !validate_strength.
  assert (length p <= length (a ++ p ++ b))%nat as L by (rewrite !length_app; lia).
  destruct (Nat.ltb_spec (length p) 8), (Nat.ltb_spec (length (a ++ p ++ b)) 8);
    cbn [negb rank]; split; try discriminate; try reflexivity; try lia.
  apply strength_of_score_mono, score_of_within.
Qed.

End StrengthFacts.

(** ** What the password generator returns *)

Module PasswordGeneratorFacts.

Import PasswordGenerator PasswordGeneratorTerms.

(** *** The loop of [shuffleString] *)

(** Rounds past the end of [randomValues] move the entries one place up
    through [arr.NaN]: the entry at the lowest such index ends in
    [arr.NaN], and what [arr.NaN] held ends at the highest. *)
Lemma nan_rounds (rv : list N) (pre mid : list (option N)) :
  (length rv <= length pre)%nat -> (1 <= length pre)%nat ->
  forall (suf : list (option N)) (nan : option N),
    shuffle_rounds rv (length pre + length mid - 1) (pre ++ mid ++ suf, nan)
    = shuffle_rounds rv (length pre - 1)
        match mid with
        | [] => (pre ++ suf, nan)
        | x :: mid' => (pre ++ mid' ++ [nan] ++ suf, x)
        end.
Proof.
  intros Hrv Hpre. induction mid as [|y mid0 IH] using rev_ind; intros suf nan.
  - cbn [length app]. rewrite Nat.add_0_r. reflexivity.
  - rewrite length_app. cbn [length].
    replace (length pre + (length mid0 + 1) - 1)%nat
      with (S (length pre + length mid0 - 1)) by lia.
    cbn [shuffle_rounds]. unfold shuffle_round at 1.
    assert (nth_error rv (S (length pre + length mid0 - 1)) = None) as ->
      by (apply nth_error_None; lia).
    replace (S (length pre + length mid0 - 1)) with (length (pre ++ mid0) + 0)%nat
      by (rewrite length_app; lia).
    replace (pre ++ (mid0 ++ [y]) ++ suf) with ((pre ++ mid0) ++ y :: suf)
      by (rewrite <- !app_assoc; reflexivity).
    rewrite insert_app_r, app_nth2_plus. cbn [nth].
    change (<[0%nat:=nan]> (y :: suf)) with ([nan] ++ suf).
    rewrite <- app_assoc, IH.
    destruct mid0 as [|x mid0']; cbn [app]; rewrite <- ?app_assoc; reflexivity.
Qed.

(** Rounds within [randomValues] exchange entries below the index they
    start from. *)
Lemma swap_rounds (Q : option N -> Prop) (rv : list N) (i : nat) :
  (i < length rv)%nat ->
  forall (pre rest : list (option N)) (nan : option N),
    (i < length pre)%nat -> Forall Q pre ->
    exists pre',
      shuffle_rounds rv i (pre ++ rest, nan) = (pre' ++ rest, nan)
      /\ length pre' = length pre /\ Forall Q pre'.
Proof.
  induction i as [|i IH]; intros Hrv pre rest nan Hi HQ.
  - exists pre. auto.
  - cbn [shuffle_rounds]. unfold shuffle_round at 1.
    destruct (nth_error rv (S i)) as [v|] eqn:Hv;
      [|apply nth_error_None in Hv; lia].
    set (j := N.to_nat (v mod N.of_nat (S i + 1))).
    assert (j < S i + 1)%nat as Hj.
    { subst j. pose proof (N.mod_upper_bound v (N.of_nat (S i + 1))). lia. }
    rewrite !app_nth1 by lia.
    assert (forall k, (k < length pre)%nat -> Q (nth k pre None)) as Hnth.
    { intros k Hk. rewrite List.Forall_forall in HQ. apply HQ, nth_In, Hk. }
    rewrite (insert_app_l _ _ (S i)) by lia.
    rewrite (insert_app_l _ _ j) by (rewrite length_insert; lia).
    destruct (IH ltac:(lia) (<[j:=nth (S i) pre None]> (<[S i:=nth j pre None]> pre))
                rest nan) as (pre' & E & L & Q').
    { rewrite !length_insert. lia. }
    { apply Forall_insert; [apply Forall_insert|]; [exact HQ|apply Hnth; lia..]. }
    exists pre'. rewrite !length_insert in L. auto.
Qed.

Lemma join_app (a b : list (option N)) : join (a ++ b) = join a ++ join b.
Proof. apply flat_map_app. Qed.

Lemma join_Some (l : jsstring) : join (map Some l) = l.
Proof. induction l as [|c l IH]; [reflexivity|]. cbn. f_equal. exact IH. Qed.

Lemma join_defined (Q : N -> Prop) (l : list (option N)) :
  Forall (fun x => exists c, x = Some c /\ Q c) l ->
  length (join l) = length l /\ Forall Q (join l).
Proof.
  induction 1 as [|x l (c & -> & Hc) _ [IH1 IH2]]; [split; [reflexivity|constructor]|].
  cbn [join flat_map app length]. split; [f_equal; exact IH1|constructor; assumption].
Qed.

(** [shuffleString] with as many random values as the last [m] characters
    need, as [generatePassword] calls it. *)
Lemma shuffleString_slice (Q : N -> Prop) (str : jsstring) (rv : list N) :
  (1 <= length rv <= length str)%nat -> Forall Q str ->
  exists head,
    length head = length rv /\ Forall Q head
    /\ shuffleString str rv = head ++ skipn (S (length rv)) str.
Proof.
  intros Hm HQ. unfold shuffleString.
  set (m := length rv) in *.
  assert (Forall (fun x => exists c, x = Some c /\ Q c) (map Some (firstn m str))) as Hpre.
  { apply List.Forall_map. eapply List.Forall_impl; [|apply Forall_take, HQ].
    cbn. eauto. }
  assert (length (map Some (firstn m str)) = m) as Lpre
    by (rewrite length_map, length_firstn; lia).
  replace (map Some str) with (map Some (firstn m str) ++ map Some (skipn m str) ++ [])
    by (rewrite app_nil_r, <- map_app, firstn_skipn; reflexivity).
  replace (length (map Some (firstn m str) ++ map Some (skipn m str) ++ []) - 1)%nat
    with (length (map Some (firstn m str)) + length (map Some (skipn m str)) - 1)%nat
    by (rewrite !length_app; cbn [length]; lia).
  rewrite nan_rounds by lia. rewrite Lpre.
  destruct (skipn m str) as [|x mid'] eqn:Hmid.
  - cbn [map app]. 
    destruct (swap_rounds _ rv (m - 1) ltac:(lia) (map Some (firstn m str)) [] None
                ltac:(lia) Hpre) as (pre' & -> & L' & Q').
    cbn [fst]. rewrite app_nil_r. destruct (join_defined Q pre' Q') as [Lj Qj].
    exists (join pre'). split; [lia|]. split; [exact Qj|].
    assert (skipn (S m) str = []) as ->; [|rewrite app_nil_r; reflexivity].
    apply skipn_all2. apply (f_equal (@length _)) in Hmid.
    rewrite length_skipn in Hmid. cbn in Hmid. lia.
  - cbn [map].
    destruct (swap_rounds _ rv (m - 1) ltac:(lia) (map Some (firstn m str))
                (map Some mid' ++ [None] ++ []) (Some x) ltac:(lia) Hpre)
      as (pre' & -> & L' & Q').
    cbn [fst]. rewrite !join_app, join_Some. cbn [join flat_map app].
    rewrite app_nil_r. destruct (join_defined Q pre' Q') as [Lj Qj].
    exists (join pre'). split; [lia|]. split; [exact Qj|].
    f_equal. change (S m) with (1 + m)%nat. rewrite <- skipn_skipn, Hmid. reflexivity.
Qed.

(** *** The character classes *)

Lemma classes_inhabited (options : PasswordOptions) :
  Forall (fun chars => chars <> []) (classes options).
Proof.
  unfold classes.
  destruct (excludeSimilar options), (includeUppercase options),
    (includeLowercase options), (includeNumbers options), (includeSymbols options);
    repeat constructor; discriminate.
Qed.

Lemma selected_bounds (options : PasswordOptions) :
  (selected options <= 4)%nat
  /\ (selected options = 0%nat
      <-> negb (includeUppercase options) && negb (includeLowercase options)
          && negb (includeNumbers options) && negb (includeSymbols options) = true).
Proof.
  unfold selected, classes.
  destruct (includeUppercase options), (includeLowercase options),
    (includeNumbers options), (includeSymbols options); cbn; split; try lia;
    split; (discriminate || reflexivity).
Qed.

Lemma build_classes (random : nat -> N) (options : PasswordOptions) :
  let similar chars := if excludeSimilar options then replace_similar chars else chars in
  add_class random (includeSymbols options) SYMBOLS
    (add_class random (includeNumbers options) (similar NUMBERS)
       (add_class random (includeLowercase options) (similar LOWERCASE)
          (add_class random (includeUppercase options) (similar UPPERCASE) ([], []))))
  = (charset_of options, draw_each random 0 (classes options)).
Proof.
  unfold charset_of, classes, add_class.
  destruct (excludeSimilar options), (includeUppercase options),
    (includeLowercase options), (includeNumbers options), (includeSymbols options);
    cbn [fst snd app length concat draw_each]; rewrite ?app_nil_r; reflexivity.
Qed.

Lemma getRandomChar_drawn (v : N) (chars : jsstring) :
  chars <> [] -> exists c, getRandomChar v chars = Some c /\ In c chars.
Proof.
  intros H. unfold getRandomChar, charAt. destruct chars as [|c0 chars0]; [congruence|].
  set (chars := c0 :: chars0) in *.
  destruct (nth_error chars (N.to_nat (v mod N.of_nat (length chars)))) as [c|] eqn:E.
  - exists c. split; [reflexivity|]. eapply nth_error_In, E.
  - apply nth_error_None in E.
    pose proof (N.mod_upper_bound v (N.of_nat (length chars))).
    subst chars. cbn [length] in *. lia.
Qed.

Lemma draw_each_drawn (random : nat -> N) (cls : list jsstring) :
  Forall (fun chars => chars <> []) cls ->
  forall k,
    Forall2 (fun x chars => exists c, x = Some c /\ In c chars) (draw_each random k cls) cls.
Proof.
  induction 1 as [|chars cls H _ IH]; intros k; cbn [draw_each]; constructor; [|apply IH].
  destruct (getRandomChar_drawn (random k) chars H) as (c & -> & Hc). eauto.
Qed.

Lemma join_drawn (xs : list (option N)) (cls : list jsstring) :
  Forall2 (fun x chars => exists c, x = Some c /\ In c chars) xs cls ->
  length (join xs) = length cls /\ Forall (fun c => In c (concat cls)) (join xs).
Proof.
  induction 1 as [|x chars xs cls (c & -> & Hc) _ [IH1 IH2]];
    [split; [reflexivity|constructor]|].
  cbn [join flat_map app length concat]. fold (join xs).
  split; [f_equal; exact IH1|].
  constructor; [apply in_or_app; left; exact Hc|].
  eapply List.Forall_impl; [|exact IH2]. cbn. intros a Ha. apply in_or_app. right. exact Ha.
Qed.

Lemma required_text_drawn (random : nat -> N) (options : PasswordOptions) :
  length (required_text random options) = selected options
  /\ Forall (fun c => In c (charset_of options)) (required_text random options).
Proof.
  apply join_drawn, draw_each_drawn, classes_inhabited.
Qed.

(** *** [generatePassword] *)

(** The characters drawn from the whole character set, before the required
    ones are appended. *)
Lemma body_drawn (charset : jsstring) (values : nat -> N) (n : nat) :
  charset <> [] ->
  let body :=
    flat_map (fun i => appended (charAt charset (values i mod N.of_nat (length charset))))
      (seq 0 n) in
  length body = n /\ Forall (fun c => In c charset) body.
Proof.
  intros H. cbn zeta. generalize 0%nat as start.
  induction n as [|n IH]; intros start; [split; [reflexivity|constructor]|].
  cbn [seq flat_map].
  destruct (getRandomChar_drawn (values start) charset H) as (c & E & Hc).
  unfold getRandomChar in E. destruct charset as [|c0 cs]; [congruence|].
  rewrite E. cbn [appended app length]. destruct (IH (S start)) as [IH1 IH2].
  split; [f_equal; exact IH1|constructor; assumption].
Qed.

Lemma charset_inhabited (options : PasswordOptions) :
  selected options <> 0%nat -> charset_of options <> [].
Proof.
  unfold selected, charset_of. pose proof (classes_inhabited options) as H.
  destruct H as [|chars cls Hc _]; [cbn; congruence|].
  intros _. cbn [concat]. destruct chars; [congruence|discriminate].
Qed.

Lemma draw_each_length (random : nat -> N) (cls : list jsstring) (k : nat) :
  length (draw_each random k cls) = length cls.
Proof. revert k. induction cls; intros k; [reflexivity|]. cbn. f_equal. auto. Qed.

(** When and what [generatePassword] returns. *)
Lemma generatePassword_cases (random : nat -> N) (options : PasswordOptions) :
  exists body rv,
    generatePassword random options
    = (if (selected options =? 0)%nat
       then Throw "At least one character type must be selected"
       else if options_length options <? N.of_nat (selected options)
       then Throw ("Password length must be at least " ++ digit_text (selected options)
                   ++ " with current options")
       else if 16384 <? options_length options then Throw quota_exceeded
       else Return (shuffleString (body ++ required_text random options) rv))
    /\ (selected options <> 0%nat ->
        length body = (N.to_nat (options_length options) - selected options)%nat
        /\ Forall (fun c => In c (charset_of options)) body)
    /\ length rv = Nat.min (selected options) (N.to_nat (options_length options)).
Proof.
  unfold generatePassword.
  destruct (selected_bounds options) as [_ Hz].
  rewrite build_classes, draw_each_length. fold (selected options).
  set (L := N.to_nat (options_length options)) in *.
  set (randomValues := map _ (seq 0 L)).
  eexists. exists (skipn (L - selected options) randomValues).
  split; [|split].
  - destruct (negb (includeUppercase options) && negb (includeLowercase options)
              && negb (includeNumbers options) && negb (includeSymbols options)).
    + destruct Hz as [_ Hz]. rewrite (Hz eq_refl). reflexivity.
    + destruct (Nat.eqb_spec (selected options) 0) as [E|_];
        [apply Hz in E; discriminate|]. reflexivity.
  - intros Hm. apply (body_drawn (charset_of options) (fun i => nth i randomValues 0)).
    apply charset_inhabited, Hm.
  - subst randomValues. rewrite length_skipn, length_map, length_seq. lia.
Qed.

Lemma validateOptions_valid (options : PasswordOptions) :
  valid (validateOptions options) = true
  <-> 4 <= options_length options <= 128 /\ (1 <= selected options)%nat.
Proof.
  unfold validateOptions. destruct (selected_bounds options) as [_ Hz].
  destruct (N.ltb_spec (options_length options) 4); [cbn; split; [discriminate|lia]|].
  destruct (N.ltb_spec 128 (options_length options)); [cbn; split; [discriminate|lia]|].
  destruct (negb (includeUppercase options) && negb (includeLowercase options)
            && negb (includeNumbers options) && negb (includeSymbols options)); cbn.
  - split; [discriminate|]. destruct Hz as [_ Hz]. specialize (Hz eq_refl). lia.
  - split; [|reflexivity]. intros _. split; [lia|].
    destruct (selected options); [|lia]. destruct Hz as [Hz _]. discriminate (Hz eq_refl).
Qed.

(** X13. [generatePassword] returns a password exactly when at least one
    character class is selected and the length asked for is at least the
    number of selected classes and at most 16384.  Without a class it
    throws "At least one character type must be selected", below that
    number the error that names it.  Options that [validateOptions] accepts
    are always served. *)
Theorem generatePassword_outcome (random : nat -> N) (options : PasswordOptions) :
  ((exists p, generatePassword random options = Return p)
   <-> (1 <= selected options <= N.to_nat (options_length options))%nat
       /\ options_length options <= 16384)
  /\ (selected options = 0%nat ->
        generatePassword random options
        = Throw "At least one character type must be selected")
  /\ ((1 <= selected options)%nat ->
      (N.to_nat (options_length options) < selected options)%nat ->
        generatePassword random options
        = Throw ("Password length must be at least " ++ digit_text (selected options)
                 ++ " with current options"))
  /\ (valid (validateOptions options) = true ->
        exists p, generatePassword random options = Return p).
Proof.
  destruct (generatePassword_cases random options) as (body & rv & E & _).
  rewrite E. pose proof (validateOptions_valid options) as V.
  destruct (selected_bounds options) as [H4 _].
  destruct (Nat.eqb_spec (selected options) 0);
    [|destruct (N.ltb_spec (options_length options) (N.of_nat (selected options)));
      [|destruct (N.ltb_spec 16384 (options_length options))]].
  all: repeat split; try (intros [p Hp]; discriminate); try discriminate;
    try reflexivity; try lia; try (intros; lia); try (intros; eexists; reflexivity).
  all: try (intros Hv; apply V in Hv; lia).
  all: match goal with H : exists p, _ = Return p |- _ => destruct H; discriminate end.
Qed.

(** What [generatePassword] returns, taken apart: characters that the
    rounds within [randomValues] have exchanged, then the characters drawn
    from the whole set from the second one past them on, then the required
    characters. *)
Lemma generatePassword_parts (random : nat -> N) (options : PasswordOptions) (p : jsstring) :
  generatePassword random options = Return p ->
  let m := selected options in
  let L := N.to_nat (options_length options) in
  (1 <= m <= L)%nat
  /\ exists body head,
       p = head ++ skipn (S m) (body ++ required_text random options)
       /\ length body = (L - m)%nat
       /\ length head = m
       /\ Forall (fun c => In c (charset_of options)) body
       /\ Forall (fun c => In c (charset_of options)) head.
Proof.
  intros Hp. cbn zeta.
  destruct (generatePassword_cases random options) as (body & rv & E & B & Lrv).
  rewrite Hp in E.
  destruct (Nat.eqb_spec (selected options) 0); [discriminate|].
  destruct (N.ltb_spec (options_length options) (N.of_nat (selected options)));
    [discriminate|].
  destruct (N.ltb_spec 16384 (options_length options)); [discriminate|].
  injection E as ->. destruct (B ltac:(assumption)) as [B1 B2].
  destruct (required_text_drawn random options) as [R1 R2].
  split; [lia|].
  destruct (shuffleString_slice (fun c => In c (charset_of options))
              (body ++ required_text random options) rv) as (head & H1 & H2 & H3).
  { rewrite length_app, B1, R1, Lrv. lia. }
  { apply Forall_app. split; assumption. }
  exists body, head. rewrite H3, Lrv, Nat.min_l by lia.
  repeat split; try assumption. lia.
Qed.

(** X14. The password has one character less than the length asked for,
    unless that length is the number of selected classes: of the rounds of
    [shuffleString], only as many as there are selected classes find a
    random value, and the rounds without one push a character out of the
    array. *)
Theorem generatePassword_length (random : nat -> N) (options : PasswordOptions)
    (p : jsstring) :
  generatePassword random options = Return p ->
  length p = if (selected options =? N.to_nat (options_length options))%nat
             then N.to_nat (options_length options)
             else (N.to_nat (options_length options) - 1)%nat.
Proof.
  intros Hp. destruct (generatePassword_parts random options p Hp)
    as (Hm & body & head & -> & Lb & Lh & _).
  destruct (required_text_drawn random options) as [R1 _].
  rewrite length_app, length_skipn, length_app, Lb, Lh, R1.
  destruct (Nat.eqb_spec (selected options) (N.to_nat (options_length options))); lia.
Qed.

Lemma generatePassword_length_witness :
  length (js "6F%eh*9Isk_Vy1^")
  = if (selected getDefaultOptions =? N.to_nat (options_length getDefaultOptions))%nat
    then N.to_nat (options_length getDefaultOptions)
    else (N.to_nat (options_length getDefaultOptions) - 1)%nat.
Proof.
  apply (generatePassword_length sample_random getDefaultOptions).
  vm_compute. reflexivity.
Defined.

Lemma replace_similar_subset (chars : jsstring) (c : N) :
  In c (replace_similar chars) -> In c chars /\ SIMILAR_CHARS c = false.
Proof.
  unfold replace_similar. rewrite filter_In. intros [H1 H2].
  split; [exact H1|]. destruct (SIMILAR_CHARS c); [discriminate|reflexivity].
Qed.

Lemma in_classes (options : PasswordOptions) (chars : jsstring) :
  In chars (classes options) ->
  let similar chars := if excludeSimilar options then replace_similar chars else chars in
  chars = similar UPPERCASE \/ chars = similar LOWERCASE \/ chars = similar NUMBERS
  \/ chars = SYMBOLS.
Proof.
  unfold classes. cbn zeta. rewrite !in_app_iff.
  destruct (includeUppercase options), (includeLowercase options),
    (includeNumbers options), (includeSymbols options); cbn [In app];
    intuition (subst; auto).
Qed.

Lemma charset_without_similar (options : PasswordOptions) (c : N) :
  excludeSimilar options = true -> In c (charset_of options) -> SIMILAR_CHARS c = false.
Proof.
  intros Hx Hc. unfold charset_of in Hc. apply in_concat in Hc as (chars & Hcl & Hc).
  apply in_classes in Hcl. rewrite Hx in Hcl.
  destruct Hcl as [-> | [-> | [-> | ->]]];
    try (apply replace_similar_subset in Hc as [_ Hc]; exact Hc).
  revert c Hc. apply List.Forall_forall. vm_compute. repeat constructor.
Qed.

(** X15. Every character of the password is taken from the selected
    classes; with [excludeSimilar] none of them is one of the look-alikes
    0, O, l, 1 and I. *)
Theorem generatePassword_alphabet (random : nat -> N) (options : PasswordOptions)
    (p : jsstring) :
  generatePassword random options = Return p ->
  Forall (fun c => In c (charset_of options)) p
  /\ (excludeSimilar options = true -> Forall (fun c => SIMILAR_CHARS c = false) p).
Proof.
  intros Hp. destruct (generatePassword_parts random options p Hp)
    as (Hm & body & head & -> & Lb & Lh & Qb & Qh).
  destruct (required_text_drawn random options) as [_ R2].
  assert (Forall (fun c => In c (charset_of options))
            (head ++ skipn (S (selected options)) (body ++ required_text random options)))
    as Q.
  { apply Forall_app. split; [exact Qh|]. apply Forall_drop, Forall_app. auto. }
  split; [exact Q|]. intros Hx. eapply List.Forall_impl; [|exact Q].
  cbn. intros c. apply charset_without_similar, Hx.
Qed.

Lemma generatePassword_alphabet_witness :
  Forall (fun c => In c (charset_of getDefaultOptions)) (js "6F%eh*9Isk_Vy1^")
  /\ (excludeSimilar getDefaultOptions = true ->
      Forall (fun c => SIMILAR_CHARS c = false) (js "6F%eh*9Isk_Vy1^")).
Proof.
  apply (generatePassword_alphabet sample_random getDefaultOptions).
  vm_compute. reflexivity.
Defined.

Lemma test_drawn (class : N -> bool) (chars : jsstring) (xs : list (option N))
    (cls : list jsstring) :
  Forall2 (fun x chars => exists c, x = Some c /\ In c chars) xs cls ->
  In chars cls -> (forall c, In c chars -> class c = true) ->
  Crypto.test class (join xs) = true.
Proof.
  intros D Hin Hclass.
  induction D as [|x chars0 xs cls (c & -> & Hc) _ IH]; [destruct Hin|].
  cbn [join flat_map app Crypto.test existsb]. destruct Hin as [->|Hin].
  - rewrite (Hclass c Hc). reflexivity.
  - fold (join xs). unfold Crypto.test in IH. rewrite (IH Hin). apply orb_true_r.
Qed.

Lemma class_of_chars (class : N -> bool) (chars : jsstring) (x : bool) :
  forallb class chars = true ->
  forall c, In c (if x then replace_similar chars else chars) -> class c = true.
Proof.
  intros H c Hc. rewrite forallb_forall in H. apply H.
  destruct x; [apply replace_similar_subset in Hc as [Hc _]|]; exact Hc.
Qed.

(** A text that ends with the required characters holds a character of
    each selected class. *)
Lemma required_classes (random : nat -> N) (options : PasswordOptions) (head : jsstring) :
  let p := head ++ required_text random options in
  (includeUppercase options = true -> Crypto.test Crypto.upper p = true)
  /\ (includeLowercase options = true -> Crypto.test Crypto.lower p = true)
  /\ (includeNumbers options = true -> Crypto.test Crypto.digit p = true)
  /\ (includeSymbols options = true -> Crypto.test Crypto.other p = true).
Proof.
  cbn zeta.
  pose proof (draw_each_drawn random (classes options) (classes_inhabited options) 0%nat) as D.
  assert (forall class chars,
            In chars (classes options) -> (forall c, In c chars -> class c = true) ->
            Crypto.test class (head ++ required_text random options) = true) as T.
  { intros class chars Hin Hc. unfold Crypto.test. rewrite existsb_app.
    fold (Crypto.test class (required_text random options)).
    unfold required_text. rewrite (test_drawn class chars _ _ D Hin Hc).
    apply orb_true_r. }
  split; [|split; [|split]].
  - intros H. apply (T _ (if excludeSimilar options then replace_similar UPPERCASE
                          else UPPERCASE)).
    + unfold classes. rewrite H. left. reflexivity.
    + apply class_of_chars. reflexivity.
  - intros H. apply (T _ (if excludeSimilar options then replace_similar LOWERCASE
                          else LOWERCASE)).
    + unfold classes. rewrite H, !in_app_iff. right. left. left. reflexivity.
    + apply class_of_chars. reflexivity.
  - intros H. apply (T _ (if excludeSimilar options then replace_similar NUMBERS
                          else NUMBERS)).
    + unfold classes. rewrite H, !in_app_iff. right. right. left. left. reflexivity.
    + apply class_of_chars. reflexivity.
  - intros H. apply (T _ SYMBOLS).
    + unfold classes. rewrite H, !in_app_iff. right. right. right. left. reflexivity.
    + apply (class_of_chars Crypto.other SYMBOLS false). reflexivity.
Qed.

(** With more than twice as many characters as selected classes, the
    required characters are the end of the password. *)
Lemma generated_tail (random : nat -> N) (options : PasswordOptions) (p : jsstring) :
  generatePassword random options = Return p ->
  (2 * selected options < N.to_nat (options_length options))%nat ->
  exists head,
    p = head ++ required_text random options
    /\ length head = (N.to_nat (options_length options) - 1 - selected options)%nat.
Proof.
  intros Hp HL. destruct (generatePassword_parts random options p Hp)
    as (Hm & body & head & -> & Lb & Lh & _).
  rewrite skipn_app, Lb.
  replace (S (selected options) - (N.to_nat (options_length options) - selected options))%nat
    with 0%nat by lia.
  cbn [skipn]. rewrite app_assoc.
  eexists. split; [reflexivity|]. rewrite length_app, length_skipn, Lb, Lh. lia.
Qed.

(** X16. When the length asked for is more than twice the number of
    selected classes, the password ends with the required characters, one
    drawn from each selected class, in the order uppercase, lowercase,
    number, symbol: the rounds of [shuffleString] that find a random value
    exchange characters at its beginning only.  So it holds a character of
    each selected class. *)
Theorem generatePassword_ends_with_required (random : nat -> N)
    (options : PasswordOptions) (p : jsstring) :
  generatePassword random options = Return p ->
  (2 * selected options < N.to_nat (options_length options))%nat ->
  (exists head,
     p = head ++ required_text random options
     /\ length head = (N.to_nat (options_length options) - 1 - selected options)%nat)
  /\ (includeUppercase options = true -> Crypto.test Crypto.upper p = true)
  /\ (includeLowercase options = true -> Crypto.test Crypto.lower p = true)
  /\ (includeNumbers options = true -> Crypto.test Crypto.digit p = true)
  /\ (includeSymbols options = true -> Crypto.test Crypto.other p = true).
Proof.
  intros Hp HL.
  destruct (generated_tail random options p Hp HL) as (head & E & Lh).
  split; [exists head; split; assumption|].
  rewrite E. apply required_classes.
Qed.

Lemma generatePassword_ends_with_required_witness :
  (exists head,
     js "6F%eh*9Isk_Vy1^" = head ++ required_text sample_random getDefaultOptions
     /\ length head
        = (N.to_nat (options_length getDefaultOptions) - 1 - selected getDefaultOptions)%nat)
  /\ (includeUppercase getDefaultOptions = true ->
      Crypto.test Crypto.upper (js "6F%eh*9Isk_Vy1^") = true)
  /\ (includeLowercase getDefaultOptions = true ->
      Crypto.test Crypto.lower (js "6F%eh*9Isk_Vy1^") = true)
  /\ (includeNumbers getDefaultOptions = true ->
      Crypto.test Crypto.digit (js "6F%eh*9Isk_Vy1^") = true)
  /\ (includeSymbols getDefaultOptions = true ->
      Crypto.test Crypto.other (js "6F%eh*9Isk_Vy1^") = true).
Proof.
  apply (generatePassword_ends_with_required sample_random getDefaultOptions).
  - vm_compute. reflexivity.
  - vm_compute. lia.
Defined.

(** X17. For options that [validateOptions] accepts, with all four classes
    selected and a length of at least 13, [handleGenerate] shows a password
    that [calculatePasswordStrength] rates "Very Strong" with the score
    5. *)
Theorem handleGenerate_very_strong (random : nat -> N) (options : PasswordOptions) :
  valid (validateOptions options) = true ->
  includeUppercase options = true -> includeLowercase options = true ->
  includeNumbers options = true -> includeSymbols options = true ->
  13 <= options_length options ->
  exists p,
    generatePassword random options = Return p
    /\ handleGenerate random options
       = setPassword p {| score := 5; label := "Very Strong"; color := "text-green-600" |}.
Proof.
  intros Hv HU HL HN HS H13.
  assert (selected options = 4%nat) as Hm
    by (unfold selected, classes; rewrite HU, HL, HN, HS; reflexivity).
  pose proof (proj1 (validateOptions_valid options) Hv) as [Hl _].
  destruct (generatePassword_cases random options) as (body & rv & Hp & _).
  rewrite Hm in Hp. cbn [Nat.eqb] in Hp.
  destruct (N.ltb_spec (options_length options) (N.of_nat 4)); [lia|].
  destruct (N.ltb_spec 16384 (options_length options)); [lia|].
  eexists. split; [exact Hp|].
  unfold handleGenerate. rewrite Hv, Hp. cbn [negb]. f_equal.
  destruct (generated_tail random options _ Hp ltac:(lia)) as (head & E & Lh).
  destruct (required_text_drawn random options) as [Lr _].
  destruct (required_classes random options head) as (TU & TL & TN & TS).
  rewrite E. unfold calculatePasswordStrength.
  rewrite (TU HU), (TL HL), (TN HN), (TS HS). cbn [andb].
  rewrite length_app, Lh, Lr, Hm.
  destruct (Nat.leb_spec 8 (N.to_nat (options_length options) - 1 - 4 + 4)); [|lia].
  destruct (Nat.leb_spec 12 (N.to_nat (options_length options) - 1 - 4 + 4)); [|lia].
  destruct (16 <=? N.to_nat (options_length options) - 1 - 4 + 4)%nat; reflexivity.
Qed.

Lemma handleGenerate_very_strong_witness :
  exists p,
    generatePassword sample_random getDefaultOptions = Return p
    /\ handleGenerate sample_random getDefaultOptions
       = setPassword p {| score := 5; label := "Very Strong"; color := "text-green-600" |}.
Proof.
  apply (handleGenerate_very_strong sample_random getDefaultOptions);
    first [reflexivity | vm_compute; discriminate].
Defined.

End PasswordGeneratorFacts.

(** ** The middleware does not loop *)

Module MiddlewareFacts.

Import Middleware.

(** X18. A redirect of the middleware does not lead to another one: the
    path it redirects to is let through for the same session. *)
Theorem middleware_does_not_loop (session : option Session) (pathname target : jsstring)
    (callbackUrl : option jsstring) :
  middleware session pathname = redirect target callbackUrl ->
  middleware session target = next.
Proof.
  unfold middleware. intros H.
  destruct session;
    destruct (existsb _ protectedRoutes), (existsb _ authRoutes);
    cbn in H; try discriminate; injection H as <- _; reflexivity.
Qed.

Lemma middleware_does_not_loop_witness :
  middleware None (js "/login") = next.
Proof.
  apply (middleware_does_not_loop None (js "/vault/items") (js "/login")
           (Some (js "/vault/items"))).
  reflexivity.
Defined.

End MiddlewareFacts.



(** ** Export and import of the vault *)

Module ExportFacts.

Import JSON JSONStringify VaultItemCrypto VaultExport VaultExportJSON ExportTerms.

(** *** More fuel does not change what is parsed *)

Lemma parse_more_fuel (fuel : nat) :
  (forall s, parse_value fuel s <> OutOfFuel -> parse_value (S fuel) s = parse_value fuel s)
  /\ (forall s acc, parse_elements fuel s acc <> OutOfFuel ->
        parse_elements (S fuel) s acc = parse_elements fuel s acc)
  /\ (forall s acc, parse_members fuel s acc <> OutOfFuel ->
        parse_members (S fuel) s acc = parse_members fuel s acc).
Proof.
  induction fuel as [|fuel (IHv & IHe & IHm)]; [repeat split; intros; cbn in *; congruence|].
  split; [|split].
  - intros s H. cbn [parse_value] in H. cbn [parse_value].
    destruct (skip_ws s) as [|c rest]; [reflexivity|].
    destruct (c =? 123).
    { destruct (skip_ws rest) as [|d rest']; [reflexivity|].
      destruct (d =? 125); [reflexivity|]. apply IHm, H. }
    destruct (c =? 91).
    { destruct (skip_ws rest) as [|d rest']; [reflexivity|].
      destruct (d =? 93); [reflexivity|]. apply IHe, H. }
    reflexivity.
  - intros s acc H. cbn [parse_elements] in H.
    change (parse_elements (S (S fuel)) s acc)
      with (match parse_value (S fuel) s with
            | Parsed v rest =>
                match skip_ws rest with
                | c :: rest' =>
                    if c =? 44 then parse_elements (S fuel) rest' (v :: acc)
                    else if c =? 93 then Parsed (JArray (rev (v :: acc))) rest'
                    else SyntaxError
                | [] => SyntaxError
                end
            | SyntaxError => SyntaxError
            | OutOfFuel => OutOfFuel
            end).
    cbn [parse_elements].
    rewrite IHv by (intros E; rewrite E in H; congruence).
    destruct (parse_value fuel s) as [v rest| |]; try reflexivity.
    destruct (skip_ws rest) as [|c rest']; [reflexivity|].
    destruct (c =? 44); [apply IHe, H|reflexivity].
  - intros s acc H. cbn [parse_members] in H.
    change (parse_members (S (S fuel)) s acc)
      with (match skip_ws s with
            | q :: s1 =>
                if q =? 34 then
                  match string_chars s1 [] with
                  | Parsed name s2 =>
                      match skip_ws s2 with
                      | colon :: s3 =>
                          if colon =? 58 then
                            match parse_value (S fuel) s3 with
                            | Parsed v rest =>
                                match skip_ws rest with
                                | c :: rest' =>
                                    if c =? 44
                                    then parse_members (S fuel) rest' ((name, v) :: acc)
                                    else if c =? 125
                                    then Parsed (JObject (rev ((name, v) :: acc))) rest'
                                    else SyntaxError
                                | [] => SyntaxError
                                end
                            | SyntaxError => SyntaxError
                            | OutOfFuel => OutOfFuel
                            end
                          else SyntaxError
                      | [] => SyntaxError
                      end
                  | _ => SyntaxError
                  end
                else SyntaxError
            | [] => SyntaxError
            end).
    cbn [parse_members].
    destruct (skip_ws s) as [|q s1]; [reflexivity|].
    destruct (q =? 34); [|reflexivity].
    destruct (string_chars s1 []) as [name s2| |]; try reflexivity.
    destruct (skip_ws s2) as [|colon s3]; [reflexivity|].
    destruct (colon =? 58); [|reflexivity].
    rewrite IHv by (intros E; rewrite E in H; congruence).
    destruct (parse_value fuel s3) as [v rest| |]; try reflexivity.
    destruct (skip_ws rest) as [|c rest']; [reflexivity|].
    destruct (c =? 44); [apply IHm, H|reflexivity].
Qed.

Lemma parse_value_fuel_le (f f' : nat) (s : jsstring) (v : value) (rest : jsstring) :
  (f <= f')%nat -> parse_value f s = Parsed v rest -> parse_value f' s = Parsed v rest.
Proof.
  induction 1 as [|f' _ IH]; [auto|]. intros H.
  rewrite (proj1 (parse_more_fuel f')); [auto|]. rewrite (IH H). discriminate.
Qed.

Lemma parse_elements_fuel_le (f f' : nat) (s : jsstring) (acc : list value) (v : value)
    (rest : jsstring) :
  (f <= f')%nat -> parse_elements f s acc = Parsed v rest ->
  parse_elements f' s acc = Parsed v rest.
Proof.
  induction 1 as [|f' _ IH]; [auto|]. intros H.
  rewrite (proj1 (proj2 (parse_more_fuel f'))); [auto|]. rewrite (IH H). discriminate.
Qed.

Lemma parse_members_fuel_le (f f' : nat) (s : jsstring) (acc : list (jsstring * value))
    (v : value) (rest : jsstring) :
  (f <= f')%nat -> parse_members f s acc = Parsed v rest ->
  parse_members f' s acc = Parsed v rest.
Proof.
  induction 1 as [|f' _ IH]; [auto|]. intros H.
  rewrite (proj2 (proj2 (parse_more_fuel f'))); [auto|]. rewrite (IH H). discriminate.
Qed.

(** What some fuel parses is what [JSON.parse] returns. *)
Lemma parse_of_parse_value (f : nat) (text : jsstring) (v : value) :
  parse_value f text = Parsed v [] -> JSON.parse text = Return v.
Proof.
  intros H. unfold JSON.parse.
  destruct (Nat.le_ge_cases f (2 * length text + 1)) as [L|G].
  - rewrite (parse_value_fuel_le _ _ _ _ _ L H). reflexivity.
  - pose proof (ImportFacts.parse_never_out_of_fuel text) as N.
    destruct (parse_value (2 * length text + 1) text) as [v' rest'| |] eqn:E;
      [|exfalso|congruence].
    + rewrite (parse_value_fuel_le _ _ _ _ _ G E) in H. injection H as -> ->. reflexivity.
    + clear N. revert E. generalize (2 * length text + 1)%nat as g. intros g E.
      assert (forall k, parse_value (k + g) text = SyntaxError) as K.
      { induction k as [|k IHk]; [exact E|]. cbn [Nat.add].
        rewrite (proj1 (parse_more_fuel (k + g))); [exact IHk|]. rewrite IHk. discriminate. }
      destruct (Nat.le_ge_cases f g) as [L'|G'].
      * rewrite (parse_value_fuel_le _ _ _ _ _ L' H) in E. discriminate.
      * specialize (K (f - g)%nat). replace (f - g + g)%nat with f in K by lia. congruence.
Qed.

(** *** Strings *)

Lemma UnicodeEscape_read (c : N) :
  c < 65536 ->
  hex_number [hex_digit (c / 4096 mod 16); hex_digit (c / 256 mod 16);
              hex_digit (c / 16 mod 16); hex_digit (c mod 16)] 0
  = Some c.
Proof.
  intros H.
  pose proof (BcryptFacts.forall_below 16
    (fun c => match hex_number [hex_digit (c / 4096 mod 16); hex_digit (c / 256 mod 16);
                                hex_digit (c / 16 mod 16); hex_digit (c mod 16)] 0 with
              | Some v => v =? c
              | None => false
              end)) as K.
  specialize (K ltac:(vm_compute; reflexivity) c H). cbv beta in K.
  destruct (hex_number _ 0) as [v|]; [|discriminate].
  apply N.eqb_eq in K. congruence.
Qed.

Lemma string_chars_escape (c : N) (rest acc : jsstring) :
  c < 65536 ->
  string_chars (UnicodeEscape c ++ rest) acc = string_chars rest (c :: acc).
Proof.
  intros H. unfold UnicodeEscape. cbn [app string_chars].
  change (92 =? 34) with false. change (92 =? 92) with true.
  change (117 =? 34) with false. change (117 =? 92) with false.
  change (117 =? 47) with false. change (117 =? 98) with false.
  change (117 =? 102) with false. change (117 =? 110) with false.
  change (117 =? 114) with false. change (117 =? 116) with false.
  change (117 =? 117) with true. cbv iota.
  rewrite (UnicodeEscape_read c H). reflexivity.
Qed.

Lemma string_chars_plain (c : N) (rest acc : jsstring) :
  c <> 34 -> c <> 92 -> 32 <= c ->
  string_chars (c :: rest) acc = string_chars rest (c :: acc).
Proof.
  intros H1 H2 H3. cbn [string_chars].
  destruct (N.eqb_spec c 34); [contradiction|].
  destruct (N.eqb_spec c 92); [contradiction|].
  destruct (N.ltb_spec c 32); [lia|]. reflexivity.
Qed.

Lemma surrogate_unit (c : N) :
  Utf8.is_high_surrogate c = true \/ Utf8.is_low_surrogate c = true ->
  c < 65536 /\ c <> 34 /\ c <> 92 /\ 32 <= c.
Proof.
  unfold Utf8.is_high_surrogate, Utf8.is_low_surrogate.
  rewrite !andb_true_iff, !N.leb_le. lia.
Qed.

Lemma string_chars_quote_bounded (n : nat) (s : jsstring) :
  (length s <= n)%nat ->
  forall rest acc,
    string_chars (quote_chars s ++ 34 :: rest) acc = Parsed (rev acc ++ s) rest.
Proof.
  revert s. induction n as [|n IH]; intros s Hn rest acc.
  - destruct s; [|simpl in Hn; lia]. cbn. rewrite app_nil_r. reflexivity.
  - destruct s as [|c s]; [cbn; rewrite app_nil_r; reflexivity|].
    assert (forall acc', acc' = c :: acc ->
              string_chars (quote_chars s ++ 34 :: rest) acc' = Parsed (rev acc ++ c :: s) rest)
      as Next.
    { intros acc' ->. rewrite IH by (simpl in Hn; lia). cbn [rev].
      rewrite <- app_assoc. reflexivity. }
    cbn [quote_chars].
    destruct (N.eqb_spec c 8) as [->|]; [cbn; apply Next; reflexivity|].
    destruct (N.eqb_spec c 9) as [->|]; [cbn; apply Next; reflexivity|].
    destruct (N.eqb_spec c 10) as [->|]; [cbn; apply Next; reflexivity|].
    destruct (N.eqb_spec c 12) as [->|]; [cbn; apply Next; reflexivity|].
    destruct (N.eqb_spec c 13) as [->|]; [cbn; apply Next; reflexivity|].
    destruct (N.eqb_spec c 34) as [->|]; [cbn; apply Next; reflexivity|].
    destruct (N.eqb_spec c 92) as [->|]; [cbn; apply Next; reflexivity|].
    destruct (N.ltb_spec c 32).
    { rewrite <- app_assoc, string_chars_escape by lia. apply Next. reflexivity. }
    destruct (Utf8.is_high_surrogate c) eqn:Hh.
    { destruct (surrogate_unit c (or_introl Hh)) as (U & _).
      destruct s as [|d s'].
      - rewrite string_chars_escape by exact U. reflexivity.
      - destruct (Utf8.is_low_surrogate d) eqn:Hl.
        + destruct (surrogate_unit d (or_intror Hl)) as (_ & D1 & D2 & D3).
          cbn [app]. rewrite !string_chars_plain by assumption.
          rewrite IH by (simpl in Hn; lia). cbn [rev]. rewrite <- !app_assoc. reflexivity.
        + rewrite <- app_assoc, string_chars_escape by exact U. apply Next. reflexivity. }
    destruct (Utf8.is_low_surrogate c) eqn:Hl.
    { destruct (surrogate_unit c (or_intror Hl)) as (U & _).
      rewrite <- app_assoc, string_chars_escape by exact U. apply Next. reflexivity. }
    cbn [app]. rewrite string_chars_plain by assumption. apply Next. reflexivity.
Qed.

Lemma string_chars_quote (s rest : jsstring) :
  string_chars (quote_chars s ++ 34 :: rest) [] = Parsed s rest.
Proof. apply (string_chars_quote_bounded (length s)). lia. Qed.

(** *** Counts *)

Lemma decimal_digits_of_read (fuel : nat) :
  forall n acc,
    (N.to_nat (N.log2 n) < fuel)%nat ->
    exists ds d0,
      decimal_digits_of fuel n acc = (d0 :: ds) ++ acc
      /\ Crypto.digit d0 = true
      /\ (d0 = 48 -> n = 0 /\ ds = [])
      /\ forall tail a k,
           decimal_digits ((d0 :: ds) ++ tail) a k
           = decimal_digits tail (a * 10 ^ N.of_nat (length (d0 :: ds)) + n)
               (k + length (d0 :: ds)).
Proof.
  induction fuel as [|fuel IH]; intros n acc Hf; [lia|].
  cbn [decimal_digits_of].
  assert (Crypto.digit (48 + n mod 10) = true) as Dg.
  { pose proof (N.mod_upper_bound n 10 ltac:(lia)). unfold Crypto.digit.
    rewrite andb_true_iff, !N.leb_le. lia. }
  assert (48 + n mod 10 - 48 = n mod 10) as Dv by lia.
  destruct (N.ltb_spec n 10) as [Hs|Hb].
  - exists [], (48 + n mod 10). rewrite N.mod_small by lia.
    rewrite N.mod_small in Dg, Dv by lia.
    split; [reflexivity|]. split; [exact Dg|].
    split; [intros; split; [lia|reflexivity]|].
    intros tail a k. cbn [app decimal_digits length]. rewrite Dg, Dv.
    change (10 ^ N.of_nat 1) with 10.
    replace (k + 1)%nat with (S k) by lia.
    replace (a * 10 + n) with (10 * a + n) by lia. reflexivity.
  - assert (N.to_nat (N.log2 (n / 10)) < fuel)%nat as Hf'.
    { assert (N.log2 (n / 10) < N.log2 n); [|lia].
      assert (n / 10 <= n / 2) as Hd.
      { apply N.div_le_compat_l. lia. }
      assert (N.log2 (n / 2) < N.log2 n).
      { rewrite <- N.div2_div, N.div2_spec, N.log2_shiftr by lia.
        assert (0 < N.log2 n) by (apply N.log2_pos; lia). lia. }
      pose proof (N.log2_le_mono _ _ Hd). lia. }
    destruct (IH (n / 10) (48 + n mod 10 :: acc) Hf') as (ds & d0 & E & D0 & Z0 & R).
    exists (ds ++ [48 + n mod 10]), d0.
    split; [rewrite E; cbn [app]; rewrite <- app_assoc; reflexivity|].
    split; [exact D0|]. split.
    { intros Hz. destruct (Z0 Hz) as [Hn _].
      assert (n / 10 <> 0); [|contradiction].
      intros Hq. apply N.div_small_iff in Hq; lia. }
    intros tail a k.
    replace ((d0 :: ds ++ [48 + n mod 10]) ++ tail)
      with ((d0 :: ds) ++ (48 + n mod 10 :: tail))
      by (cbn [app]; rewrite <- app_assoc; reflexivity).
    rewrite R. cbn [decimal_digits]. rewrite Dg, Dv.
    replace (length (d0 :: ds ++ [48 + n mod 10])) with (S (length (d0 :: ds)))
      by (cbn [length]; rewrite length_app; cbn [length]; lia).
    rewrite Nat2N.inj_succ, N.pow_succ_r'.
    replace (k + S (length (d0 :: ds)))%nat with (S (k + length (d0 :: ds))) by lia.
    replace (10 * (a * 10 ^ N.of_nat (length (d0 :: ds)) + n / 10) + n mod 10)
      with (a * (10 * 10 ^ N.of_nat (length (d0 :: ds))) + n);
      [reflexivity|].
    pose proof (N.div_mod n 10 ltac:(lia)). nia.
Qed.

Lemma number_literal_decimal (n : N) (rest : jsstring) :
  number_ends rest ->
  exists d0 ds,
    decimal n = d0 :: ds /\ Crypto.digit d0 = true
    /\ number_literal (decimal n ++ rest)
       = Parsed {| negative := false; digits := n; exponent := 0 |} rest.
Proof.
  intros Hr. unfold decimal.
  destruct (decimal_digits_of_read (S (N.to_nat (N.log2 n))) n [] ltac:(lia))
    as (ds & d0 & E & D0 & Z0 & R).
  rewrite E, app_nil_r. exists d0, ds. split; [reflexivity|]. split; [exact D0|].
  assert (d0 <> 45) as Hm.
  { intros ->. discriminate. }
  assert (decimal_digits rest n (length (d0 :: ds)) = (n, length (d0 :: ds), rest)) as Dr.
  { destruct rest as [|c rest']; [reflexivity|]. cbn [decimal_digits].
    destruct Hr as [-> | ->]; reflexivity. }
  assert (fraction_part rest n = Parsed (n, 0%nat) rest) as Fr.
  { destruct rest as [|c rest']; [reflexivity|]. destruct Hr as [-> | ->]; reflexivity. }
  assert (exponent_part rest = Parsed 0%Z rest) as Er.
  { destruct rest as [|c rest']; [reflexivity|]. destruct Hr as [-> | ->]; reflexivity. }
  unfold number_literal. cbn [app].
  destruct (N.eqb_spec d0 45); [contradiction|].
  rewrite D0. cbn [negb].
  destruct (N.eqb_spec d0 48) as [H0|H0].
  - destruct (Z0 H0) as [-> ->]. cbn [app]. rewrite Fr, Er. reflexivity.
  - change (d0 :: ds ++ rest) with ((d0 :: ds) ++ rest).
    rewrite R, N.mul_0_l, N.add_0_l. cbn [Nat.add]. rewrite Dr, Fr, Er. reflexivity.
Qed.

(** *** Arrays and objects *)

Ltac same_text :=
  cbn [map fst snd join_with];
  repeat first [rewrite <- app_assoc | progress cbn [app]]; reflexivity.

Lemma skip_ws_app (ws s : jsstring) : whitespace ws -> skip_ws (ws ++ s) = skip_ws s.
Proof. induction 1 as [|c ws Hc _ IH]; [reflexivity|]. cbn [app skip_ws]. rewrite Hc. exact IH. Qed.

Lemma skip_ws_start (c : N) (t : jsstring) : is_whitespace c = false -> skip_ws (c :: t) = c :: t.
Proof. intros H. cbn [skip_ws]. rewrite H. reflexivity. Qed.

Lemma parse_value_skip (f : nat) (ws s : jsstring) :
  whitespace ws -> parse_value f (ws ++ s) = parse_value f s.
Proof. intros H. destruct f; [reflexivity|]. cbn [parse_value]. rewrite skip_ws_app by exact H. reflexivity. Qed.

Lemma whitespace_cons (c : N) (ws : jsstring) :
  is_whitespace c = true -> whitespace ws -> whitespace (c :: ws).
Proof. intros. constructor; assumption. Qed.

Lemma whitespace_gap (indent : jsstring) : whitespace indent -> whitespace (indent ++ gap).
Proof. intros H. apply Forall_app. split; [exact H|]. repeat constructor. Qed.

Lemma parses_string (s : jsstring) : parses (QuoteJSONString s) (JString s).
Proof.
  split; [exists 34, (quote_chars s ++ [34]); repeat split; discriminate|].
  intros rest _. exists 1%nat. intros [|f] Hf; [lia|].
  unfold QuoteJSONString. cbn [app parse_value skip_ws].
  change (is_whitespace 34) with false. cbv iota.
  change (34 =? 123) with false. change (34 =? 91) with false. change (34 =? 34) with true.
  cbv iota. rewrite <- app_assoc. cbn [app]. rewrite string_chars_quote. reflexivity.
Qed.

Lemma digit_starts (d : N) :
  Crypto.digit d = true ->
  is_whitespace d = false /\ d <> 93 /\ d <> 125
  /\ (d =? 123) = false /\ (d =? 91) = false /\ (d =? 34) = false
  /\ (d =? 116) = false /\ (d =? 102) = false /\ (d =? 110) = false.
Proof.
  unfold Crypto.digit, is_whitespace. rewrite andb_true_iff, !N.leb_le. intros [H1 H2].
  repeat match goal with
         | |- context [?a =? ?b] => destruct (N.eqb_spec a b); [lia|]
         end.
  repeat split; lia.
Qed.

Lemma parses_count (n : N) :
  parses (decimal n) (JNumber {| negative := false; digits := n; exponent := 0 |}).
Proof.
  destruct (number_literal_decimal n [] I) as (d0 & ds & E & D & _).
  destruct (digit_starts d0 D) as (W & B1 & B2 & T).
  split; [exists d0, ds; auto|].
  intros rest Hr. exists 1%nat. intros [|f] Hf; [lia|].
  destruct (number_literal_decimal n rest Hr) as (d0' & ds' & E' & _ & P).
  rewrite E in E'. injection E' as <- <-.
  cbn [parse_value]. rewrite E. cbn [app]. rewrite skip_ws_start by exact W.
  destruct T as (-> & -> & -> & -> & -> & ->).
  change (d0 :: ds ++ rest) with ((d0 :: ds) ++ rest). rewrite <- E, P. reflexivity.
Qed.

Lemma parses_null : parses (js "null") JNull.
Proof.
  split; [exists 110, (js "ull"); repeat split; discriminate|].
  intros rest _. exists 1%nat. intros [|f] Hf; [lia|]. reflexivity.
Qed.

(** The elements of an array, from the line feed before one of them. *)
Lemma parse_elements_joined (stepback indent : jsstring) (entries : list (jsstring * value)) :
  whitespace stepback -> whitespace indent ->
  Forall (fun e => parses (fst e) (snd e)) entries -> entries <> [] ->
  forall ws acc rest,
    whitespace ws ->
    exists f0, forall f, (f0 <= f)%nat ->
      parse_elements f
        (ws ++ join_with ([44; 10] ++ indent) (map fst entries) ++ [10] ++ stepback
         ++ [93] ++ rest) acc
      = Parsed (JArray (rev acc ++ map snd entries)) rest.
Proof.
  intros Hs Hi He. induction He as [|[text v] entries [_ Pe] _ IH]; [congruence|].
  intros _ ws acc rest Hw. cbn [fst snd] in *.
  destruct entries as [|e2 more].
  - destruct (Pe (([10] ++ stepback) ++ [93] ++ rest) ltac:(right; reflexivity)) as [f0 F].
    exists (S f0). intros [|f] Hf; [lia|]. cbn [map join_with parse_elements].
    rewrite parse_value_skip by exact Hw.
    replace (text ++ [10] ++ stepback ++ [93] ++ rest)
      with (text ++ ([10] ++ stepback) ++ [93] ++ rest)
      by same_text.
    rewrite F by lia.
    rewrite skip_ws_app by (apply whitespace_cons; [reflexivity|exact Hs]).
    reflexivity.
  - destruct (IH ltac:(discriminate) (10 :: indent) (v :: acc) rest
                (whitespace_cons 10 indent eq_refl Hi)) as [f1 F1].
    set (tail := join_with ([44; 10] ++ indent) (map fst (e2 :: more)) ++ [10] ++ stepback
                 ++ [93] ++ rest) in *.
    destruct (Pe (44 :: 10 :: indent ++ tail) ltac:(left; reflexivity)) as [f0 F0].
    exists (S (Nat.max f0 f1)). intros [|f] Hf; [lia|].
    replace (ws ++ join_with ([44; 10] ++ indent) (map fst ((text, v) :: e2 :: more))
             ++ [10] ++ stepback ++ [93] ++ rest)
      with (ws ++ text ++ 44 :: 10 :: indent ++ tail)
      by (subst tail; same_text).
    cbn [parse_elements]. rewrite parse_value_skip by exact Hw.
    rewrite F0 by lia. cbn [skip_ws]. change (is_whitespace 44) with false. cbv iota.
    change (44 =? 44) with true. cbv iota.
    change (10 :: indent ++ tail) with ((10 :: indent) ++ tail).
    rewrite F1 by lia. cbn [rev map snd]. rewrite <- app_assoc. reflexivity.
Qed.

Lemma parses_array (stepback indent : jsstring) (entries : list (jsstring * value)) :
  whitespace stepback -> whitespace indent ->
  Forall (fun e => parses (fst e) (snd e)) entries ->
  parses (wrapped 91 93 stepback indent (map fst entries)) (JArray (map snd entries)).
Proof.
  intros Hs Hi He. destruct entries as [|e entries].
  { split; [exists 91, [93]; repeat split; discriminate|].
    intros rest _. exists 1%nat. intros [|f] Hf; [lia|]. reflexivity. }
  split.
  { unfold wrapped. cbn [map]. eexists 91, _. cbn [app]. repeat split; discriminate. }
  intros rest Hr.
  destruct (parse_elements_joined stepback indent (e :: entries) Hs Hi He ltac:(discriminate)
              (10 :: indent) [] rest (whitespace_cons 10 indent eq_refl Hi)) as [f0 F].
  exists (S f0). intros [|f] Hf; [lia|].
  pose proof (List.Forall_inv He) as [(c & t & Et & Wc & C1 & C2) _].
  unfold wrapped. change (map fst (e :: entries)) with (fst e :: map fst entries).
  cbv iota.
  replace (([91; 10] ++ indent ++ join_with ([44; 10] ++ indent) (fst e :: map fst entries)
            ++ [10] ++ stepback ++ [93]) ++ rest)
    with (91 :: (10 :: indent) ++ join_with ([44; 10] ++ indent) (map fst (e :: entries))
            ++ [10] ++ stepback ++ [93] ++ rest)
    by same_text.
  cbn [parse_value skip_ws]. change (is_whitespace 91) with false. cbv iota.
  change (91 =? 123) with false. change (91 =? 91) with true. cbv iota.
  set (body := join_with ([44; 10] ++ indent) (map fst (e :: entries)) ++ [10] ++ stepback
               ++ [93] ++ rest) in *.
  rewrite skip_ws_app by (apply whitespace_cons; [reflexivity|exact Hi]).
  assert (exists t', body = c :: t') as [t' Eb].
  { subst body. cbn [map]. rewrite Et. destruct (map fst entries); cbn [join_with app]; eauto. }
  rewrite Eb at 1. rewrite skip_ws_start by exact Wc.
  destruct (N.eqb_spec c 93); [contradiction|].
  apply F. lia.
Qed.

Lemma parse_members_joined (stepback indent : jsstring)
    (entries : list (jsstring * (jsstring * value))) :
  whitespace stepback -> whitespace indent ->
  Forall (fun e => parses (fst (snd e)) (snd (snd e))) entries -> entries <> [] ->
  forall ws acc rest,
    whitespace ws ->
    exists f0, forall f, (f0 <= f)%nat ->
      parse_members f
        (ws ++ join_with ([44; 10] ++ indent) (map member_text entries) ++ [10] ++ stepback
         ++ [125] ++ rest) acc
      = Parsed (JObject (rev acc ++ map member_value entries)) rest.
Proof.
  intros Hs Hi He. induction He as [|[name [text v]] entries [_ Pe] _ IH]; [congruence|].
  intros _ ws acc rest Hw. cbn [fst snd] in *.
  assert (forall f tail,
            parse_members (S f) (ws ++ member_text (name, (text, v)) ++ tail) acc
            = match parse_value f (text ++ tail) with
              | Parsed v rest =>
                  match skip_ws rest with
                  | c :: rest' =>
                      if c =? 44 then parse_members f rest' ((name, v) :: acc)
                      else if c =? 125 then Parsed (JObject (rev ((name, v) :: acc))) rest'
                      else SyntaxError
                  | [] => SyntaxError
                  end
              | SyntaxError => SyntaxError
              | OutOfFuel => OutOfFuel
              end) as Step.
  { intros f tail. cbn [parse_members]. rewrite skip_ws_app by exact Hw.
    unfold member_text, QuoteJSONString. cbn [fst snd app skip_ws].
    change (is_whitespace 34) with false. cbv iota. change (34 =? 34) with true. cbv iota.
    rewrite <- !app_assoc. cbn [app]. rewrite string_chars_quote.
    cbn [skip_ws]. change (is_whitespace 58) with false. cbv iota.
    change (58 =? 58) with true. cbv iota.
    change (32 :: text ++ tail) with ([32] ++ text ++ tail).
    rewrite parse_value_skip by (repeat constructor). reflexivity. }
  destruct entries as [|e2 more].
  - destruct (Pe (([10] ++ stepback) ++ [125] ++ rest) ltac:(right; reflexivity)) as [f0 F].
    exists (S f0). intros [|f] Hf; [lia|].
    replace (ws ++ join_with ([44; 10] ++ indent) (map member_text [(name, (text, v))])
             ++ [10] ++ stepback ++ [125] ++ rest)
      with (ws ++ member_text (name, (text, v)) ++ ([10] ++ stepback) ++ [125] ++ rest)
      by same_text.
    rewrite Step, F by lia.
    rewrite skip_ws_app by (apply whitespace_cons; [reflexivity|exact Hs]).
    reflexivity.
  - destruct (IH ltac:(discriminate) (10 :: indent) ((name, v) :: acc) rest
                (whitespace_cons 10 indent eq_refl Hi)) as [f1 F1].
    set (tail := join_with ([44; 10] ++ indent) (map member_text (e2 :: more)) ++ [10]
                 ++ stepback ++ [125] ++ rest) in *.
    destruct (Pe (44 :: 10 :: indent ++ tail) ltac:(left; reflexivity)) as [f0 F0].
    exists (S (Nat.max f0 f1)). intros [|f] Hf; [lia|].
    replace (ws ++ join_with ([44; 10] ++ indent)
                     (map member_text ((name, (text, v)) :: e2 :: more))
             ++ [10] ++ stepback ++ [125] ++ rest)
      with (ws ++ member_text (name, (text, v)) ++ 44 :: 10 :: indent ++ tail)
      by (subst tail; same_text).
    rewrite Step, F0 by lia. cbn [skip_ws]. change (is_whitespace 44) with false. cbv iota.
    change (44 =? 44) with true. cbv iota.
    change (10 :: indent ++ tail) with ((10 :: indent) ++ tail).
    rewrite F1 by lia. cbn [rev map]. rewrite <- app_assoc. reflexivity.
Qed.

Lemma parses_object (stepback indent : jsstring)
    (entries : list (jsstring * (jsstring * value))) :
  whitespace stepback -> whitespace indent ->
  Forall (fun e => parses (fst (snd e)) (snd (snd e))) entries ->
  parses (wrapped 123 125 stepback indent (map member_text entries))
         (JObject (map member_value entries)).
Proof.
  intros Hs Hi He. destruct entries as [|e entries].
  { split; [exists 123, [125]; repeat split; discriminate|].
    intros rest _. exists 1%nat. intros [|f] Hf; [lia|]. reflexivity. }
  split.
  { unfold wrapped. cbn [map]. eexists 123, _. cbn [app]. repeat split; discriminate. }
  intros rest Hr.
  destruct (parse_members_joined stepback indent (e :: entries) Hs Hi He ltac:(discriminate)
              (10 :: indent) [] rest (whitespace_cons 10 indent eq_refl Hi)) as [f0 F].
  exists (S f0). intros [|f] Hf; [lia|].
  unfold wrapped. change (map member_text (e :: entries))
    with (member_text e :: map member_text entries).
  cbv iota.
  replace (([123; 10] ++ indent
            ++ join_with ([44; 10] ++ indent) (member_text e :: map member_text entries)
            ++ [10] ++ stepback ++ [125]) ++ rest)
    with (123 :: (10 :: indent)
            ++ join_with ([44; 10] ++ indent) (map member_text (e :: entries))
            ++ [10] ++ stepback ++ [125] ++ rest)
    by same_text.
  cbn [parse_value skip_ws]. change (is_whitespace 123) with false. cbv iota.
  change (123 =? 123) with true. cbv iota.
  set (body := join_with ([44; 10] ++ indent) (map member_text (e :: entries)) ++ [10]
               ++ stepback ++ [125] ++ rest) in *.
  rewrite skip_ws_app by (apply whitespace_cons; [reflexivity|exact Hi]).
  assert (exists t', body = 34 :: t') as [t' Eb].
  { subst body. cbn [map]. unfold member_text at 1, QuoteJSONString.
    destruct (map member_text entries); cbn [join_with app]; eauto. }
  rewrite Eb at 1. rewrite skip_ws_start by reflexivity.
  change (34 =? 125) with false. cbv iota.
  apply F. lia.
Qed.

(** *** Serialized values *)

Lemma data_induction (P : data -> Prop) :
  P DUndefined -> (forall s, P (DString s)) -> (forall n, P (DCount n)) ->
  (forall elements, Forall P elements -> P (DArray elements)) ->
  (forall properties, Forall (fun property => P (snd property)) properties ->
                      P (DObject properties)) ->
  forall value, P value.
Proof.
  intros HU HS HC HA HO.
  fix IH 1. intros [| s | n | elements | properties].
  - exact HU.
  - apply HS.
  - apply HC.
  - apply HA. induction elements as [|e elements IHe]; constructor; [apply IH|exact IHe].
  - apply HO. induction properties as [|p properties IHp]; constructor; [apply IH|exact IHp].
Qed.

Lemma serialize_undefined (indent : jsstring) (value : data) :
  SerializeJSONProperty indent value = None <-> value = DUndefined.
Proof. destruct value; cbn; split; congruence. Qed.

Lemma parses_text_of (value : data) :
  forall indent, whitespace indent -> parses (text_of indent value) (parsed_of value).
Proof.
  induction value as [| s | n | elements IH | properties IH] using data_induction;
    intros indent Hi.
  - apply parses_null.
  - apply parses_string.
  - apply parses_count.
  - unfold text_of. cbn [SerializeJSONProperty parsed_of].
    set (indent' := indent ++ gap).
    pose (entries := map (fun x => (text_of indent' x, parsed_of x)) elements).
    replace (map _ elements) with (map fst entries) at 1
      by (subst entries; rewrite map_map; reflexivity).
    replace (map parsed_of elements) with (map snd entries)
      by (subst entries; rewrite map_map; reflexivity).
    apply parses_array; [exact Hi|apply whitespace_gap, Hi|].
    subst entries. apply List.Forall_map. eapply List.Forall_impl; [|exact IH].
    cbn. intros x Hx. apply Hx, whitespace_gap, Hi.
  - unfold text_of. cbn [SerializeJSONProperty parsed_of].
    set (indent' := indent ++ gap).
    pose (entries :=
            flat_map (fun property =>
                        match SerializeJSONProperty indent' (snd property) with
                        | Some strP => [(fst property, (strP, parsed_of (snd property)))]
                        | None => []
                        end) properties).
    assert (flat_map (fun property =>
                        match SerializeJSONProperty indent' (snd property) with
                        | Some strP => [QuoteJSONString (fst property) ++ [58; 32] ++ strP]
                        | None => []
                        end) properties
            = map member_text entries) as ->.
    { subst entries. clear IH. induction properties as [|p properties IHp]; [reflexivity|].
      cbn [flat_map]. rewrite map_app, <- IHp.
      destruct (SerializeJSONProperty indent' (snd p)); reflexivity. }
    assert (flat_map (fun property =>
                        match snd property with
                        | DUndefined => []
                        | _ => [(fst property, parsed_of (snd property))]
                        end) properties
            = map member_value entries) as ->.
    { subst entries. clear IH. induction properties as [|p properties IHp]; [reflexivity|].
      cbn [flat_map]. rewrite map_app, <- IHp. destruct (snd p); reflexivity. }
    apply parses_object; [exact Hi|apply whitespace_gap, Hi|].
    subst entries. clear -IH Hi. induction IH as [|p properties Hp _ IHp]; [constructor|].
    cbn [flat_map]. apply Forall_app. split; [|exact IHp].
    specialize (Hp indent' (whitespace_gap indent Hi)). unfold text_of in Hp.
    destruct (SerializeJSONProperty indent' (snd p)); constructor; [exact Hp|constructor].
Qed.

(** Whatever [JSON.stringify] writes of a value, [JSON.parse] reads back. *)
Lemma parse_of_stringify (value : data) (text : jsstring) :
  stringify value = Some text -> JSON.parse text = Return (parsed_of value).
Proof.
  intros H. destruct (parses_text_of value [] ltac:(constructor)) as [_ P].
  destruct (P [] I) as [f0 F]. unfold text_of in F. unfold stringify in H. rewrite H in F.
  apply (parse_of_parse_value f0). rewrite <- (app_nil_r text). apply F. lia.
Qed.

(** X19. What [exportVaultToJSON] writes, [parseImportedVault] accepts:
    the bundle it returns holds the version, the time of the export, the
    number of items and the items, and each item read back from the bundle
    has the identifiers, the title, the times and the optional fields of
    the exported one, an absent optional field being absent again.  This
    holds for every content of the fields, quotes, control characters and
    surrogates without a partner included. *)
Theorem export_then_import (exportedAt : jsstring) (items : list DecryptedVaultItem) :
  exists bundle elements,
    parseImportedVault (exportVaultToJSON exportedAt items) = Return bundle
    /\ bundle = parsed_of (exportData exportedAt items)
    /\ get bundle (js "version") = Return (Some (JString (js "1.0.0")))
    /\ get bundle (js "exportedAt") = Return (Some (JString exportedAt))
    /\ get bundle (js "itemCount")
       = Return (Some (JNumber {| negative := false; digits := N.of_nat (length items);
                                  exponent := 0 |}))
    /\ get bundle (js "items") = Return (Some (JArray elements))
    /\ map item_of elements = map Some items.
Proof.
  eexists. exists (map (fun item => parsed_of (item_data item)) items).
  assert (JSON.parse (exportVaultToJSON exportedAt items)
          = Return (parsed_of (exportData exportedAt items))) as P.
  { apply parse_of_stringify. unfold exportVaultToJSON, stringify. reflexivity. }
  split.
  { unfold parseImportedVault. rewrite P. reflexivity. }
  split; [reflexivity|]. split; [reflexivity|]. split; [reflexivity|].
  split; [reflexivity|]. split.
  { cbn. rewrite map_map. reflexivity. }
  rewrite map_map. apply map_ext. intros item. unfold item_data.
  destruct item as [i u t [un|] [pw|] [ur|] [no|] c m]; reflexivity.
Qed.

End ExportFacts.

(** ** From the stored ciphertexts to the export file and back *)

Module PipelineFacts.

Import JSON JSONStringify VaultItemCrypto VaultItemCryptoTerms VaultExport VaultExportJSON
  ExportTerms ExportImportModal PipelineTerms CipherTerms.

Lemma decrypt_stored (random : salts) (key : jsstring) (p : plain_item)
    (item : DecryptedVaultItem) :
  well_formed key -> well_formed_item p -> stored_under key p item ->
  decryptVaultItem random item key = Return (shown p).
Proof.
  intros Hk (Ht & Hu & Hp & Hl & Hn) (r1 & c & E & ->).
  destruct (VaultItemCryptoFacts.field_round_trip (for_title r1) (for_title random) _ _ Ht Hk)
    as (ct & Et & Dt & _).
  destruct (VaultItemCryptoFacts.optional_round_trip (for_username r1) (for_username random)
              _ _ Hu Hk) as (cu & Eu & Du & _).
  destruct (VaultItemCryptoFacts.optional_round_trip (for_password r1) (for_password random)
              _ _ Hp Hk) as (cp & Ep & Dp & _).
  destruct (VaultItemCryptoFacts.optional_round_trip (for_url r1) (for_url random)
              _ _ Hl Hk) as (cl & El & Dl & _).
  destruct (VaultItemCryptoFacts.optional_round_trip (for_notes r1) (for_notes random)
              _ _ Hn Hk) as (cn & En & Dn & _).
  unfold encryptVaultItem in E. rewrite Et, Eu, Ep, El, En in E. cbn [bind] in E.
  injection E as <-.
  unfold decryptVaultItem, stored, shown.
  cbn [_id item_userId item_title item_username item_password_of item_url item_notes
       item_createdAt item_updatedAt out_title out_username out_password out_url out_notes].
  rewrite Dt, Du, Dp, Dl, Dn. reflexivity.
Qed.

Lemma decryptedItems_stored (random : nat -> salts) (key : jsstring)
    (plain : list plain_item) (vaultItems : list DecryptedVaultItem) :
  well_formed key -> Forall well_formed_item plain ->
  Forall2 (stored_under key) plain vaultItems ->
  forall i, decryptedItems random i vaultItems key = map shown plain.
Proof.
  intros Hk Hw HS. induction HS as [|p item plain vaultItems Hs _ IH]; intros i; [reflexivity|].
  cbn [decryptedItems map].
  rewrite (decrypt_stored (random i) key p item Hk); [|exact (List.Forall_inv Hw)|exact Hs].
  f_equal. apply IH. exact (List.Forall_inv_tail Hw).
Qed.

Lemma parseImportedVault_export (exportedAt : jsstring) (items : list DecryptedVaultItem) :
  parseImportedVault (exportVaultToJSON exportedAt items)
  = Return (parsed_of (exportData exportedAt items)).
Proof.
  unfold parseImportedVault.
  rewrite (ExportFacts.parse_of_stringify (exportData exportedAt items)
             (exportVaultToJSON exportedAt items) eq_refl).
  reflexivity.
Qed.

Lemma get_exported_items (exportedAt : jsstring) (items : list DecryptedVaultItem) :
  get (parsed_of (exportData exportedAt items)) (js "items")
  = Return (Some (JArray (map (fun item => parsed_of (item_data item)) items))).
Proof. cbn. rewrite map_map. reflexivity. Qed.

(** X20. For an unlocked vault whose items and key crypto-js can read, the
    export exports every item, none is left out, and importing the file it
    downloads hands [onImport] the items in plaintext as the client shows
    them: what was encrypted comes back through decryption, serialization
    and parsing. *)
Theorem export_then_import_of_stored (random : nat -> salts) (exportedAt key : jsstring)
    (plain : list plain_item) (vaultItems : list DecryptedVaultItem) :
  key <> [] -> well_formed key ->
  plain <> [] -> Forall well_formed_item plain ->
  Forall2 (stored_under key) plain vaultItems ->
  exists jsonData elements,
    handleExportJSON random exportedAt (Some key) vaultItems
    = downloaded jsonData (length vaultItems)
    /\ handleImport (Some key) jsonData = onImport elements
    /\ map item_of elements = map (fun p => Some (shown p)) plain.
Proof.
  intros Hne Hk Hp Hw HS.
  pose proof (decryptedItems_stored random key plain vaultItems Hk Hw HS 0%nat) as D.
  destruct key as [|c k]; [congruence|].
  exists (exportVaultToJSON exportedAt (map shown plain)),
         (map (fun item => parsed_of (item_data item)) (map shown plain)).
  split; [|split].
  - unfold handleExportJSON. rewrite D, length_map.
    rewrite (Forall2_length _ _ _ HS). reflexivity.
  - unfold handleImport. rewrite parseImportedVault_export, get_exported_items.
    destruct plain as [|p plain]; [congruence|]. reflexivity.
  - rewrite !map_map. apply map_ext. intros p. reflexivity.
Qed.

Lemma export_then_import_of_stored_witness :
  exists jsonData elements,
    handleExportJSON (fun _ => zero_salts) (js "2024-03-13T10:00:01.000Z")
      (Some (js "correct horse")) [stored_login]
    = downloaded jsonData 1
    /\ handleImport (Some (js "correct horse")) jsonData = onImport elements
    /\ map item_of elements = [Some (shown plain_login)].
Proof.
  apply (export_then_import_of_stored (fun _ => zero_salts) (js "2024-03-13T10:00:01.000Z")
           (js "correct horse") [plain_login] [stored_login]).
  - discriminate.
  - split; [apply VaultItemCryptoFacts.js_code_units | reflexivity].
  - discriminate.
  - constructor; [|constructor].
    repeat split; try apply VaultItemCryptoFacts.js_code_units; try exact I; constructor.
  - constructor; [|constructor].
    exists zero_salts. eexists. split; [vm_compute; reflexivity|].
    vm_compute. reflexivity.
Defined.

End PipelineFacts.

(** ** The derived key *)

Module KeyDerivationFacts.

Import Utf8 Crypto CipherTerms KeyDerivation VaultItemCryptoTerms.

Lemma ascii_well_formed (s : jsstring) :
  Forall (fun c => c < 128) s -> well_formed s.
Proof.
  intros H. split.
  - eapply List.Forall_impl; [|exact H]. cbn. intros; lia.
  - induction H as [|c s Hc _ IH]; [reflexivity|]. cbn [paired].
    unfold is_low_surrogate, is_high_surrogate.
    destruct (N.leb_spec 0xDC00 c); [lia|]. destruct (N.leb_spec 0xD800 c); [lia|].
    cbn [andb]. exact IH.
Qed.

Lemma hexChar_ascii (n : N) : n < 16 -> hexChar n < 128.
Proof. intros H. unfold hexChar. destruct (n <? 10); lia. Qed.

Lemma Hex_stringify_well_formed (bytes : list octet) :
  Forall (fun c => c < 128) (Hex_stringify bytes).
Proof.
  induction bytes as [|b bytes IH]; [constructor|].
  unfold Hex_stringify. cbn [flat_map app]. pose proof (N_ascii_bounded b).
  constructor; [apply hexChar_ascii, N.Div0.div_lt_upper_bound; lia|].
  constructor; [apply hexChar_ascii, N.mod_upper_bound; lia|exact IH].
Qed.

Lemma parse_well_formed (s : jsstring) :
  well_formed s -> exists bytes, Utf8.parse s = Return bytes.
Proof. intros [_ H]. destruct (Utf8Facts.parse_paired s H) as (bs & _ & P). eauto. Qed.

Section WithHashes.

Variable SHA256 : list octet -> list octet.
Variable PBKDF2 : list octet -> list octet -> N -> N -> list octet.

(** When [deriveKey] returns and what. *)
Lemma deriveKey_cases (masterPassword email : jsstring) :
  (paired masterPassword = true -> paired email = true ->
     exists key, deriveKey SHA256 PBKDF2 masterPassword email = Return key
                 /\ well_formed key)
  /\ (paired masterPassword = false \/ paired email = false ->
        deriveKey SHA256 PBKDF2 masterPassword email = Throw "URI malformed").
Proof.
  unfold deriveKey, EncryptionContext.deriveKey, SHA256_toString, PBKDF2_toString.
  split.
  - intros Hp He.
    destruct (Utf8Facts.parse_paired _ Hp) as (pb & _ & ->).
    destruct (Utf8Facts.parse_paired _ He) as (eb & _ & ->).
    cbn [bind].
    destruct (parse_well_formed _ (ascii_well_formed _
                (Hex_stringify_well_formed (SHA256 (map ascii_of_N eb))))) as [sb ->].
    cbn [bind]. eexists. split; [reflexivity|].
    apply ascii_well_formed, Hex_stringify_well_formed.
  - intros H. destruct (paired email) eqn:He.
    + destruct H as [H|H]; [|discriminate].
      destruct (Utf8Facts.parse_paired _ He) as (eb & _ & ->). cbn [bind].
      rewrite (Utf8Facts.parse_unpaired _ H). reflexivity.
    + rewrite (Utf8Facts.parse_unpaired _ He). reflexivity.
Qed.

(** X21. [setupEncryptionKey] unlocks the vault exactly for a master
    password of at least eight code units when neither it nor the email
    has a surrogate without its partner; the key it then holds is text in
    hexadecimal digits, which [encrypt] and [decrypt] can read.  In every
    other case it answers false and leaves the state of the context as it
    was. *)
Theorem setupEncryptionKey_outcome (st : EncryptionContext.state)
    (masterPassword email : jsstring) :
  ((8 <= length masterPassword)%nat -> paired masterPassword = true -> paired email = true ->
     exists key,
       setupEncryptionKey SHA256 PBKDF2 st masterPassword email
       = ({| EncryptionContext.encryptionKey := Some key;
             EncryptionContext.isLocked := false |}, true)
       /\ deriveKey SHA256 PBKDF2 masterPassword email = Return key
       /\ well_formed key)
  /\ ((length masterPassword < 8)%nat \/ paired masterPassword = false \/ paired email = false ->
        setupEncryptionKey SHA256 PBKDF2 st masterPassword email = (st, false)).
Proof.
  destruct (deriveKey_cases masterPassword email) as [Dr Dt].
  unfold setupEncryptionKey, EncryptionContext.setupEncryptionKey.
  fold (deriveKey SHA256 PBKDF2 masterPassword email).
  rewrite StrengthFacts.validate_isValid.
  split.
  - intros Hl Hp He. destruct (Nat.ltb_spec (length masterPassword) 8); [lia|]. cbn [negb].
    destruct (Dr Hp He) as (key & -> & Hk). exists key. auto.
  - intros H. destruct (Nat.ltb_spec (length masterPassword) 8); [reflexivity|]. cbn [negb].
    rewrite Dt; [reflexivity|]. destruct H as [H|H]; [lia|exact H].
Qed.

(** X22. [testEncryption] answers true, whatever salts are drawn. *)
Theorem testEncryption_true (random1 random2 : CryptoJS.salt64) :
  testEncryption SHA256 PBKDF2 random1 random2 = true.
Proof.
  unfold testEncryption.
  destruct (deriveKey_cases (js "testPassword123") (js "test@example.com")) as [Dr _].
  destruct (Dr eq_refl eq_refl) as (key & -> & Hk). cbn [bind].
  destruct (VaultItemCryptoFacts.field_round_trip random1 random2
              (js "Test encryption string") key) as (c & E & D & _).
  - split; [apply VaultItemCryptoFacts.js_code_units|reflexivity].
  - exact Hk.
  - rewrite E. cbn [bind]. rewrite D. cbn [bind try_catch_bool].
    apply VerifierFacts.string_eqb_refl.
Qed.

End WithHashes.

End KeyDerivationFacts.

(** ** What [validateEmail] accepts *)

Module EmailFacts.

Import RegExp AuthHelpers EmailTerms.

Lemma nullable_matches (p : pattern) : nullable p = true <-> matches p [].
Proof.
  induction p as [| | a | p IHp q IHq | p IHp q IHq | p IHp]; cbn [nullable].
  - split; [discriminate|inversion 1].
  - split; [constructor|reflexivity].
  - split; [discriminate|inversion 1].
  - rewrite andb_true_iff, IHp, IHq. split.
    + intros [H1 H2]. apply (matches_Seq p q [] []); assumption.
    + inversion 1 as [| |? ? s t H1 H2 E1 E2| | | |]. subst.
      apply app_eq_nil in E2 as [-> ->]. auto.
  - rewrite orb_true_iff, IHp, IHq. split.
    + intros [H|H]; [apply matches_Or_l|apply matches_Or_r]; exact H.
    + inversion 1; subst; auto.
  - split; [constructor|reflexivity].
Qed.

Lemma after_matches (p : pattern) :
  forall c s, matches (after c p) s <-> matches p (c :: s).
Proof.
  induction p as [| | a | p IHp q IHq | p IHp q IHq | p IHp]; intros c s; cbn [after].
  - split; inversion 1.
  - split; inversion 1.
  - destruct (a c) eqn:E; split.
    + inversion 1; subst. constructor. exact E.
    + inversion 1; subst. constructor.
    + inversion 1.
    + inversion 1; subst. congruence.
  - assert (matches (Seq (after c p) q) s \/ (matches p [] /\ matches (after c q) s)
            <-> matches (Seq p q) (c :: s)) as K.
    { split.
      - intros [H|[H1 H2]].
        + inversion H as [| |? ? s1 t H1 H2 E1 E2| | | |]; subst.
          apply IHp in H1. apply (matches_Seq p q (c :: s1) t); assumption.
        + apply IHq in H2. apply (matches_Seq p q [] (c :: s)); assumption.
      - inversion 1 as [| |? ? s1 t H1 H2 E1 E2| | | |]; subst.
        destruct s1 as [|c1 s1]; cbn [app] in E2.
        + subst t. right. split; [exact H1|]. apply IHq. exact H2.
        + injection E2 as -> <-. left. apply matches_Seq; [apply IHp; exact H1|exact H2]. }
    rewrite <- K. destruct (nullable p) eqn:N.
    + apply nullable_matches in N. split.
      * inversion 1; subst; [left; assumption|right; split; assumption].
      * intros [H|[_ H]]; [apply matches_Or_l|apply matches_Or_r]; exact H.
    + split; [intros H; left; exact H|].
      intros [H|[H _]]; [exact H|]. apply nullable_matches in H. congruence.
  - split.
    + inversion 1; subst; [apply matches_Or_l, IHp|apply matches_Or_r, IHq]; assumption.
    + inversion 1; subst; [apply matches_Or_l, IHp|apply matches_Or_r, IHq]; assumption.
  - split.
    + inversion 1 as [| |? ? s1 t H1 H2 E1 E2| | | |]; subst.
      apply IHp in H1. apply (matches_Star_more p (c :: s1) t); assumption.
    + intros H. remember (Star p) as r eqn:Er. remember (c :: s) as cs eqn:Ec.
      revert s Ec. induction H as [| | | | | |p' s1 t H1 _ H2 IH2]; intros u Ec;
        try discriminate.
      injection Er as ->. destruct s1 as [|c1 s1]; cbn [app] in Ec.
      * apply IH2; [reflexivity|exact Ec].
      * injection Ec as -> <-. apply matches_Seq; [apply IHp; exact H1|exact H2].
Qed.

(** [test] decides the language of the pattern. *)
Lemma test_matches (s : jsstring) : forall p, test p s = true <-> matches p s.
Proof.
  induction s as [|c s IH]; intros p; cbn [test].
  - apply nullable_matches.
  - rewrite IH. apply after_matches.
Qed.

Lemma matches_Seq_inv (p q : pattern) (u : jsstring) :
  matches (Seq p q) u -> exists s t, u = s ++ t /\ matches p s /\ matches q t.
Proof. inversion 1; subst; eauto. Qed.

Lemma matches_Class_inv (a : N -> bool) (u : jsstring) :
  matches (Class a) u -> exists c, u = [c] /\ a c = true.
Proof. inversion 1; subst; eauto. Qed.

Lemma matches_Optional_inv (p : pattern) (u : jsstring) :
  matches (Optional p) u -> u = [] \/ matches p u.
Proof.
  inversion 1 as [| | |? ? ? H1|? ? ? H1| |]; subst; [|right; exact H1].
  inversion H1. left. reflexivity.
Qed.

(** What holds of every round of a repetition, and of the joined text of
    two strings it holds of, holds of the whole repetition. *)
Lemma matches_Star_all (Q : jsstring -> Prop) (p : pattern) :
  Q [] -> (forall s t, Q s -> Q t -> Q (s ++ t)) ->
  (forall s, matches p s -> Q s) ->
  forall s, matches (Star p) s -> Q s.
Proof.
  intros Q0 Qapp Qp s H. remember (Star p) as r eqn:Er.
  induction H as [| | | | | |p' s1 t H1 _ H2 IH2]; try discriminate; [exact Q0|].
  injection Er as ->. apply Qapp; [apply Qp; exact H1|apply IH2; reflexivity].
Qed.

(** The last round of a repetition that runs at least once. *)
Lemma matches_Plus_last (p : pattern) (u : jsstring) :
  matches (Plus p) u ->
  exists before last, u = before ++ last /\ matches (Star p) before /\ matches p last.
Proof.
  intros H. apply matches_Seq_inv in H as (s & t & -> & Hs & Ht).
  revert s Hs. remember (Star p) as r eqn:Er.
  induction Ht as [| | | | | |p' s1 t H1 _ H2 IH2]; intros s0 Hs; try discriminate.
  - exists [], s0. rewrite app_nil_r. injection Er as ->. repeat split; [constructor|exact Hs].
  - injection Er as ->. destruct (IH2 eq_refl s1 H1) as (before & last & E & Hb & Hl).
    exists (s0 ++ before), last. rewrite E, app_assoc.
    repeat split; [|exact Hl]. apply matches_Star_more; assumption.
Qed.

Lemma word_address_char (s : jsstring) :
  forallb word s = true -> forallb address_char s = true.
Proof.
  rewrite !forallb_forall. intros H c Hc. unfold address_char. rewrite (H c Hc). reflexivity.
Qed.

Lemma matches_word_plus (s : jsstring) :
  matches (Plus (Class word)) s -> s <> [] /\ forallb word s = true.
Proof.
  intros H. apply matches_Seq_inv in H as (s1 & t & -> & H1 & Ht).
  apply matches_Class_inv in H1 as (c & -> & Hc). split; [discriminate|].
  cbn [app forallb]. rewrite Hc. cbn [andb]. revert Ht.
  apply (matches_Star_all (fun s => forallb word s = true)); [reflexivity| |].
  - intros u v Hu Hv. rewrite forallb_app, Hu, Hv. reflexivity.
  - intros u Hu. apply matches_Class_inv in Hu as (d & -> & Hd). cbn [forallb].
    rewrite Hd. reflexivity.
Qed.

(** [\w+([\.-]?\w+)*] matches non-empty strings of word characters, dots and
    hyphens only. *)
Lemma matches_words (s : jsstring) :
  matches words s -> s <> [] /\ forallb address_char s = true.
Proof.
  intros H. apply matches_Seq_inv in H as (s1 & t & -> & H1 & Ht).
  apply matches_word_plus in H1 as [Hn H1]. split.
  - destruct s1; [congruence|discriminate].
  - rewrite forallb_app, (word_address_char _ H1). cbn [andb]. revert Ht.
    apply (matches_Star_all (fun s => forallb address_char s = true)); [reflexivity| |].
    + intros u v Hu Hv. rewrite forallb_app, Hu, Hv. reflexivity.
    + intros u Hu. apply matches_Seq_inv in Hu as (o & w & -> & Ho & Hw).
      apply matches_word_plus in Hw as [_ Hw]. rewrite forallb_app, (word_address_char _ Hw).
      apply matches_Optional_inv in Ho as [-> |Ho]; [reflexivity|].
      apply matches_Class_inv in Ho as (d & -> & Hd). cbn [forallb]. unfold address_char.
      rewrite Hd, orb_true_r. reflexivity.
Qed.

(** [\.\w{2,3}] *)
Lemma matches_ending (s : jsstring) :
  matches (Seq (Class dot) (TwoOrThree (Class word))) s ->
  exists tld, s = 46 :: tld /\ forallb word tld = true /\
              (length tld = 2 \/ length tld = 3)%nat.
Proof.
  intros H. apply matches_Seq_inv in H as (d & t & -> & Hd & Ht).
  apply matches_Class_inv in Hd as (c & -> & Hc). unfold dot in Hc.
  apply N.eqb_eq in Hc as ->.
  apply matches_Seq_inv in Ht as (a & t1 & -> & Ha & Ht).
  apply matches_Class_inv in Ha as (c1 & -> & Hc1).
  apply matches_Seq_inv in Ht as (b & t2 & -> & Hb & Ht).
  apply matches_Class_inv in Hb as (c2 & -> & Hc2).
  apply matches_Optional_inv in Ht as [-> |Ht].
  - exists [c1; c2]. cbn [app forallb length]. rewrite Hc1, Hc2. auto.
  - apply matches_Class_inv in Ht as (c3 & -> & Hc3).
    exists [c1; c2; c3]. cbn [app forallb length]. rewrite Hc1, Hc2, Hc3. auto.
Qed.

Lemma matches_endings (s : jsstring) :
  matches (Star (Seq (Class dot) (TwoOrThree (Class word)))) s ->
  forallb address_char s = true.
Proof.
  apply (matches_Star_all (fun s => forallb address_char s = true)); [reflexivity| |].
  - intros u v Hu Hv. rewrite forallb_app, Hu, Hv. reflexivity.
  - intros u Hu. apply matches_ending in Hu as (tld & -> & Hw & _).
    cbn [forallb]. rewrite (word_address_char _ Hw). reflexivity.
Qed.

Lemma matches_word_string (s : jsstring) :
  forallb word s = true -> matches (Star (Class word)) s.
Proof.
  induction s as [|c s IH]; cbn [forallb]; [constructor|].
  intros H. apply andb_true_iff in H as [Hc Hs].
  apply (matches_Star_more (Class word) [c] s); [constructor; exact Hc|apply IH; exact Hs].
Qed.

Lemma matches_word_words (s : jsstring) :
  s <> [] -> forallb word s = true -> matches words s.
Proof.
  intros Hn H. destruct s as [|c s]; [congruence|]. cbn [forallb] in H.
  apply andb_true_iff in H as [Hc Hs]. rewrite <- (app_nil_r (c :: s)).
  apply matches_Seq; [|constructor].
  apply (matches_Seq (Class word) (Star (Class word)) [c] s);
    [constructor; exact Hc|apply matches_word_string; exact Hs].
Qed.

(** X23. An address that [validateEmail] accepts reads local@domain.tld:
    one @, before it and between it and the last dot a non-empty text of
    letters, digits, underscores, dots and hyphens, and after the last dot
    two or three letters, digits or underscores. *)
Theorem validateEmail_shape (email : jsstring) :
  validateEmail email = true ->
  exists local domain tld,
    email = local ++ [64] ++ domain ++ [46] ++ tld /\
    local <> [] /\ domain <> [] /\
    forallb address_char local = true /\
    forallb address_char domain = true /\
    forallb word tld = true /\
    (length tld = 2 \/ length tld = 3)%nat.
Proof.
  unfold validateEmail, emailRegex. rewrite test_matches. intros H.
  apply matches_Seq_inv in H as (local & r1 & -> & Hl & H).
  apply matches_Seq_inv in H as (a & r2 & -> & Ha & H).
  apply matches_Class_inv in Ha as (c & -> & Hc). unfold at_sign in Hc.
  apply N.eqb_eq in Hc as ->.
  apply matches_Seq_inv in H as (d & r3 & -> & Hd & H).
  apply matches_Plus_last in H as (before & last & -> & Hb & Hlast).
  apply matches_ending in Hlast as (tld & -> & Hw & Hlen).
  apply matches_words in Hl as [Hln Hl]. apply matches_words in Hd as [Hdn Hd].
  apply matches_endings in Hb.
  exists local, (d ++ before), tld. repeat split; try assumption.
  - cbn [app]. rewrite <- !app_assoc. reflexivity.
  - destruct d; [congruence|discriminate].
  - rewrite forallb_app, Hd, Hb. reflexivity.
Qed.

Lemma validateEmail_shape_witness :
  validateEmail (js "ann.lee@mail.example.org") = true /\
  exists local domain tld,
    js "ann.lee@mail.example.org" = local ++ [64] ++ domain ++ [46] ++ tld /\
    local <> [] /\ domain <> [] /\
    forallb address_char local = true /\
    forallb address_char domain = true /\
    forallb word tld = true /\
    (length tld = 2 \/ length tld = 3)%nat.
Proof.
  split; [vm_compute; reflexivity|].
  apply (validateEmail_shape (js "ann.lee@mail.example.org")). vm_compute. reflexivity.
Defined.

(** X24. [validateEmail] accepts every address name@host.tld whose name and
    host are non-empty texts of letters, digits and underscores and whose
    last label has two or three of them. *)
Theorem validateEmail_accepts (name host tld : jsstring) :
  name <> [] -> host <> [] ->
  forallb word name = true -> forallb word host = true -> forallb word tld = true ->
  (length tld = 2 \/ length tld = 3)%nat ->
  validateEmail (name ++ [64] ++ host ++ [46] ++ tld) = true.
Proof.
  intros Hn Hh Wn Wh Wt Hlen. unfold validateEmail, emailRegex. rewrite test_matches.
  apply matches_Seq; [apply matches_word_words; assumption|].
  apply (matches_Seq (Class at_sign) _ [64]); [constructor; reflexivity|].
  apply matches_Seq; [apply matches_word_words; assumption|].
  rewrite <- (app_nil_r ([46] ++ tld)). apply matches_Seq; [|constructor].
  apply (matches_Seq (Class dot) _ [46]); [constructor; reflexivity|].
  destruct tld as [|c1 [|c2 [|c3 [|c4 tld]]]]; cbn [length] in Hlen;
    try (destruct Hlen; discriminate); cbn [forallb] in Wt;
    repeat (apply andb_true_iff in Wt as [? Wt]).
  - apply (matches_Seq (Class word) _ [c1] [c2]); [constructor; assumption|].
    rewrite <- (app_nil_r [c2]).
    apply (matches_Seq (Class word) _ [c2] []); [constructor; assumption|].
    apply matches_Or_l. constructor.
  - apply (matches_Seq (Class word) _ [c1] [c2; c3]); [constructor; assumption|].
    apply (matches_Seq (Class word) _ [c2] [c3]); [constructor; assumption|].
    apply matches_Or_r. constructor. assumption.
Qed.

Lemma validateEmail_accepts_witness :
  validateEmail (js "ann_lee" ++ [64] ++ js "example" ++ [46] ++ js "org") = true.
Proof.
  apply (validateEmail_accepts (js "ann_lee") (js "example") (js "org"));
    try discriminate; try (vm_compute; reflexivity).
  right. reflexivity.
Defined.

End EmailFacts.
